(** * Graph.js: time grid, alignment, stacking, formatting and hover focus

    A shallow embedding of [src/components/Graph/Graph.js] and of the
    library calls it makes (lodash [range], [sortedIndex], [sortBy],
    [values], [minBy], [max], [flatten]; d3 [scaleQuantize],
    [bisectRight], [stack], [scaleLinear]; [Array.prototype.sort],
    [parseFloat], [Number.prototype.toFixed], [Math.round]), followed by
    the properties of the specification and further properties of the
    component.

    Numbers.  A JavaScript number is an IEEE double.  The window
    parameters [startTimeSec], [endTimeSec], [stepDurationSec] are unix
    seconds and are modelled as integers ([Z]), and so are the grid
    timestamps computed from them; every other number is a [num]: an
    exact rational, one of the two infinities, or NaN.  The rounding of
    doubles is modelled where the grid is computed ([double],
    [timestampSecs_double]), and the grid of exact arithmetic is shown
    to be the one the doubles compute on the windows of
    [window_in_range]; elsewhere rounding, and everywhere the sign of
    zero, are outside the model.  Digits are printed as the source
    prints them for integers below [2^53] and, by [toFixed], for values
    below [10^21] in magnitude; the exponent notation of larger numbers
    is outside the model.

    Strings are byte strings, ordered by their bytes, which is the order
    of UTF-16 code units on ASCII text.  A series name is used as a
    property name of a plain object; a name that JavaScript treats
    specially there ([__proto__]) is outside the model.

    Errors.  A function that can throw returns an [option]; [None] is
    the thrown [TypeError] or [RangeError].

    Layout: the embedding, the notions the statements use, the
    properties. *)

From Stdlib Require Import QArith Qround Qabs Qpower Qreduction Lqa Ascii.
From stdpp Require Import gmap strings list fin_maps sorting pretty.

Local Open Scope Z_scope.

(** ** JavaScript numbers *)

Inductive num : Type :=
  | Fin (q : Q)
  | PInf
  | NInf
  | NaN.

Definition Qltb (a b : Q) : bool := (Qnum a * QDen b <? Qnum b * QDen a)%Z.
Definition Qleb (a b : Q) : bool := (Qnum a * QDen b <=? Qnum b * QDen a)%Z.
Definition Qzerob (a : Q) : bool := (Qnum a =? 0)%Z.

Definition num_of_Z (z : Z) : num := Fin (inject_Z z).

Definition isNaN (x : num) : bool :=
  match x with NaN => true | _ => false end.

(** [x + y] *)
Definition num_add (x y : num) : num :=
  match x, y with
  | NaN, _ | _, NaN => NaN
  | PInf, NInf | NInf, PInf => NaN
  | PInf, _ | _, PInf => PInf
  | NInf, _ | _, NInf => NInf
  | Fin a, Fin b => Fin (a + b)
  end.

(** [-x] *)
Definition num_neg (x : num) : num :=
  match x with
  | Fin a => Fin (- a)
  | PInf => NInf
  | NInf => PInf
  | NaN => NaN
  end.

(** [x - y] *)
Definition num_sub (x y : num) : num :=
  match x, y with
  | Fin a, Fin b => Fin (a - b)
  | _, _ => num_add x (num_neg y)
  end.

(** [Math.abs(x)] *)
Definition num_abs (x : num) : num :=
  match x with
  | Fin a => Fin (Qabs a)
  | PInf | NInf => PInf
  | NaN => NaN
  end.

(** [x < y]: false as soon as one side is NaN. *)
Definition num_lt (x y : num) : bool :=
  match x, y with
  | NaN, _ | _, NaN => false
  | Fin a, Fin b => Qltb a b
  | NInf, NInf => false
  | NInf, _ => true
  | _, PInf => match x with PInf => false | _ => true end
  | _, _ => false
  end.

(** [x >= y]: false as soon as one side is NaN. *)
Definition num_ge (x y : num) : bool :=
  match x, y with
  | NaN, _ | _, NaN => false
  | _, _ => negb (num_lt x y)
  end.

(** [x > y] *)
Definition num_gt (x y : num) : bool := num_lt y x.

(** [x * c] and [x / c] for a finite constant [c > 0] of the source. *)
Definition num_mulc (x : num) (c : Q) : num :=
  match x with Fin a => Fin (a * c) | _ => x end.
Definition num_divc (x : num) (c : Q) : num :=
  match x with Fin a => Fin (a / c) | _ => x end.

(** A graph value is [null] or a number; [ToNumber(null)] is [0]. *)
Definition to_number (v : option num) : num :=
  match v with None => Fin 0 | Some x => x end.

(** ** [ToString] on integers and the default [Array.prototype.sort]

    [ToString] of an integer below [2^53] in magnitude is its decimal
    expansion, with a leading [-] when negative: stdpp's [pretty].
    (From [2^53] on [ToString] prints the shortest digits that read
    back as the same double, and from [10^21] on it uses the exponent
    notation; both are outside the model.)  Without a comparator,
    [sort] orders the elements by the code units of their [ToString],
    so that 1000 comes before 800.  The sorting algorithm is the
    engine's; on distinct integers every algorithm gives the one list
    that is sorted for this order. *)

Definition Number_toString (z : Z) : string := pretty z.

Definition string_le (s t : string) : Prop := Is_true (String.leb s t).

#[local] Instance string_le_dec s t : Decision (string_le s t).
Proof. unfold string_le. apply _. Defined.

Definition default_sort_le (x y : Z) : Prop :=
  string_le (Number_toString x) (Number_toString y).

#[local] Instance default_sort_le_dec x y : Decision (default_sort_le x y).
Proof. unfold default_sort_le. apply _. Defined.

Definition Array_sort (l : list Z) : list Z := merge_sort default_sort_le l.

(** ** lodash [range(start, end, step)]

    [baseRange]: [length = max(ceil((end - start) / (step || 1)), 0)],
    then [start], [start + step], ... *)

Definition range_length (start : Z) (end_ : Q) (step : Z) : nat :=
  let divisor := if (step =? 0)%Z then 1%Z else step in
  Z.to_nat (Z.max (Qceiling ((end_ - inject_Z start) / inject_Z divisor)) 0).

Fixpoint baseRange (start step : Z) (length : nat) : list Z :=
  match length with
  | O => []
  | S n => start :: baseRange (start + step) step n
  end.

Definition range (start : Z) (end_ : Q) (step : Z) : list Z :=
  baseRange start step (range_length start end_ step).

(** ** d3 [scaleQuantize] and [bisectRight] *)

(** [bisectRight(a, x, lo, hi)]: the loop
    [while (lo < hi) { mid = lo + hi >>> 1;
       if (a[mid] > x) hi = mid; else lo = mid + 1 }]. *)
Fixpoint bisect_loop (fuel : nat) (a : list Q) (x : Q) (lo hi : nat) : nat :=
  match fuel with
  | O => lo
  | S fuel' =>
      if (lo <? hi)%nat then
        let mid := ((lo + hi) / 2)%nat in
        if Qltb x (nth mid a 0%Q)
        then bisect_loop fuel' a x lo mid
        else bisect_loop fuel' a x (S mid) hi
      else lo
  end.

Definition bisectRight (a : list Q) (x : Q) (lo hi : nat) : nat :=
  bisect_loop (S hi) a x lo hi.

Record Quantizer : Type := {
  qdomain : list Q;   (* the [n] thresholds computed by [rescale] *)
  qrange : list Z     (* the [n + 1] output values *)
}.

(** [rescale]: [domain[i] = ((i + 1) * x1 - (i - n) * x0) / (n + 1)]
    for [0 <= i < n], where [n = range.length - 1]. *)
Definition rescale (x0 x1 : Q) (n : nat) : list Q :=
  map (fun i : nat =>
         ((inject_Z (Z.of_nat i + 1) * x1
           - inject_Z (Z.of_nat i - Z.of_nat n) * x0)
          / inject_Z (Z.of_nat n + 1))%Q)
      (seq 0 n).

(** [scaleQuantize().domain([x0, x1]).range(r)]; an empty [r] makes
    [rescale] allocate [new Array(-1)], which throws. *)
Definition scaleQuantize (x0 x1 : Q) (r : list Z) : option Quantizer :=
  match r with
  | [] => None
  | _ :: r' => Some {| qdomain := rescale x0 x1 (length r'); qrange := r |}
  end.

(** [scale(x) = range[bisect(domain, x, 0, n)]]; the argument is a
    number other than NaN. *)
Definition quantize (s : Quantizer) (x : Q) : option Z :=
  qrange s !! bisectRight (qdomain s) x 0 (length (qdomain s)).

(** ** [getTimestampQuantizer] *)

(** The three props that define the time window. *)
Record Window : Type := {
  startTimeSec : Z;
  endTimeSec : Z;
  stepDurationSec : Z
}.

(** [range(endTimeSec, startTimeSec - 1e-6, -stepDurationSec).sort()],
    in exact arithmetic.  [timestampSecs_double] below computes the
    same range as the doubles do; the two agree on the windows of
    [window_in_range], and beyond them the margin [1e-6] can be lost
    in the rounding. *)
Definition getTimestampSecs (w : Window) : list Z :=
  Array_sort (range (endTimeSec w)
                    (inject_Z (startTimeSec w) - (1 # 1000000))%Q
                    (- stepDurationSec w)).

(** [first] and [last] of an empty grid are [undefined] and the
    quantizer over an empty range cannot be built. *)
Definition getTimestampQuantizer (w : Window) : option Quantizer :=
  let timestampSecs := getTimestampSecs w in
  match head timestampSecs, last timestampSecs with
  | Some first_, Some last_ =>
      let startDomain := (inject_Z first_ - (1 # 2) * inject_Z (stepDurationSec w))%Q in
      let endDomain := (inject_Z last_ + (1 # 2) * inject_Z (stepDurationSec w))%Q in
      scaleQuantize startDomain endDomain timestampSecs
  | _, _ => None
  end.

Definition mkWindow (s e d : Z) : Window :=
  {| startTimeSec := s; endTimeSec := e; stepDurationSec := d |}.

(** ** The range of [getTimestampQuantizer] in doubles

    [double x] is the double nearest to the real [x], the one with the
    even significand on a tie: a multiple of [2^(e - 52)], where
    [2^e <= |x| < 2^(e + 1)].  It is defined for the magnitudes of the
    normal doubles; overflow and the subnormal doubles are left out.
    The literal [1e-6], the subtraction, the division and every
    [start += step] of [baseRange] round this way. *)

(** The integer nearest to [x], the even one on a tie. *)
Definition round_half_even (x : Q) : Z :=
  let f := Qfloor x in
  let r := (x - inject_Z f)%Q in
  if Qltb r (1 # 2) then f
  else if Qltb (1 # 2) r then f + 1
  else if Z.even f then f else f + 1.

(** The exponent [e] with [2^e <= |x| < 2^(e + 1)], for [x <> 0]. *)
Definition binade (x : Q) : Z :=
  let e0 := Z.log2 (Z.abs (Qnum x)) - Z.log2 (QDen x) in
  if Qleb (2 ^ e0) (Qabs x) then e0 else e0 - 1.

Definition double (x : Q) : Q :=
  if Qzerob x then 0%Q
  else
    let u := (2 ^ (binade x - 52))%Q in
    Qred (inject_Z (round_half_even (x / u)) * u).

(** [baseRange] on doubles:
    [length = max(ceil((end - start) / (step || 1)), 0)], then
    [result[index] = start; start += step]. *)
Definition range_length_double (start end_ step : Q) : nat :=
  let divisor := if Qzerob step then 1%Q else step in
  Z.to_nat (Z.max (Qceiling (double (double (end_ - start) / divisor))) 0).

Fixpoint baseRange_double (start step : Q) (length : nat) : list Q :=
  match length with
  | O => []
  | S n => start :: baseRange_double (double (start + step)) step n
  end.

Definition range_double (start end_ step : Q) : list Q :=
  baseRange_double start step (range_length_double start end_ step).

(** [range(endTimeSec, startTimeSec - 1e-6, -stepDurationSec)] on
    window parameters that are doubles, before the sort. *)
Definition timestampSecs_double (startSec endSec stepSec : Q)
  : list Q :=
  range_double endSec (double (startSec - double (1 # 1000000))) (- stepSec).

(** ** [parseFloat] and [parseGraphValue]

    [parseFloat] skips leading white space, then reads the longest prefix
    that is a [StrDecimalLiteral]: an optional sign followed by
    [Infinity], or by digits with an optional fraction and an optional
    exponent.  No such prefix gives NaN.  A literal whose magnitude
    reaches [2^1024 - 2^970] rounds to an infinity. *)

(** The white space of ASCII: TAB, LF, VT, FF, CR and SP. *)
Definition is_whitespace (c : ascii) : bool :=
  let n := N_of_ascii c in
  ((9 <=? n) && (n <=? 13) || (n =? 32))%N.

Definition digit_of (c : ascii) : option N :=
  let n := N_of_ascii c in
  if ((48 <=? n) && (n <=? 57))%N then Some (n - 48)%N else None.

Fixpoint skip_whitespace (s : string) : string :=
  match s with
  | String c s' => if is_whitespace c then skip_whitespace s' else s
  | EmptyString => s
  end.

(** Reads the leading decimal digits of [s]: their value on top of
    [acc], how many there were, and the rest of the string. *)
Fixpoint span_digits (s : string) (acc : N) (count : nat) : N * nat * string :=
  match s with
  | String c s' =>
      match digit_of c with
      | Some d => span_digits s' (acc * 10 + d)%N (S count)
      | None => (acc, count, s)
      end
  | EmptyString => (acc, count, s)
  end.

Definition pow10 (e : Z) : Q :=
  if (0 <=? e)%Z then inject_Z (10 ^ e) else (/ inject_Z (10 ^ (- e)))%Q.

(** [ExponentPart]: [e] or [E], an optional sign, at least one digit. *)
Definition exponent_part (s : string) : Z :=
  match s with
  | String c s' =>
      if (Ascii.eqb c "e" || Ascii.eqb c "E")%bool then
        let '(neg, s'') :=
          match s' with
          | String "-" t => (true, t)
          | String "+" t => (false, t)
          | _ => (false, s')
          end in
        let '(v, count, _) := span_digits s'' 0%N 0%nat in
        match count with
        | O => 0
        | S _ => if neg : bool then - Z.of_N v else Z.of_N v
        end
      else 0
  | EmptyString => 0
  end.

Definition overflow_threshold : Q := inject_Z (2 ^ 1024 - 2 ^ 970).

Definition round_overflow (negative : bool) (magnitude : Q) : num :=
  if Qleb overflow_threshold magnitude
  then (if negative then NInf else PInf)
  else Fin (if negative then - magnitude else magnitude)%Q.

Definition unsigned_literal (negative : bool) (s : string) : num :=
  if String.prefix "Infinity" s then (if negative then NInf else PInf)
  else
    let '(iv, icount, rest) := span_digits s 0%N 0%nat in
    match rest with
    | String "." rest' =>
        let '(fv, fcount, rest'') := span_digits rest' 0%N 0%nat in
        match icount, fcount with
        | O, O => NaN
        | _, _ =>
            round_overflow negative
              ((inject_Z (Z.of_N iv)
                + inject_Z (Z.of_N fv) * pow10 (- Z.of_nat fcount))
               * pow10 (exponent_part rest''))%Q
        end
    | _ =>
        match icount with
        | O => NaN
        | S _ =>
            round_overflow negative
              (inject_Z (Z.of_N iv) * pow10 (exponent_part rest))%Q
        end
    end.

Definition parseFloat_string (s : string) : num :=
  match skip_whitespace s with
  | String "-" t => unsigned_literal true t
  | String "+" t => unsigned_literal false t
  | t => unsigned_literal false t
  end.

(** A raw sample value is text or a number.  [parseFloat] converts its
    argument to a string first, and the string of a number reads back as
    that number. *)
Inductive raw : Type :=
  | RawString (s : string)
  | RawNumber (n : num).

Definition parseFloat (value : raw) : num :=
  match value with
  | RawString s => parseFloat_string s
  | RawNumber n => n
  end.

Definition parseGraphValue (value : raw) : option num :=
  let val := parseFloat value in
  if isNaN val then None else Some val.

(** ** Number formatting: [toFixed], [Math.round], template strings *)

Definition Qis_neg (q : Q) : bool := (Qnum q <? 0)%Z.

Fixpoint zeros (n : nat) : string :=
  match n with O => "" | S n' => String "0" (zeros n') end.

(** [x.toFixed(f)] for [|x| < 10^21]: the sign, then the integer [n]
    nearest to [|x| * 10^f] (the larger one on a tie), padded with zeros
    to at least [f + 1] digits, with a point before the last [f]. *)
Definition toFixed (x : num) (f : nat) : string :=
  match x with
  | NaN => "NaN"
  | PInf => "Infinity"
  | NInf => "-Infinity"
  | Fin q =>
      let sign := if Qis_neg q then "-" else "" in
      let n := Qfloor (Qabs q * inject_Z (10 ^ Z.of_nat f) + (1 # 2))%Q in
      let m := pretty n in
      let m :=
        if (String.length m <=? f)%nat
        then zeros (f + 1 - String.length m) +:+ m else m in
      let k := String.length m in
      match f with
      | O => sign +:+ m
      | S _ =>
          sign +:+ String.substring 0 (k - f) m +:+ "."
            +:+ String.substring (k - f) f m
      end
  end.

(** [Math.round(x)] followed by [ToString], for [|x| < 2^53]. *)
Definition Math_round_toString (x : num) : string :=
  match x with
  | NaN => "NaN"
  | PInf => "Infinity"
  | NInf => "-Infinity"
  | Fin q => pretty (Qfloor (q + (1 # 2))%Q)
  end.

(** [n === 0] on a number. *)
Definition is_zero (x : num) : bool :=
  match x with Fin q => Qzerob q | _ => false end.

(** ** [valueFormatters] *)

Definition bigNumbers : list (string * Q) :=
  [("T", inject_Z 1000000000000); ("G", inject_Z 1000000000);
   ("M", inject_Z 1000000); ("k", inject_Z 1000)].

Definition smallNumbers : list (Q * nat) :=
  [(1%Q, 0%nat); ((1 # 10)%Q, 1%nat); ((1 # 100)%Q, 2%nat);
   ((1 # 1000)%Q, 3%nat); ((1 # 10000)%Q, 4%nat)].

Definition byteUnits : list (string * Q) :=
  [("TB", inject_Z (1024 * 1024 * 1024 * 1024));
   ("GB", inject_Z (1024 * 1024 * 1024));
   ("MB", inject_Z (1024 * 1024));
   ("kB", inject_Z 1024);
   ("B", 1%Q)].

(** [valueFormatters.none(number)] *)
Definition valueFormatters_none (number : num) : option num -> string :=
  let bigNumber :=
    List.find (fun '(_, unit) => num_ge (num_divc number unit) (Fin 2)) bigNumbers in
  let smallNumber :=
    List.find (fun '(base, _) => num_ge (num_divc number base) (Fin 2)) smallNumbers in
  let '(baseUnit, precision, unitLabel) :=
    match bigNumber, smallNumber with
    | Some (label, unit), _ => (unit, 0%nat, label)
    | None, Some (_, prec) => (1%Q, prec, "")
    | None, None => (1%Q, 4%nat, "")
    end in
  fun n =>
    match n with
    | None => "---"
    | Some n =>
        if is_zero n then "0"
        else toFixed (num_divc n baseUnit) precision +:+ " " +:+ unitLabel
    end.

(** [valueFormatters.bytes(bytes)] *)
Definition valueFormatters_bytes (bytes : num) : option num -> string :=
  let data :=
    List.find (fun '(_, unit) => num_ge (num_divc bytes unit) (Fin 2)) byteUnits in
  fun n =>
    match n with
    | None => "---"
    | Some n =>
        match data with
        | None => "0"
        | Some (label, unit) =>
            Math_round_toString (num_divc n unit) +:+ " " +:+ label
        end
    end.

(** [valueFormatters.percent()] *)
Definition valueFormatters_percent : option num -> string :=
  fun n =>
    match n with
    | None => "---"
    | Some n =>
        if is_zero n then "0%"
        else toFixed (num_mulc n (inject_Z 100)) 2 +:+ "%"
    end.

(** ** [colorThemes] *)

Inductive ColorTheme : Type := mixed | blue | purple.

Definition palette (theme : ColorTheme) : list string :=
  match theme with
  | mixed =>
      ["hsl(209, 44%, 83%)"; "hsl(98, 55%, 81%)"; "hsl(210, 45%, 74%)";
       "hsl(166, 44%, 65%)"; "hsl(230, 34%, 66%)"; "hsl(196, 84%, 52%)";
       "hsl(240, 20%, 59%)"; "hsl(197, 74%, 43%)"; "hsl(261, 39%, 44%)";
       "hsl(213, 66%, 40%)"; "hsl(261, 68%, 29%)"; "hsl(232, 60%, 36%)";
       "hsl(248, 82%, 11%)"; "hsl(212, 88%, 27%)"]
  | blue =>
      ["hsl(98, 55%, 81%)"; "hsl(166, 44%, 65%)"; "hsl(196, 84%, 52%)";
       "hsl(197, 74%, 43%)"; "hsl(213, 66%, 40%)"; "hsl(232, 60%, 36%)";
       "hsl(212, 88%, 27%)"]
  | purple =>
      ["hsl(209, 44%, 83%)"; "hsl(210, 45%, 74%)"; "hsl(230, 34%, 66%)";
       "hsl(240, 20%, 59%)"; "hsl(286, 41%, 44%)"; "hsl(303, 79%, 28%)";
       "hsl(248, 82%, 11%)"]
  end.

(** [colors[index % colors.length]] *)
Definition colorThemes (theme : ColorTheme) (index : nat) : string :=
  let colors := palette theme in
  default "" (colors !! (index mod length colors)%nat).

(** ** Data of [processMultiSeries] *)

(** An input series: the name [getSeriesName] derives for it and its
    [values], the [[timestamp, rawValue]] pairs in the order given. *)
Record InputSeries : Type := {
  seriesName : string;
  values : list (Q * raw)
}.

(** The props the embedded functions read. *)
Record Props : Type := {
  window : Window;
  multiSeries : list InputSeries;
  colorTheme : ColorTheme;
  showStacked : bool;
  simpleTooltip : bool
}.

(** A datapoint and a series of [state.multiSeries]. *)
Record Datapoint : Type := {
  timestampSec : Z;
  value : option num;
  offset : num
}.

Record Series : Type := {
  name : string;
  key : string;
  color : string;
  datapoints : list Datapoint
}.

(** A row of [valuesByTimestamp] is an object: the property
    [timestampSec] and one property per series name, all in one name
    space.  [None] is [null]. *)
Abbreviation Row := (gmap string (option num)).

(** [valuesByTimestamp]: an object keyed by [ToString(timestampSec)],
    which is injective on integers; kept in insertion order. *)
Abbreviation Table := (list (Z * Row)).

Definition table_get (t : Table) (ts : Z) : option Row :=
  snd <$> List.find (fun '(k, _) => (k =? ts)%Z) t.

Fixpoint table_set (t : Table) (ts : Z) (r : Row) : Table :=
  match t with
  | [] => [(ts, r)]
  | (k, r') :: t' =>
      if (k =? ts)%Z then (k, r) :: t' else (k, r') :: table_set t' ts r
  end.

(** [Object.values]: array-index keys in ascending order first, then the
    other keys in insertion order. *)
Definition is_array_index (k : Z) : bool :=
  ((0 <=? k) && (k <? 2 ^ 32 - 1))%Z.

Definition key_le (a b : Z * Row) : Prop := (a.1 <= b.1)%Z.

#[local] Instance key_le_dec a b : Decision (key_le a b).
Proof. unfold key_le. apply _. Defined.

Definition Object_values (t : Table) : list Row :=
  snd <$>
    (merge_sort key_le (filter (fun e : Z * Row => Is_true (is_array_index e.1)) t)
     ++ filter (fun e : Z * Row => ¬ Is_true (is_array_index e.1)) t).

(** ** lodash [sortBy(rows, ['timestampSec'])]

    A property read gives [undefined] (outer [None]), [null] or a
    number; [compareAscending] orders numbers first, then [null], then
    [undefined]; equal criteria keep their original order. *)

Definition to_number_prop (v : option (option num)) : num :=
  match v with None => NaN | Some v' => to_number v' end.

Definition num_eq (x y : num) : bool :=
  match x, y with
  | Fin a, Fin b => Qeq_bool a b
  | PInf, PInf | NInf, NInf => true
  | _, _ => false
  end.

Definition strict_eq (v o : option (option num)) : bool :=
  match v, o with
  | None, None => true
  | Some None, Some None => true
  | Some (Some x), Some (Some y) => num_eq x y
  | _, _ => false
  end.

Definition isDefined (x : option (option num)) : bool :=
  match x with None => false | _ => true end.
Definition isNull (x : option (option num)) : bool :=
  match x with Some None => true | _ => false end.
Definition isReflexive (x : option (option num)) : bool :=
  match x with Some (Some NaN) => false | _ => true end.

Definition compareAscending (v o : option (option num)) : Z :=
  if strict_eq v o then 0 else
  if (negb (isNull o) && num_gt (to_number_prop v) (to_number_prop o))
     || (isNull v && isDefined o && isReflexive o)
     || (negb (isDefined v) && isReflexive o)
     || negb (isReflexive v)
  then 1
  else if (negb (isNull v) && num_lt (to_number_prop v) (to_number_prop o))
     || (isNull o && isDefined v && isReflexive v)
     || (negb (isDefined o) && isReflexive v)
     || negb (isReflexive o)
  then -1
  else 0.

Definition sortBy_le (prop : string) (a b : Row) : Prop :=
  (compareAscending (a !! prop) (b !! prop) <= 0)%Z.

#[local] Instance sortBy_le_dec prop a b : Decision (sortBy_le prop a b).
Proof. unfold sortBy_le. apply _. Defined.

Definition sortBy (prop : string) (rows : list Row) : list Row :=
  merge_sort (sortBy_le prop) rows.

(** ** d3 [stack().keys(names)]

    Each series starts as [[0, +d[key]]] per row; [stackOffsetNone]
    then lifts series [i] onto the top of series [i - 1] (onto its base
    where that top is NaN). *)

Definition stack_init (keys : list string) (data : list Row)
  : list (list (num * num)) :=
  map (fun k => map (fun d : Row => (Fin 0%Q, to_number_prop (d !! k))) data) keys.

Definition lift_onto (s0 s1 : list (num * num)) : list (num * num) :=
  zip_with (fun p c : num * num =>
              let base := if isNaN p.2 then p.1 else p.2 in
              (base, num_add c.2 base))
           s0 s1.

Fixpoint offsetNone_from (s0 : list (num * num)) (rest : list (list (num * num)))
  : list (list (num * num)) :=
  match rest with
  | [] => []
  | s1 :: rest' =>
      let s1' := lift_onto s0 s1 in
      s1' :: offsetNone_from s1' rest'
  end.

Definition stackOffsetNone (sz : list (list (num * num)))
  : list (list (num * num)) :=
  match sz with
  | [] => []
  | s0 :: rest => s0 :: offsetNone_from s0 rest
  end.

Definition stack (keys : list string) (data : list Row)
  : list (list (num * num)) :=
  stackOffsetNone (stack_init keys data).

(** ** [processMultiSeries] *)

(** The rows as first initialised: every series name is [null]. *)
Definition init_row (names : list string) (ts : Z) : Row :=
  foldl (fun (row : Row) seriesName => <[seriesName := None]> row)
        {["timestampSec" := Some (num_of_Z ts)]} names.

Definition init_table (names : list string) (timestampSecs : list Z) : Table :=
  foldl (fun (t : Table) ts => table_set t ts (init_row names ts)) [] timestampSecs.

(** [valuesByTimestamp[timestampSec][seriesName] = value]; reading a
    row that does not exist throws ([None]). *)
Definition store_point (qz : Quantizer) (seriesName : string)
    (t : Table) (point : Q * raw) : option Table :=
  let value := parseGraphValue point.2 in
  ts ← quantize qz point.1;
  row ← table_get t ts;
  Some (table_set t ts (<[seriesName := value]> row)).

Fixpoint foldlM {A B} (f : A -> B -> option A) (a : A) (l : list B) : option A :=
  match l with
  | [] => Some a
  | b :: l' => a' ← f a b; foldlM f a' l'
  end.

(** The loop over [props.multiSeries]: the series at position
    [seriesIndex] writes under [multiSeriesNames[seriesIndex]].  The two
    lists have the same length; past the end the read would give
    [undefined], which as a property name is ["undefined"]. *)
Definition fill_table (qz : Quantizer) (multiSeriesNames : list string)
    (t : Table) (input : list InputSeries) : option Table :=
  foldlM (fun t '(seriesIndex, series) =>
            let seriesName := default "undefined" (multiSeriesNames !! seriesIndex) in
            foldlM (store_point qz seriesName) t (values series))
         t (zip (seq 0 (length input)) input).

(** One datapoint of the result.  Every series name is initialised in
    every row, so the read of the value finds the property; a missing
    row or a missing cell of the stack makes the reads throw. *)
Definition make_datapoint (t : Table) (stackedSeries : list (num * num))
    (seriesName : string) (timestampIndex : nat) (ts : Z) : option Datapoint :=
  row ← table_get t ts;
  v ← row !! seriesName;
  cell ← stackedSeries !! timestampIndex;
  Some {| timestampSec := ts; value := v; offset := cell.1 |}.

Definition make_series (theme : ColorTheme) (t : Table)
    (timestampSecs : list Z) (stackedData : list (list (num * num)))
    (seriesIndex : nat) (seriesName : string) : option Series :=
  stackedSeries ← stackedData !! seriesIndex;
  dps ← mapM (fun '(timestampIndex, ts) =>
                make_datapoint t stackedSeries seriesName timestampIndex ts)
             (zip (seq 0 (length timestampSecs)) timestampSecs);
  Some {| name := seriesName;
          key := seriesName +:+ ":" +:+ pretty seriesIndex;
          color := colorThemes theme seriesIndex;
          datapoints := dps |}.

(** [processMultiSeries(props)]: the new [state.multiSeries], or [None]
    where the source throws. *)
Definition processMultiSeries (props : Props) : option (list Series) :=
  let multiSeriesNames :=
    merge_sort string_le (seriesName <$> multiSeries props) in
  timestampQuantizer ← getTimestampQuantizer (window props);
  let timestampSecs := qrange timestampQuantizer in
  let valuesByTimestamp := init_table multiSeriesNames timestampSecs in
  valuesByTimestamp ←
    fill_table timestampQuantizer multiSeriesNames valuesByTimestamp
               (multiSeries props);
  let valuesForStacking := sortBy "timestampSec" (Object_values valuesByTimestamp) in
  let stackedData := stack multiSeriesNames valuesForStacking in
  mapM (fun '(seriesIndex, seriesName) =>
          make_series (colorTheme props) valuesByTimestamp timestampSecs
                      stackedData seriesIndex seriesName)
       (zip (seq 0 (length multiSeriesNames)) multiSeriesNames).

(** ** Component state and the visible series *)

Record State : Type := {
  selectedLegendSeriesKey : option string;
  state_multiSeries : list Series
}.

(** [!this.state.selectedLegendSeriesKey]: [null] and the empty string
    are falsy. *)
Definition no_selection (st : State) : bool :=
  match selectedLegendSeriesKey st with
  | None => true
  | Some k => String.eqb k ""
  end.

Definition getVisibleMultiSeries (st : State) : list Series :=
  if no_selection st then state_multiSeries st
  else List.filter
         (fun series => bool_decide (selectedLegendSeriesKey st = Some (key series)))
         (state_multiSeries st).

Definition getDatapointOffset (st : State) (datapoint : Datapoint) : num :=
  if no_selection st then offset datapoint else Fin 0%Q.

(** [null] is [None]; with [showStacked] the sum is always a number,
    [null] counting as [0]. *)
Definition getDatapointGraphValue (props : Props) (st : State)
    (datapoint : Datapoint) : option num :=
  if showStacked props
  then Some (num_add (getDatapointOffset st datapoint) (to_number (value datapoint)))
  else value datapoint.

(** ** lodash [sortedIndex] and [getDatapointAtTimestamp] *)

(** [baseSortedIndex]: [while (low < high) { mid = (low + high) >>> 1;
    if (array[mid] < value) low = mid + 1; else high = mid } return high]. *)
Fixpoint sortedIndex_loop (fuel : nat) (array : list Z) (v : Z) (low high : nat) : nat :=
  match fuel with
  | O => high
  | S fuel' =>
      if (low <? high)%nat then
        let mid := ((low + high) / 2)%nat in
        if (nth mid array 0 <? v)%Z
        then sortedIndex_loop fuel' array v (S mid) high
        else sortedIndex_loop fuel' array v low mid
      else high
  end.

Definition sortedIndex (array : list Z) (v : Z) : nat :=
  sortedIndex_loop (S (length array)) array v 0 (length array).

(** [series.datapoints[index]]: [None] is [undefined]. *)
Definition getDatapointAtTimestamp (series : Series) (ts : Z) : option Datapoint :=
  let timestamps := timestampSec <$> datapoints series in
  let index := sortedIndex timestamps ts in
  datapoints series !! index.

(** ** lodash [minBy]

    [baseExtremum]: the first element whose criterion is neither
    [null] nor NaN starts the search; a later element replaces the
    current one when its criterion is strictly smaller. *)
Fixpoint baseExtremum {A} (iteratee : A -> option num)
    (computed : option (num * A)) (array : list A) : option (num * A) :=
  match array with
  | [] => computed
  | v :: rest =>
      let computed' :=
        match iteratee v, computed with
        | None, _ => computed
        | Some current, None =>
            if isNaN current then computed else Some (current, v)
        | Some current, Some (c, _) =>
            if num_lt current c then Some (current, v) else computed
        end in
      baseExtremum iteratee computed' rest
  end.

Definition minBy {A} (iteratee : A -> option num) (array : list A) : option A :=
  snd <$> baseExtremum iteratee None array.

(** ** [handleGraphMouseMove] *)

Record HoverPoint : Type := {
  graphValue : option num;
  hp_value : option num;
  hp_key : string;
  hp_name : string;
  hp_color : string;
  focused : bool
}.

(** The hover point of one visible series; the source adds [focused]
    in a second pass, here the field starts as [false].  A missing
    datapoint makes the property reads throw ([None]). *)
Definition hover_point (props : Props) (st : State) (hoverTimestampSec : Z)
    (series : Series) : option HoverPoint :=
  datapoint ← getDatapointAtTimestamp series hoverTimestampSec;
  Some {| graphValue := getDatapointGraphValue props st datapoint;
          hp_value := value datapoint;
          hp_key := key series;
          hp_name := name series;
          hp_color := color series;
          focused := false |}.

Definition isSeriesAbove (cursorValue : num) (s : HoverPoint) : bool :=
  num_ge (to_number (graphValue s)) cursorValue.

Definition distanceFromCursor (cursorValue : num) (s : HoverPoint) : option num :=
  Some (num_abs (num_sub (to_number (graphValue s)) cursorValue)).

(** [focusedSeries.key]: [None] when [minBy] found nothing and the
    empty object took its place. *)
Definition focusedSeries_key (props : Props) (cursorValue : num)
    (hoverPoints : list HoverPoint) : option string :=
  hp_key <$>
    (if showStacked props
     then minBy graphValue (List.filter (isSeriesAbove cursorValue) hoverPoints)
     else minBy (distanceFromCursor cursorValue) hoverPoints).

Definition set_focused (focusedKey : option string) (s : HoverPoint) : HoverPoint :=
  {| graphValue := graphValue s;
     hp_value := hp_value s;
     hp_key := hp_key s;
     hp_name := hp_name s;
     hp_color := hp_color s;
     focused := bool_decide (focusedKey = Some (hp_key s)) |}.

(** [handleGraphMouseMove], from the two inverted cursor coordinates on:
    the new [hoverTimestampSec] and [hoverPoints], or [None] where the
    source throws. *)
Definition handleGraphMouseMove (props : Props) (st : State)
    (cursorValue : num) (cursorTimestampSec : Q) : option (Z * list HoverPoint) :=
  timestampQuantizer ← getTimestampQuantizer (window props);
  hoverTimestampSec ← quantize timestampQuantizer cursorTimestampSec;
  hoverPoints ← mapM (hover_point props st hoverTimestampSec)
                     (getVisibleMultiSeries st);
  let focusedKey := focusedSeries_key props cursorValue hoverPoints in
  let hoverPoints := set_focused focusedKey <$> hoverPoints in
  let hoverPoints :=
    if simpleTooltip props then List.filter focused hoverPoints else hoverPoints in
  Some (hoverTimestampSec, hoverPoints).

(** [scaleLinear().domain([d0, d1]).range([r0, r1]).invert(y)] for
    [r0 <> r1]. *)
Definition scaleLinear_invert (d0 d1 r0 r1 y : Q) : Q :=
  (d0 + (y - r0) / (r1 - r0) * (d1 - d0))%Q.

(** [timeScale.invert(cursorXOffset)] on a surface [width] pixels wide. *)
Definition cursorTimestampSec_of (w : Window) (width cursorXOffset : Q) : Q :=
  scaleLinear_invert (inject_Z (startTimeSec w)) (inject_Z (endTimeSec w))
                     0 width cursorXOffset.

(** The component mounted on [props]: [componentWillMount] runs
    [processMultiSeries]; nothing is selected. *)
Definition mount (props : Props) : option State :=
  ms ← processMultiSeries props;
  Some {| selectedLegendSeriesKey := None; state_multiSeries := ms |}.

Definition mkProps (w : Window) (ms : list InputSeries) (stacked simple : bool) : Props :=
  {| window := w; multiSeries := ms; colorTheme := mixed;
     showStacked := stacked; simpleTooltip := simple |}.

Definition pt (t : Z) (s : string) : Q * raw := (inject_Z t, RawString s).

(** ** lodash [max], [flatten] and [yAxisMax] *)

(** [baseExtremum] with [baseGt]: as for [minBy], with a later element
    replacing the current one when it is strictly greater. *)
Fixpoint baseExtremum_gt {A} (iteratee : A -> option num)
    (computed : option (num * A)) (array : list A) : option (num * A) :=
  match array with
  | [] => computed
  | v :: rest =>
      let computed' :=
        match iteratee v, computed with
        | None, _ => computed
        | Some current, None =>
            if isNaN current then computed else Some (current, v)
        | Some current, Some (c, _) =>
            if num_gt current c then Some (current, v) else computed
        end in
      baseExtremum_gt iteratee computed' rest
  end.

(** [max(array)] over numbers and [null]s: [None] is [undefined]. *)
Definition max (array : list (option num)) : option num :=
  fst <$> baseExtremum_gt id None array.

(** [yAxisMax()]: [max([valuesMinSpread, ...yPositions])], where
    [yPositions] flattens the graph values of the visible series.
    [props.valuesMinSpread] is passed as an argument. *)
Definition yPositions (props : Props) (st : State) : list (option num) :=
  concat ((fun series =>
             getDatapointGraphValue props st <$> datapoints series)
          <$> getVisibleMultiSeries st).

Definition yAxisMax (props : Props) (valuesMinSpread : num) (st : State)
  : option num :=
  max (Some valuesMinSpread :: yPositions props st).

(** ** d3 [scaleLinear], [getTimeScale] and [getValueScale] *)

(** [scaleLinear().domain([d0, d1]).range([r0, r1])(x)] for [d0 <> d1]. *)
Definition scaleLinear (d0 d1 r0 r1 x : Q) : Q :=
  (r0 + (x - d0) / (d1 - d0) * (r1 - r0))%Q.

(** [getTimeScale()]: domain [[startTimeSec, endTimeSec]], range
    [[0, width]]. *)
Definition timeScale (w : Window) (width x : Q) : Q :=
  scaleLinear (inject_Z (startTimeSec w)) (inject_Z (endTimeSec w)) 0 width x.

(** [getValueScale()]: domain [[0, maxY]], range [[height, 0]]. *)
Definition valueScale (maxY height v : Q) : Q :=
  scaleLinear 0 maxY height 0 v.

Definition valueScale_invert (maxY height y : Q) : Q :=
  scaleLinear_invert 0 maxY height 0 y.

(** ** [isFadedSeries] and [isFocusedSeries] *)

(** A key is truthy when it is neither [null] nor the empty string. *)
Definition truthy (k : option string) : bool :=
  match k with
  | None => false
  | Some s => negb (String.eqb s "")
  end.

(** [!selectedLegendSeriesKey && hoveredLegendSeriesKey &&
    hoveredLegendSeriesKey !== series.key], read as a boolean;
    [state.hoveredLegendSeriesKey] is passed as an argument. *)
Definition isFadedSeries (st : State) (hoveredLegendSeriesKey : option string)
    (series : Series) : bool :=
  no_selection st && truthy hoveredLegendSeriesKey
  && negb (bool_decide (hoveredLegendSeriesKey = Some (key series))).

(** [hoveredLegendSeriesKey === series.key ||
    selectedLegendSeriesKey === series.key] *)
Definition isFocusedSeries (st : State) (hoveredLegendSeriesKey : option string)
    (series : Series) : bool :=
  bool_decide (hoveredLegendSeriesKey = Some (key series))
  || bool_decide (selectedLegendSeriesKey st = Some (key series)).

(** * Notions used in the statements *)

(** ** Inputs used in the examples *)

(** The state after mounting on [props]; the initial state of the
    constructor stays where [processMultiSeries] throws. *)
Definition mounted (props : Props) : State :=
  default {| selectedLegendSeriesKey := None; state_multiSeries := [] |}
          (mount props).

(** Two stacked series with the values 3 and 4 at the only timestamp. *)
Definition stacked_3_4 : Props :=
  mkProps (mkWindow 0 0 1)
    [ {| seriesName := "a"; values := [pt 0 "3"] |};
      {| seriesName := "b"; values := [pt 0 "4"] |} ] true false.

(** One series without any sample: a gap at the only timestamp. *)
Definition one_gap_series (stacked : bool) : Props :=
  mkProps (mkWindow 0 0 1) [ {| seriesName := "a"; values := [] |} ] stacked false.

(** Two input series given in the order ["b"], ["a"]. *)
Definition series_b_then_a : Props :=
  mkProps (mkWindow 0 0 1)
    [ {| seriesName := "b"; values := [pt 0 "1"] |};
      {| seriesName := "a"; values := [pt 0 "2"] |} ] false false.

(** A window whose timestamps do not all have the same number of
    digits: 800, 900, 1000. *)
Definition window_800_1000 : Window := mkWindow 800 1000 100.

(** Series ["a"] with one sample and an empty series ["b"] on that
    window. *)
Definition two_series_800_1000 (stacked : bool) : Props :=
  mkProps window_800_1000
    [ {| seriesName := "a"; values := [pt 1000 "5"] |};
      {| seriesName := "b"; values := [] |} ] stacked false.

(** The window from 0 to 300 in steps of 100 with the series
    [A = [[0, "10"], [150, "20"]]] and [B = [[50, "5"]]]. *)
Definition scenario_A_B (stacked : bool) : Props :=
  mkProps (mkWindow 0 300 100)
    [ {| seriesName := "A"; values := [pt 0 "10"; pt 150 "20"] |};
      {| seriesName := "B"; values := [pt 50 "5"] |} ] stacked false.

(** The values, and the offsets, of each aligned series by name. *)
Definition aligned_values (ms : list Series) : list (string * list (option num)) :=
  (fun series => (name series, value <$> datapoints series)) <$> ms.

Definition stored_offsets (ms : list Series) : list (string * list num) :=
  (fun series => (name series, offset <$> datapoints series)) <$> ms.

(** Two rows as [processMultiSeries] builds them. *)
Definition two_rows : list Row :=
  [ {["timestampSec" := Some (Fin 0); "A" := Some (Fin 10); "B" := None]};
    {["timestampSec" := Some (Fin 100); "A" := None; "B" := Some (Fin 5)]} ].

(** ** Thresholds of the formatters *)

Definition no_threshold {A B} (number : num) (unit_of : A * B -> Q)
    (table : list (A * B)) : Prop :=
  Forall (fun e => num_ge (num_divc number (unit_of e)) (Fin 2) = false) table.

(** ** Criteria of [minBy] *)

(** An element counts when its criterion is a number other than NaN. *)
Definition counts {A} (iteratee : A -> option num) (y : A) : Prop :=
  exists c, iteratee y = Some c /\ isNaN c = false.

(** No criterion of [y] is strictly below [c]. *)
Definition not_below {A} (iteratee : A -> option num) (c : num) (y : A) : Prop :=
  forall cy, iteratee y = Some cy -> num_lt cy c = false.

(** The running minimum is a number other than NaN and the criterion of
    its element. *)
Definition computed_ok {A} (iteratee : A -> option num)
    (computed : option (num * A)) : Prop :=
  match computed with
  | None => True
  | Some (c, v) => isNaN c = false /\ iteratee v = Some c
  end.

(** ** Gaps read as zero *)

(** The same datapoint with a gap replaced by the number 0. *)
Definition gap_as_zero (d : Datapoint) : Datapoint :=
  {| timestampSec := timestampSec d;
     value := Some (to_number (value d));
     offset := offset d |}.

Definition series_gaps_as_zero (s : Series) : Series :=
  {| name := name s; key := key s; color := color s;
     datapoints := gap_as_zero <$> datapoints s |}.

Definition gaps_as_zero (st : State) : State :=
  {| selectedLegendSeriesKey := selectedLegendSeriesKey st;
     state_multiSeries := series_gaps_as_zero <$> state_multiSeries st |}.

(** What becomes of a hover point when the gap behind it is read as 0. *)
Definition zero_point (props : Props) (p : HoverPoint) : HoverPoint :=
  {| graphValue := if showStacked props then graphValue p
                   else Some (to_number (graphValue p));
     hp_value := Some (to_number (hp_value p));
     hp_key := hp_key p; hp_name := hp_name p; hp_color := hp_color p;
     focused := focused p |}.

Definition zero_result (props : Props) (r : Z * list HoverPoint)
  : Z * list HoverPoint :=
  (r.1, zero_point props <$> r.2).

(** ** Digits of a key *)

Fixpoint all_digits (s : string) : bool :=
  match s with
  | EmptyString => true
  | String c s' => bool_decide (is_Some (digit_of c)) && all_digits s'
  end.

(** ** Sums of a row *)

(** The number [d3] reads for series [k] in row [d]: a gap counts 0. *)
Definition row_value (d : Row) (k : string) : num := to_number_prop (d !! k).

Definition finite (x : num) : Prop := exists q, x = Fin q.

Definition Qvalue (d : Row) (k : string) : Q :=
  match row_value d k with Fin q => q | _ => 0%Q end.

(** The plain sum of the values of the series [ks] in row [d]. *)
Definition sum_values (d : Row) (ks : list string) : Q :=
  foldr (fun k acc => (Qvalue d k + acc)%Q) 0%Q ks.

(** One row of [stackOffsetNone], series after series. *)
Fixpoint scan (prev : num * num) (ks : list string) (d : Row) : list (num * num) :=
  match ks with
  | [] => []
  | k :: ks' =>
      let base := if isNaN prev.2 then prev.1 else prev.2 in
      let cell := (base, num_add (row_value d k) base) in
      cell :: scan cell ks' d
  end.

(** ** Series renamed by position *)

(** The input series renamed by position: the series at position [i]
    takes the [i]-th name of the sorted name list. *)
Definition relabel_series (n : string) (series : InputSeries) : InputSeries :=
  {| seriesName := n; values := values series |}.

Definition relabel (props : Props) : Props :=
  {| window := window props;
     multiSeries :=
       zip_with relabel_series
                (merge_sort string_le (seriesName <$> multiSeries props))
                (multiSeries props);
     colorTheme := colorTheme props;
     showStacked := showStacked props;
     simpleTooltip := simpleTooltip props |}.

(** ** A state with two series *)

Definition series_a : Series :=
  {| name := "a"; key := "a:0"; color := colorThemes mixed 0;
     datapoints := [ {| timestampSec := 0; value := Some (Fin 3); offset := Fin 0 |};
                     {| timestampSec := 1; value := None; offset := Fin 0 |} ] |}.

Definition series_b : Series :=
  {| name := "b"; key := "b:1"; color := colorThemes mixed 1;
     datapoints := [ {| timestampSec := 0; value := Some (Fin 4); offset := Fin 3 |};
                     {| timestampSec := 1; value := Some (Fin 1); offset := Fin 0 |} ] |}.

Definition state_a_b (selected : option string) : State :=
  {| selectedLegendSeriesKey := selected; state_multiSeries := [series_a; series_b] |}.

(** ** The cells of the table *)

(** In the row [e] every series name holds a value, and that value
    satisfies [P]. *)
Definition cells_ok (names : list string) (P : option num -> Prop)
    (e : Z * Row) : Prop :=
  forall n, n ∈ names -> exists v, e.2 !! n = Some v /\ P v.

(** All the samples of the input. *)
Definition samples (input : list InputSeries) : list (Q * raw) :=
  concat (values <$> input).

(** The input of [series_b_then_a] with the two names exchanged. *)
Definition series_a_then_b : Props :=
  mkProps (mkWindow 0 0 1)
    [ {| seriesName := "a"; values := [pt 0 "1"] |};
      {| seriesName := "b"; values := [pt 0 "2"] |} ] false false.

(** ** Distance to the cursor *)

(** The criterion of the focus in line mode. *)
Definition distance (cursorValue : num) (s : HoverPoint) : num :=
  num_abs (num_sub (to_number (graphValue s)) cursorValue).

(** ** Offsets set to zero *)

Definition without_offset (d : Datapoint) : Datapoint :=
  {| timestampSec := timestampSec d; value := value d; offset := Fin 0 |}.

Definition series_without_offsets (s : Series) : Series :=
  {| name := name s; key := key s; color := color s;
     datapoints := without_offset <$> datapoints s |}.

Definition without_offsets (st : State) : State :=
  {| selectedLegendSeriesKey := selectedLegendSeriesKey st;
     state_multiSeries := series_without_offsets <$> state_multiSeries st |}.

(** ** Last write wins *)

(** What the samples [points] leave at the grid timestamp [ts]: the
    parsed value of the last sample quantized to [ts], a gap when there
    is none. *)
Definition last_write (qz : Quantizer) (points : list (Q * raw)) (ts : Z)
  : option num :=
  match last (filter (fun point => quantize qz point.1 = Some ts) points) with
  | Some point => parseGraphValue point.2
  | None => None
  end.

(** The cell of series [n] in the row of [ts]; the outer [None] is a
    missing row or property. *)
Definition cell (t : Table) (ts : Z) (n : string) : option (option num) :=
  row ← table_get t ts; row !! n.

(** ** Rows by timestamp *)

(** The timestamp a row carries, 0 when it carries none. *)
Definition row_timestamp (row : Row) : Z :=
  match row !! "timestampSec" with
  | Some (Some (Fin q)) => Qfloor q
  | _ => 0
  end.

Definition by_timestamp (a b : Row) : Prop := row_timestamp a <= row_timestamp b.

#[local] Instance by_timestamp_dec a b : Decision (by_timestamp a b).
Proof. unfold by_timestamp. apply _. Defined.

(** The row [e] carries its own key as timestamp. *)
Definition carries_key (e : Z * Row) : Prop :=
  e.2 !! "timestampSec" = Some (Some (num_of_Z e.1)).

(** A value that is a gap or a rational number. *)
Definition gap_or_finite (v : option num) : Prop :=
  v = None \/ exists q, v = Some (Fin q).

(** No sample of the input parses to an infinity. *)
Definition finite_samples (input : list InputSeries) : Prop :=
  Forall (fun point => gap_or_finite (parseGraphValue point.2)) (samples input).

(** The value of series [series] at position [j] of the grid, a gap
    counting 0, and the sum of these values over the first [i] series. *)
Definition value_at (j : nat) (series : Series) : Q :=
  match value <$> datapoints series !! j with
  | Some (Some (Fin q)) => q
  | _ => 0%Q
  end.

Definition sum_below (ms : list Series) (i j : nat) : Q :=
  foldr (fun series acc => (value_at j series + acc)%Q) 0%Q (take i ms).

(** ** Windows on which the doubles are exact *)

(** Whole seconds below [2^33] in magnitude, over a span below [2^31]:
    on these windows the doubles compute the grid of exact arithmetic,
    the grid is shorter than the longest array, and every timestamp is
    printed as its decimal digits. *)
Definition window_in_range (w : Window) : Prop :=
  Z.abs (startTimeSec w) < 2 ^ 33
  /\ Z.abs (endTimeSec w) < 2 ^ 33
  /\ Z.abs (stepDurationSec w) < 2 ^ 33
  /\ endTimeSec w - startTimeSec w < 2 ^ 31.

(** A number [m * 2^j] with [|m| <= 2^53]: what [double] rounds to. *)
Definition representable (a : Q) : Prop :=
  exists m j : Z, Z.abs m <= 2 ^ 53 /\ (a == inject_Z m * 2 ^ j)%Q.

(** A double: [m * 2^j] with [|m| < 2^53] and [j] from [-1074] to [971]. *)
Definition binary64 (a : Q) : Prop :=
  exists m j : Z,
    Z.abs m < 2 ^ 53 /\ -1074 <= j <= 971 /\ (a == inject_Z m * 2 ^ j)%Q.

(** ** Decimal strings *)



(** The number a string of decimal digits writes; [None] when another
    character occurs. *)
Definition digits_value (s : string) : option N :=
  let '(v, _, rest) := span_digits s 0%N 0%nat in
  match rest with
  | EmptyString => Some v
  | String _ _ => None
  end.

(** [s] is [q] rounded to [f] decimals: a minus sign when [q] is
    negative, then the digits of the integer nearest to [|q| * 10^f]
    (the larger one on a tie), with a point before the last [f] of them
    when [f > 0]; before the point stands a lone [0] or a digit string
    that does not start with [0]. *)
Definition rendered_to (f : nat) (q : Q) (s : string) : Prop :=
  exists ip fp : string,
    s = (if Qis_neg q then "-" else "") +:+ ip
          +:+ (match f with O => "" | S _ => "." end) +:+ fp
    /\ (ip = "0" \/ exists (c : ascii) (t : string),
                      ip = String c t /\ c <> "0"%char)
    /\ String.length fp = f
    /\ digits_value (ip +:+ fp)
       = Some (Z.to_N (Qfloor (Qabs q * inject_Z (10 ^ Z.of_nat f) + (1 # 2))%Q)).

(** ** A grid that the sort leaves out of order *)

(** One series with the single sample 5 at 150, on the window from 0 to
    1000 in steps of 100, whose grid the sort leaves as
    0, 100, 1000, 200, ..., 900. *)
Definition one_sample_0_1000 : Props :=
  mkProps (mkWindow 0 1000 100)
    [ {| seriesName := "a"; values := [pt 150 "5"] |} ] false false.

(** * Properties *)

(** ** Comparisons on rationals *)

Lemma Qltb_lt (a b : Q) : Qltb a b = true <-> (a < b)%Q.
Proof. unfold Qltb, Qlt. apply Z.ltb_lt. Qed.

Lemma Qltb_ge (a b : Q) : Qltb a b = false <-> (b <= a)%Q.
Proof. unfold Qltb, Qle. apply Z.ltb_ge. Qed.

Lemma Qleb_le (a b : Q) : Qleb a b = true <-> (a <= b)%Q.
Proof. unfold Qleb, Qle. apply Z.leb_le. Qed.

(** Closed comparisons between rational constants. *)
Ltac Qconst := unfold Qlt, Qle, Qeq; simpl; lia.

Lemma num_ge_Fin (a b : Q) : num_ge (Fin a) (Fin b) = negb (Qltb a b).
Proof. reflexivity. Qed.

Lemma Qzerob_true (x : Q) : Qzerob x = true <-> (x == 0)%Q.
Proof. unfold Qzerob, Qeq. cbn. rewrite Z.eqb_eq. lia. Qed.

Lemma Qzerob_false (x : Q) : Qzerob x = false <-> ~ (x == 0)%Q.
Proof. rewrite <- Qzerob_true. by destruct (Qzerob x). Qed.

Lemma Qdiv_1_eq (q : Q) : (q / 1)%Q = q.
Proof.
  destruct q as [a b]. unfold Qdiv, Qmult, Qinv. simpl.
  rewrite Z.mul_1_r, Pos.mul_1_r. reflexivity.
Qed.

(** Closed bounds of a window. *)
Ltac window_bounds := unfold window_in_range; cbn; lia.

(** ** Decimal digits *)

Section Digits.

Lemma string_app_assoc (s t u : string) : (s +:+ t) +:+ u = s +:+ (t +:+ u).
Proof.
  induction s as [|c s IH]; [reflexivity|].
  change (String c ((s +:+ t) +:+ u) = String c (s +:+ (t +:+ u))).
  by rewrite IH.
Qed.

Lemma length_append (s t : string) :
  String.length (s +:+ t) = (String.length s + String.length t)%nat.
Proof.
  induction s as [|c s IH]; [reflexivity|].
  change (S (String.length (s +:+ t)) = S (String.length s + String.length t)).
  by rewrite IH.
Qed.

Lemma append_nil_r (s : string) : s +:+ "" = s.
Proof.
  induction s as [|c s IH]; [reflexivity|].
  change (String c (s +:+ "") = String c s). by rewrite IH.
Qed.

Lemma substring_prefix (s t : string) :
  String.substring 0 (String.length s) (s +:+ t) = s.
Proof.
  induction s as [|c s IH]; [by destruct t|].
  change (String c (String.substring 0 (String.length s) (s +:+ t)) = String c s).
  by rewrite IH.
Qed.

Lemma substring_suffix (s t : string) :
  String.substring (String.length s) (String.length t) (s +:+ t) = t.
Proof.
  induction s as [|c s IH]; [|exact IH].
  change ("" +:+ t) with t. change (String.length "") with 0%nat.
  induction t as [|c t IH]; [done|].
  change (String c (String.substring 0 (String.length t) t) = String c t).
  by rewrite IH.
Qed.

Lemma string_split_at (m : string) (n : nat) :
  (n <= String.length m)%nat ->
  exists a b : string, m = a +:+ b /\ String.length a = n.
Proof.
  revert m. induction n as [|n IH]; intros m Hn.
  - by exists "", m.
  - destruct m as [|c m]; [cbn in Hn; lia|].
    destruct (IH m) as (a & b & -> & Hla); [cbn in Hn; lia|].
    exists (String c a), b. split; [reflexivity|]. cbn. by rewrite Hla.
Qed.

Lemma pretty_N_go_app (x : N) :
  forall s : string, pretty_N_go x s = pretty_N_go x "" +:+ s.
Proof.
  induction (N.lt_wf_0 x) as [x _ IH]. intros s.
  destruct (decide (x = 0)%N) as [->|Hx]; [by rewrite !pretty_N_go_0|].
  rewrite !(pretty_N_go_step x) by lia.
  assert (Hlt : (x `div` 10 < x)%N) by (apply N.div_lt; lia).
  rewrite (IH _ Hlt (String (pretty_N_char (x `mod` 10)) s)).
  rewrite (IH _ Hlt (String (pretty_N_char (x `mod` 10)) "")).
  by rewrite string_app_assoc.
Qed.

Lemma digit_of_pretty_N_char (d : N) :
  (d < 10)%N -> digit_of (pretty_N_char d) = Some d.
Proof.
  intros Hd.
  assert (Hcases : d ∈ [0; 1; 2; 3; 4; 5; 6; 7; 8; 9]%N).
  { rewrite !elem_of_cons. lia. }
  rewrite !elem_of_cons in Hcases.
  destruct Hcases as [->|[->|[->|[->|[->|[->|[->|[->|[->|[->|H]]]]]]]]]];
    [reflexivity..|by apply elem_of_nil in H].
Qed.

Lemma pretty_N_go_head (x : N) :
  forall s : string, (0 < x)%N ->
  exists (c : ascii) (t : string) (d : N),
    pretty_N_go x s = String c t /\ digit_of c = Some d.
Proof.
  induction (N.lt_wf_0 x) as [x _ IH]. intros s Hx.
  rewrite pretty_N_go_step by lia.
  destruct (decide (x `div` 10 = 0)%N) as [->|Hdiv].
  - rewrite pretty_N_go_0. eexists _, _, _. split; [reflexivity|].
    apply digit_of_pretty_N_char, N.mod_lt. lia.
  - apply IH.
    + apply N.div_lt; lia.
    + apply N.neq_0_lt_0. exact Hdiv.
Qed.

Lemma pretty_N_head (x : N) :
  exists (c : ascii) (t : string) (d : N),
    pretty x = String c t /\ digit_of c = Some d.
Proof.
  unfold pretty, pretty_N. destruct (decide (x = 0)%N) as [->|Hx].
  - by exists "0"%char, "", 0%N.
  - apply pretty_N_go_head. lia.
Qed.

Lemma pretty_N_go_head_nonzero (x : N) :
  forall s : string, (0 < x)%N ->
  exists (c : ascii) (t : string),
    pretty_N_go x s = String c t /\ c <> "0"%char.
Proof.
  induction (N.lt_wf_0 x) as [x _ IH]. intros s Hx.
  rewrite pretty_N_go_step by lia.
  destruct (decide (x `div` 10 = 0)%N) as [Hdiv|Hdiv].
  - rewrite Hdiv, pretty_N_go_0. eexists _, _. split; [reflexivity|].
    assert (Hlt : (x < 10)%N).
    { destruct (N.lt_ge_cases x 10) as [Hlt|Hge]; [exact Hlt|].
      pose proof (N.Div0.div_le_mono 10 x 10 Hge) as Hmono.
      change (10 `div` 10)%N with 1%N in Hmono. lia. }
    rewrite N.mod_small by exact Hlt.
    assert (Hcases : x ∈ [1; 2; 3; 4; 5; 6; 7; 8; 9]%N).
    { rewrite !elem_of_cons. lia. }
    rewrite !elem_of_cons in Hcases.
    destruct Hcases as [->|[->|[->|[->|[->|[->|[->|[->|[->|H]]]]]]]]];
      [discriminate..|by apply elem_of_nil in H].
  - apply IH.
    + apply N.div_lt; lia.
    + apply N.neq_0_lt_0. exact Hdiv.
Qed.

(** The digits of a natural number: a lone [0], or digits that do not
    start with [0]. *)
Lemma pretty_N_no_leading_zero (x : N) :
  pretty x = "0"
  \/ exists (c : ascii) (t : string), pretty x = String c t /\ c <> "0"%char.
Proof.
  unfold pretty, pretty_N. destruct (decide (x = 0)%N) as [->|Hx].
  - by left.
  - right. apply pretty_N_go_head_nonzero. lia.
Qed.

Lemma pretty_Z_nonneg (n : Z) : 0 <= n -> pretty n = pretty (Z.to_N n).
Proof. destruct n as [|p|p]; [reflexivity|reflexivity|lia]. Qed.

Lemma span_digits_zeros (n : nat) :
  forall (s : string) (acc : N) (count : nat),
    span_digits (zeros n +:+ s) acc count
    = span_digits s (acc * 10 ^ N.of_nat n)%N (count + n)%nat.
Proof.
  induction n as [|n IH]; intros s acc count.
  - change (zeros 0 +:+ s) with s. f_equal; [|lia].
    change (10 ^ N.of_nat 0)%N with 1%N. lia.
  - change (zeros (S n) +:+ s) with (String "0" (zeros n +:+ s)).
    cbn [span_digits]. change (digit_of "0") with (Some 0%N). cbn match.
    rewrite IH. f_equal; [|lia].
    rewrite Nat2N.inj_succ, N.pow_succ_r'. lia.
Qed.

(** The digits [pretty_N_go] prints are read back, and counted. *)
Lemma span_digits_pretty_N_go_length (x : N) :
  forall (s : string) (acc : N) (count : nat),
    span_digits (pretty_N_go x s) acc count
    = span_digits s
        (acc * 10 ^ N.of_nat (String.length (pretty_N_go x "")) + x)%N
        (count + String.length (pretty_N_go x ""))%nat.
Proof.
  induction (N.lt_wf_0 x) as [x _ IH]. intros s acc count.
  destruct (decide (x = 0)%N) as [->|Hx].
  - rewrite !pretty_N_go_0. change (String.length "") with 0%nat.
    f_equal; [|lia]. change (10 ^ N.of_nat 0)%N with 1%N. lia.
  - rewrite !(pretty_N_go_step x) by lia.
    assert (Hlt : (x `div` 10 < x)%N) by (apply N.div_lt; lia).
    rewrite (IH _ Hlt). cbn [span_digits].
    rewrite digit_of_pretty_N_char by (apply N.mod_lt; lia).
    rewrite (pretty_N_go_app (x `div` 10) (String _ "")), length_append.
    change (String.length (String (pretty_N_char (x `mod` 10)) "")) with 1%nat.
    f_equal; [|lia].
    replace (N.of_nat (String.length (pretty_N_go (x `div` 10) "") + 1))
      with (N.succ (N.of_nat (String.length (pretty_N_go (x `div` 10) "")))) by lia.
    rewrite N.pow_succ_r'.
    pose proof (N.div_mod x 10 ltac:(lia)). lia.
Qed.

Lemma span_digits_pretty (x : N) (s : string) (acc : N) (count : nat) :
  span_digits (pretty x +:+ s) acc count
  = span_digits s (acc * 10 ^ N.of_nat (String.length (pretty x)) + x)%N
                (count + String.length (pretty x))%nat.
Proof.
  unfold pretty, pretty_N. destruct (decide (x = 0)%N) as [->|Hx].
  - change ("0" +:+ s) with (String "0" s). cbn [span_digits].
    change (digit_of "0") with (Some 0%N). cbn match.
    change (String.length "0") with 1%nat.
    change (10 ^ N.of_nat 1)%N with 10%N. f_equal; lia.
  - rewrite <- pretty_N_go_app. apply span_digits_pretty_N_go_length.
Qed.



Lemma digits_value_pretty (x : N) (p : nat) :
  digits_value (zeros p +:+ pretty x) = Some x.
Proof.
  unfold digits_value. rewrite span_digits_zeros.
  pose proof (span_digits_pretty x "" (0 * 10 ^ N.of_nat p)%N (0 + p)%nat) as Hsp.
  rewrite append_nil_r in Hsp. rewrite Hsp. cbn [span_digits].
  f_equal; lia.
Qed.

(** [toFixed] prints the value rounded to [f] decimals. *)
Lemma toFixed_rendered (q : Q) (f : nat) : rendered_to f q (toFixed (Fin q) f).
Proof.
  unfold toFixed, rendered_to.
  set (n := Qfloor (Qabs q * inject_Z (10 ^ Z.of_nat f) + (1 # 2))).
  assert (Hn : 0 <= n).
  { unfold n. rewrite <- (Qfloor_Z 0). apply Qfloor_resp_le.
    change (inject_Z 0) with 0%Q.
    assert (0 <= Qabs q * inject_Z (10 ^ Z.of_nat f))%Q; [|lra].
    apply Qmult_le_0_compat; [apply Qabs_nonneg|].
    rewrite <- (Zle_Qle 0). apply Z.pow_nonneg. lia. }
  rewrite (pretty_Z_nonneg n Hn). set (m0 := pretty (Z.to_N n)).
  cbv zeta.
  set (m := if (String.length m0 <=? f)%nat
            then zeros (f + 1 - String.length m0) +:+ m0 else m0).
  assert (Hz : forall k, String.length (zeros k) = k).
  { induction k as [|k IHk]; [done|]. cbn. by rewrite IHk. }
  assert (Hm0 : (1 <= String.length m0)%nat).
  { unfold m0. destruct (pretty_N_head (Z.to_N n)) as (c & t & d & -> & _).
    cbn. lia. }
  assert (Hm : digits_value m = Some (Z.to_N n) /\ (f + 1 <= String.length m)%nat).
  { unfold m. destruct (Nat.leb_spec (String.length m0) f) as [Hle|Hgt].
    - split; [apply digits_value_pretty|].
      rewrite length_append, Hz. lia.
    - split; [apply (digits_value_pretty _ 0)|lia]. }
  destruct Hm as [Hdigits Hlen].
  assert (Hhead : ((String.length m = f + 1)%nat /\ exists t, m = String "0" t)
                  \/ m = "0"
                  \/ exists (c : ascii) (t : string),
                       m = String c t /\ c <> "0"%char).
  { unfold m. destruct (Nat.leb_spec (String.length m0) f) as [Hle|Hgt].
    - left. split; [rewrite length_append, Hz; lia|].
      replace (f + 1 - String.length m0)%nat
        with (S (f - String.length m0)) by lia.
      by eexists.
    - right. apply pretty_N_no_leading_zero. }
  destruct f as [|f'].
  - exists m, "". split; [by rewrite !append_nil_r|].
    split.
    { destruct Hhead as [[Hl [t Ht]]|Hhead]; [|exact Hhead].
      left. rewrite Ht in Hl |- *. destruct t; [reflexivity|cbn in Hl; lia]. }
    split; [reflexivity|]. by rewrite append_nil_r.
  - destruct (string_split_at m (String.length m - S f')) as (a & b & Hab & Hla); [lia|].
    assert (Hlb : String.length b = S f').
    { pose proof (length_append a b) as Hl. rewrite <- Hab in Hl. lia. }
    assert (Hip : String.substring 0 (String.length m - S f') m = a).
    { rewrite <- Hla, Hab. apply substring_prefix. }
    assert (Hfp : String.substring (String.length m - S f') (S f') m = b).
    { rewrite <- Hla, <- Hlb, Hab. apply substring_suffix. }
    exists a, b. rewrite Hip, Hfp.
    split; [reflexivity|].
    split.
    { destruct a as [|c a'].
      { cbn in Hla. lia. }
      destruct Hhead as [[Hl [t Ht]]|[H0|(c0 & t & Ht & Hc)]].
      - left. rewrite Hab in Ht. cbn in Ht. injection Ht as -> _.
        destruct a'; [reflexivity|]. cbn in Hla. lia.
      - rewrite H0 in Hlen. cbn in Hlen. lia.
      - right. rewrite Hab in Ht. cbn in Ht. injection Ht as -> _.
        by eexists _, _. }
    split; [exact Hlb|]. by rewrite <- Hab.
Qed.

End Digits.

(** ** Formatters *)

Section Formatters.

(** A reference magnitude below twice the smallest unit of a table
    reaches no threshold of that table. *)
Lemma threshold_not_reached (q unit bound : Q) :
  (q < 2 * bound)%Q -> (0 < unit)%Q -> (bound <= unit)%Q ->
  num_ge (num_divc (Fin q) unit) (Fin 2) = false.
Proof.
  intros Hq Hpos Hu. cbn [num_divc]. rewrite num_ge_Fin.
  apply negb_false_iff, Qltb_lt, Qlt_shift_div_r; [exact Hpos|].
  eapply Qlt_le_trans; [exact Hq|].
  apply Qmult_le_l; [reflexivity|exact Hu].
Qed.

Lemma bytes_no_unit (bytes : num) :
  num_lt bytes (Fin 2) = true ->
  List.find (fun '(_, unit) => num_ge (num_divc bytes unit) (Fin 2)) byteUnits = None.
Proof.
  destruct bytes as [q| | |]; cbn [num_lt]; intros H; try discriminate.
  - apply Qltb_lt in H.
    assert (Hq : (q < 2 * 1)%Q) by (rewrite Qmult_1_r; exact H).
    unfold byteUnits. cbn [List.find].
    rewrite !(threshold_not_reached q _ 1 Hq); solve [reflexivity | Qconst].
  - reflexivity.
Qed.

End Formatters.

(** C10.  Under the [bytes] scheme, a reference magnitude below 2
    matches no unit, not even the 1-byte unit; the rendering function
    then maps every value that is not a gap to ["0"], whatever the
    value, and a gap to ["---"]. *)
Theorem bytes_below_two_renders_zero (bytes n : num) :
  num_lt bytes (Fin 2) = true ->
  valueFormatters_bytes bytes (Some n) = "0"
  /\ valueFormatters_bytes bytes None = "---".
Proof.
  intros H. unfold valueFormatters_bytes.
  rewrite (bytes_no_unit bytes H). split; reflexivity.
Qed.

Lemma bytes_below_two_renders_zero_witness :
  num_lt (Fin 1) (Fin 2) = true
  /\ valueFormatters_bytes (Fin 1) (Some (Fin (19 # 10))) = "0"
  /\ valueFormatters_bytes (Fin 1) (Some (Fin 1)) = "0"
  /\ valueFormatters_bytes (Fin 1) None = "---".
Proof.
  split; [reflexivity|].
  split; [apply (bytes_below_two_renders_zero (Fin 1) (Fin (19 # 10))); reflexivity|].
  apply (bytes_below_two_renders_zero (Fin 1) (Fin 1)); reflexivity.
Defined.

Lemma find_none_Forall {A} (f : A -> bool) (l : list A) :
  Forall (fun x => f x = false) l -> List.find f l = None.
Proof.
  induction 1 as [|x l Hx _ IH]; [reflexivity|].
  cbn [List.find]. rewrite Hx. exact IH.
Qed.

Lemma none_fallback (number : num) :
  no_threshold number snd bigNumbers ->
  no_threshold number fst smallNumbers ->
  forall n : option num,
    valueFormatters_none number n =
    match n with
    | None => "---"
    | Some n => if is_zero n then "0" else toFixed (num_divc n 1) 4 +:+ " " +:+ ""
    end.
Proof.
  intros Hbig Hsmall n. unfold valueFormatters_none.
  rewrite (find_none_Forall (fun '(_, unit) => num_ge (num_divc number unit) (Fin 2)));
    [|eapply Forall_impl; [exact Hbig|intros [? ?]; auto]].
  rewrite (find_none_Forall (fun '(base, _) => num_ge (num_divc number base) (Fin 2)));
    [|eapply Forall_impl; [exact Hsmall|intros [? ?]; auto]].
  reflexivity.
Qed.

Lemma none_gap_and_zero (number : num) :
  valueFormatters_none number None = "---"
  /\ forall n, is_zero n = true -> valueFormatters_none number (Some n) = "0".
Proof.
  unfold valueFormatters_none.
  repeat match goal with
         | |- context [List.find ?f ?l] => destruct (List.find f l) as [[? ?]|]
         end;
    (split; [reflexivity|intros z Hz; rewrite Hz; reflexivity]).
Qed.

(** C8, as the claim states it, fails.  With reference magnitude 0 no
    threshold is reached, and the value 1/2 is rendered ["0.5000 "],
    with four decimals, where integer precision would give ["1 "]. *)
Lemma none_fallback_is_not_integer_precision :
  ~ (forall number n : num,
        no_threshold number snd bigNumbers ->
        no_threshold number fst smallNumbers ->
        is_zero n = false ->
        valueFormatters_none number (Some n) = toFixed n 0 +:+ " ").
Proof.
  intros H.
  specialize (H (Fin 0) (Fin (1 # 2))).
  assert (Hgo : valueFormatters_none (Fin 0) (Some (Fin (1 # 2))) = "0.5000 ")
    by (vm_compute; reflexivity).
  rewrite Hgo in H.
  assert (Hfix : toFixed (Fin (1 # 2)) 0 +:+ " " = "1 ") by (vm_compute; reflexivity).
  rewrite Hfix in H.
  assert (Heq : "0.5000 " = "1 ") by
    (apply H; [repeat constructor..|reflexivity]).
  discriminate Heq.
Qed.


(** C8, amended.  Under the [none] scheme, when the reference magnitude
    reaches no big-number and no small-number threshold, the rendering
    function keeps the initial precision: a finite value other than
    zero, below [10^21] in magnitude, is rendered rounded to four
    decimals, followed by a space and an empty unit label; an infinity
    or NaN is rendered as its name and a space.  For every reference
    magnitude a gap is rendered ["---"] and zero ["0"]. *)
Theorem none_fallback_four_decimals (number : num) :
  no_threshold number snd bigNumbers ->
  no_threshold number fst smallNumbers ->
  (forall q : Q,
      ~ (q == 0)%Q -> (Qabs q < inject_Z (10 ^ 21))%Q ->
      exists s : string,
        valueFormatters_none number (Some (Fin q)) = s +:+ " "
        /\ rendered_to 4 q s)
  /\ valueFormatters_none number (Some PInf) = "Infinity "
  /\ valueFormatters_none number (Some NInf) = "-Infinity "
  /\ valueFormatters_none number (Some NaN) = "NaN "
  /\ (forall number', valueFormatters_none number' None = "---")
  /\ (forall number' z, is_zero z = true ->
        valueFormatters_none number' (Some z) = "0").
Proof.
  intros Hbig Hsmall.
  split; [|split; [|split; [|split; [|split]]]].
  - intros q Hq _. exists (toFixed (Fin q) 4). split; [|apply toFixed_rendered].
    rewrite (none_fallback number Hbig Hsmall).
    assert (Hz : is_zero (Fin q) = false) by (by apply Qzerob_false).
    rewrite Hz. cbn [num_divc]. by rewrite Qdiv_1_eq.
  - by rewrite (none_fallback number Hbig Hsmall).
  - by rewrite (none_fallback number Hbig Hsmall).
  - by rewrite (none_fallback number Hbig Hsmall).
  - intros number'. apply none_gap_and_zero.
  - intros number' z. apply none_gap_and_zero.
Qed.

Lemma none_fallback_four_decimals_witness :
  exists s : string,
    valueFormatters_none (Fin 0) (Some (Fin (1 # 2))) = s +:+ " "
    /\ rendered_to 4 (1 # 2) s.
Proof.
  assert (Hbig0 : no_threshold (Fin 0) snd bigNumbers) by (repeat constructor).
  assert (Hsmall0 : no_threshold (Fin 0) fst smallNumbers) by (repeat constructor).
  apply (proj1 (none_fallback_four_decimals (Fin 0) Hbig0 Hsmall0) (1 # 2)).
  - Qconst.
  - reflexivity.
Defined.

(** The two renderings of the fallback written out. *)
Example none_fallback_renders :
  valueFormatters_none (Fin 0) (Some (Fin (1 # 2))) = "0.5000 "
  /\ valueFormatters_none (Fin (15 # 100000)) (Some (Fin (-3 # 2))) = "-1.5000 ".
Proof. split; vm_compute; reflexivity. Qed.

(** ** [parseGraphValue] *)

Section Parsing.








End Parsing.





(** ** The time grid *)

Section Grid.

Lemma Qceiling_unique (x : Q) (n : Z) :
  (inject_Z (n - 1) < x)%Q -> (x <= inject_Z n)%Q -> Qceiling x = n.
Proof.
  intros Hlo Hhi. apply Z.le_antisymm.
  - rewrite <- (Qceiling_Z n). apply Qceiling_resp_le, Hhi.
  - assert (H : (n - 1 < Qceiling x)%Z); [|lia].
    rewrite Zlt_Qlt. eapply Qlt_le_trans; [exact Hlo|apply Qle_ceiling].
Qed.

Lemma baseRange_length (start step : Z) (n : nat) :
  length (baseRange start step n) = n.
Proof. revert start. induction n as [|n IH]; intros start; simpl; auto. Qed.

Lemma baseRange_lookup (start step : Z) (n i : nat) :
  (i < n)%nat -> baseRange start step n !! i = Some (start + Z.of_nat i * step).
Proof.
  revert start i. induction n as [|n IH]; intros start i Hi; [lia|].
  destruct i as [|i]; simpl.
  - f_equal. lia.
  - rewrite IH by lia. f_equal. lia.
Qed.

Lemma elem_of_baseRange (start step t : Z) (n : nat) :
  t ∈ baseRange start step n <->
  exists i : nat, (i < n)%nat /\ t = start + Z.of_nat i * step.
Proof.
  rewrite list_elem_of_lookup. split.
  - intros [i Hi]. exists i.
    assert (Hlt : (i < n)%nat).
    { apply lookup_lt_Some in Hi. by rewrite baseRange_length in Hi. }
    rewrite baseRange_lookup in Hi by done. split; [done|congruence].
  - intros (i & Hi & ->). exists i. by apply baseRange_lookup.
Qed.

Variables s e d : Z.
Hypothesis step_pos : 0 < d.
Hypothesis start_le_end : s <= e.

(** The descent from [e] in steps of [d] stops at the last point that is
    not below [s - 1e-6]: it has [(e - s) / d + 1] points. *)
Lemma grid_length :
  range_length e (inject_Z s - (1 # 1000000))%Q (- d)
  = Z.to_nat ((e - s) / d + 1).
Proof.
  unfold range_length.
  destruct (Z.eqb_spec (- d) 0) as [Hd|_]; [lia|].
  set (k := (e - s) / d).
  assert (Hk : k * d <= e - s < (k + 1) * d).
  { pose proof (Z.mul_div_le (e - s) d step_pos).
    pose proof (Z.mul_succ_div_gt (e - s) d step_pos). unfold k. lia. }
  assert (Hdq : (0 < inject_Z d)%Q) by (rewrite <- (Zlt_Qlt 0); exact step_pos).
  assert (Heq : ((inject_Z s - (1 # 1000000) - inject_Z e) / inject_Z (- d)
                 == (inject_Z (e - s) + (1 # 1000000)) / inject_Z d)%Q).
  { rewrite inject_Z_opp. unfold Z.sub. rewrite inject_Z_plus, inject_Z_opp.
    field. intros H0. rewrite H0 in Hdq. by apply Qlt_irrefl in Hdq. }
  rewrite Heq.
  rewrite (Qceiling_unique _ (k + 1)); [lia| |].
  - apply Qlt_shift_div_l; [exact Hdq|].
    replace (k + 1 - 1) with k by lia.
    rewrite <- inject_Z_mult.
    apply Qle_lt_trans with (inject_Z (e - s)).
    + rewrite <- Zle_Qle. lia.
    + rewrite <- (Qplus_0_r (inject_Z (e - s))) at 1.
      apply Qplus_lt_r. Qconst.
  - apply Qle_shift_div_r; [exact Hdq|].
    rewrite <- inject_Z_mult.
    apply Qle_trans with (inject_Z (e - s) + 1)%Q.
    + apply Qplus_le_r. Qconst.
    + change 1%Q with (inject_Z 1). rewrite <- inject_Z_plus, <- Zle_Qle. lia.
Qed.

Lemma elem_of_grid (t : Z) :
  t ∈ getTimestampSecs (mkWindow s e d) <->
  exists i : Z, 0 <= i <= (e - s) / d /\ t = e - i * d.
Proof.
  unfold getTimestampSecs, Array_sort, range. cbn [startTimeSec endTimeSec stepDurationSec mkWindow].
  rewrite merge_sort_Permutation, grid_length, elem_of_baseRange.
  pose proof (Z.div_pos (e - s) d ltac:(lia) step_pos).
  split.
  - intros (i & Hi & ->). exists (Z.of_nat i). lia.
  - intros (i & Hi & ->). exists (Z.to_nat i). lia.
Qed.

End Grid.

(** ** The grid in doubles *)

Lemma pow2_pos (e : Z) : (0 < 2 ^ e)%Q.
Proof. apply Qpower_0_lt. reflexivity. Qed.

Lemma pow2_add (a b : Z) : (2 ^ (a + b) == 2 ^ a * 2 ^ b)%Q.
Proof. apply Qpower_plus. discriminate. Qed.

Lemma pow2_Z (n : Z) : 0 <= n -> (2 ^ n == inject_Z (2 ^ n))%Q.
Proof. intros Hn. symmetry. exact (Zpower_Qpower 2 n Hn). Qed.

Lemma pow2_le (a b : Z) : a <= b -> (2 ^ a <= 2 ^ b)%Q.
Proof. intros H. apply Qpower_le_compat_l; [exact H|discriminate]. Qed.

Lemma round_half_even_floor (x : Q) :
  Qfloor x <= round_half_even x <= Qfloor x + 1.
Proof.
  unfold round_half_even.
  destruct (Qltb _ _); [lia|]. destruct (Qltb _ _); [lia|].
  destruct (Z.even _); lia.
Qed.

Lemma round_half_even_mono (x y : Q) :
  (x <= y)%Q -> round_half_even x <= round_half_even y.
Proof.
  intros Hxy. pose proof (Qfloor_resp_le x y Hxy) as Hf.
  pose proof (round_half_even_floor x) as Hx.
  pose proof (round_half_even_floor y) as Hy.
  destruct (Z.eq_dec (Qfloor x) (Qfloor y)) as [Heq|Hne]; [|lia].
  unfold round_half_even in *. rewrite <- Heq in *.
  destruct (Qltb (x - inject_Z (Qfloor x)) (1 # 2)) eqn:H1; [lia|].
  apply Qltb_ge in H1.
  destruct (Qltb (y - inject_Z (Qfloor x)) (1 # 2)) eqn:H2.
  { apply Qltb_lt in H2. lra. }
  apply Qltb_ge in H2.
  destruct (Qltb (1 # 2) (x - inject_Z (Qfloor x))) eqn:H3.
  { apply Qltb_lt in H3.
    destruct (Qltb (1 # 2) (y - inject_Z (Qfloor x))) eqn:H4; [lia|].
    apply Qltb_ge in H4. lra. }
  destruct (Qltb (1 # 2) (y - inject_Z (Qfloor x))) eqn:H4; [|lia].
  destruct (Z.even (Qfloor x)); lia.
Qed.

Lemma round_half_even_Z (z : Z) : round_half_even (inject_Z z) = z.
Proof.
  unfold round_half_even. rewrite Qfloor_Z.
  assert (H : Qltb (inject_Z z - inject_Z z) (1 # 2) = true).
  { apply Qltb_lt. lra. }
  by rewrite H.
Qed.

Lemma Qred_inject_Z (z : Z) : Qred (inject_Z z) = inject_Z z.
Proof.
  unfold Qred, inject_Z.
  pose proof (Z.ggcd_gcd z 1) as Hg.
  pose proof (Z.ggcd_correct_divisors z 1) as Hd.
  destruct (Z.ggcd z 1) as [g [a b]]. cbn [fst snd Qnum Qden] in *.
  rewrite Z.gcd_1_r in Hg. subst g. destruct Hd as [Ha Hb].
  f_equal; [lia|]. replace b with 1 by lia. reflexivity.
Qed.

(** The binade of [x]: [2^e <= |x| < 2^(e+1)]. *)
Lemma binade_spec (x : Q) :
  ~ (x == 0)%Q ->
  (2 ^ binade x <= Qabs x)%Q /\ (Qabs x < 2 ^ (binade x + 1))%Q.
Proof.
  intros Hx. unfold binade.
  set (p := Z.abs (Qnum x)). set (q := QDen x).
  set (lp := Z.log2 p). set (lq := Z.log2 q).
  assert (Hp : 0 < p).
  { unfold p. unfold Qeq in Hx. cbn in Hx. lia. }
  assert (Hq : 0 < q) by (unfold q; lia).
  pose proof (Z.log2_spec p Hp) as Hlp. pose proof (Z.log2_spec q Hq) as Hlq.
  pose proof (Z.log2_nonneg p) as Hlp0. pose proof (Z.log2_nonneg q) as Hlq0.
  fold lp in Hlp, Hlp0. fold lq in Hlq, Hlq0.
  assert (HX : (Qabs x * inject_Z q == inject_Z p)%Q).
  { unfold Qabs, Qeq, q, p. destruct x as [a b]. cbn. lia. }
  assert (HQq : (0 < inject_Z q)%Q) by (rewrite <- (Zlt_Qlt 0); exact Hq).
  assert (HT1 : (2 ^ lp <= inject_Z p)%Q /\ (inject_Z p < 2 * 2 ^ lp)%Q).
  { rewrite (pow2_Z lp Hlp0). split.
    - rewrite <- Zle_Qle. lia.
    - change 2%Q with (inject_Z 2) at 1. rewrite <- inject_Z_mult, <- Zlt_Qlt.
      rewrite Z.pow_succ_r in Hlp by done. lia. }
  assert (HT2 : (2 ^ lq <= inject_Z q)%Q /\ (inject_Z q < 2 * 2 ^ lq)%Q).
  { rewrite (pow2_Z lq Hlq0). split.
    - rewrite <- Zle_Qle. lia.
    - change 2%Q with (inject_Z 2) at 1. rewrite <- inject_Z_mult, <- Zlt_Qlt.
      rewrite Z.pow_succ_r in Hlq by done. lia. }
  assert (HE : (2 ^ (lp - lq) * 2 ^ lq == 2 ^ lp)%Q).
  { rewrite <- pow2_add. by replace (lp - lq + lq) with lp by lia. }
  assert (HE1 : (2 ^ (lp - lq + 1) == 2 * 2 ^ (lp - lq))%Q).
  { rewrite pow2_add. change (2 ^ 1)%Q with 2%Q. ring. }
  assert (HE2 : (2 * 2 ^ (lp - lq - 1) == 2 ^ (lp - lq))%Q).
  { replace (lp - lq) with ((lp - lq - 1) + 1) at 2 by lia.
    rewrite pow2_add. change (2 ^ 1)%Q with 2%Q. ring. }
  pose proof (pow2_pos (lp - lq)) as HEpos.
  pose proof (pow2_pos lq) as HT2pos.
  pose proof (Qabs_nonneg x) as HX0.
  set (X := Qabs x) in *. set (E := (2 ^ (lp - lq))%Q) in *.
  set (T1 := (2 ^ lp)%Q) in *. set (T2 := (2 ^ lq)%Q) in *.
  set (Qq := inject_Z q) in *. set (P := inject_Z p) in *.
  assert (Hup : (X < 2 * E)%Q).
  { destruct (Qlt_le_dec X (2 * E)) as [|Hge]; [done|]. exfalso.
    assert ((2 * E) * T2 <= X * Qq)%Q.
    { apply Qle_trans with (X * T2)%Q.
      - apply Qmult_le_compat_r; lra.
      - apply Qmult_le_l; lra. }
    lra. }
  assert (Hlow : (E < 2 * X)%Q).
  { destruct (Qlt_le_dec E (2 * X)) as [|Hge]; [done|]. exfalso.
    assert (X * Qq <= (E * (1 # 2)) * Qq)%Q.
    { apply Qmult_le_compat_r; lra. }
    assert (E * ((1 # 2) * Qq) < E * T2)%Q by (apply Qmult_lt_l; lra).
    assert (E * (1 # 2) * Qq == E * ((1 # 2) * Qq))%Q by ring.
    lra. }
  destruct (Qleb E X) eqn:Htest.
  - apply Qleb_le in Htest. split; [done|]. fold E. lra.
  - assert (Hlt : (X < E)%Q).
    { destruct (Qlt_le_dec X E) as [|Hge]; [done|].
      apply Qleb_le in Hge. congruence. }
    replace (lp - lq - 1 + 1) with (lp - lq) by lia. fold E.
    split; [|done]. lra.
Qed.

Lemma double_eq (x : Q) :
  ~ (x == 0)%Q ->
  (double x == inject_Z (round_half_even (x / 2 ^ (binade x - 52))) * 2 ^ (binade x - 52))%Q.
Proof.
  intros Hx. unfold double. apply Qzerob_false in Hx. rewrite Hx. apply Qred_correct.
Qed.

Lemma double_zero (x : Q) : (x == 0)%Q -> double x = 0%Q.
Proof. intros Hx. unfold double. apply Qzerob_true in Hx. by rewrite Hx. Qed.

Lemma double_ge_multiple (x : Q) (A : Z) :
  ~ (x == 0)%Q ->
  (inject_Z A * 2 ^ (binade x - 52) <= x)%Q ->
  (inject_Z A * 2 ^ (binade x - 52) <= double x)%Q.
Proof.
  intros Hx HA. rewrite (double_eq x Hx).
  pose proof (pow2_pos (binade x - 52)) as Hu.
  apply Qmult_le_compat_r; [|lra].
  rewrite <- Zle_Qle. rewrite <- (round_half_even_Z A) at 1.
  apply round_half_even_mono. by apply Qle_shift_div_l.
Qed.

Lemma double_le_multiple (x : Q) (A : Z) :
  ~ (x == 0)%Q ->
  (x <= inject_Z A * 2 ^ (binade x - 52))%Q ->
  (double x <= inject_Z A * 2 ^ (binade x - 52))%Q.
Proof.
  intros Hx HA. rewrite (double_eq x Hx).
  pose proof (pow2_pos (binade x - 52)) as Hu.
  apply Qmult_le_compat_r; [|lra].
  rewrite <- Zle_Qle. rewrite <- (round_half_even_Z A) at 1.
  apply round_half_even_mono. by apply Qle_shift_div_r.
Qed.

(** What [double] leaves of [a] and [x] when [a] lies in a finer binade. *)
Lemma representable_cases (a x : Q) :
  representable a -> ~ (x == 0)%Q ->
  (exists A : Z, a == inject_Z A * 2 ^ (binade x - 52))%Q
  \/ (- (inject_Z (2 ^ 52) * 2 ^ (binade x - 52)) <= a
      /\ a <= inject_Z (2 ^ 52) * 2 ^ (binade x - 52))%Q.
Proof.
  intros (m & j & Hm & Ha) Hx.
  set (ue := binade x - 52).
  destruct (Z_le_gt_dec ue j) as [Hj|Hj].
  - left. exists (m * 2 ^ (j - ue)).
    rewrite Ha, inject_Z_mult, <- (pow2_Z (j - ue)) by lia.
    rewrite <- Qmult_assoc, <- pow2_add.
    by replace (j - ue + ue) with j by lia.
  - right.
    pose proof (pow2_pos j) as HJ.
    pose proof (pow2_le j (ue - 1) ltac:(lia)) as HJle.
    assert (Hu : (2 ^ ue == 2 * 2 ^ (ue - 1))%Q).
    { replace ue with ((ue - 1) + 1) at 1 by lia.
      rewrite pow2_add. change (2 ^ 1)%Q with 2%Q. ring. }
    assert (HM : (- inject_Z (2 ^ 53) <= inject_Z m)%Q /\ (inject_Z m <= inject_Z (2 ^ 53))%Q).
    { rewrite <- inject_Z_opp, <- !Zle_Qle. lia. }
    assert (H53 : (inject_Z (2 ^ 53) == 2 * inject_Z (2 ^ 52))%Q) by reflexivity.
    set (M := inject_Z m) in *. set (J := (2 ^ j)%Q) in *.
    set (U := (2 ^ ue)%Q) in *. set (U2 := (2 ^ (ue - 1))%Q) in *.
    set (C := inject_Z (2 ^ 52)) in *. set (C' := inject_Z (2 ^ 53)) in *.
    assert (HC : (0 < C)%Q) by (unfold C; rewrite <- (Zlt_Qlt 0); lia).
    assert (H1 : (M * J <= C' * J)%Q) by (apply Qmult_le_compat_r; lra).
    assert (H2 : (- C' * J <= M * J)%Q) by (apply Qmult_le_compat_r; lra).
    assert (H3 : (C' * J <= C' * U2)%Q) by (apply Qmult_le_l; lra).
    assert (H4 : (C' * U2 == C * U)%Q) by (rewrite H53, Hu; ring).
    assert (H5 : (- C' * J == - (C' * J))%Q) by ring.
    rewrite Ha. split; lra.
Qed.

Lemma binade_scaled (x : Q) :
  ~ (x == 0)%Q ->
  (0 < x -> inject_Z (2 ^ 52) * 2 ^ (binade x - 52) <= x)%Q
  /\ (x < 0 -> x <= - (inject_Z (2 ^ 52) * 2 ^ (binade x - 52)))%Q.
Proof.
  intros Hx. destruct (binade_spec x Hx) as [Hlo _].
  assert (He : (2 ^ binade x == inject_Z (2 ^ 52) * 2 ^ (binade x - 52))%Q).
  { rewrite <- (pow2_Z 52) by lia. rewrite <- pow2_add.
    by replace (52 + (binade x - 52)) with (binade x) by lia. }
  rewrite He in Hlo. split; intros Hs.
  - rewrite Qabs_pos in Hlo by lra. exact Hlo.
  - rewrite Qabs_neg in Hlo by lra. lra.
Qed.

(** Rounding does not cross a double: a double at or below [x] is at or
    below the double of [x]. *)
Lemma double_lower (a x : Q) :
  representable a -> (a <= x)%Q -> (a <= double x)%Q.
Proof.
  intros Ha Hax. destruct (Qeq_dec x 0) as [Hx|Hx].
  { rewrite (double_zero x Hx). lra. }
  destruct (binade_scaled x Hx) as [Hpos Hneg].
  destruct (representable_cases a x Ha Hx) as [[A HA]|[Hlo Hhi]].
  - rewrite HA in *. by apply double_ge_multiple.
  - destruct (Qlt_le_dec 0 x) as [Hs|Hs].
    + specialize (Hpos Hs).
      pose proof (double_ge_multiple x (2 ^ 52) Hx Hpos). lra.
    + assert (Hs' : (x < 0)%Q) by (destruct (Qlt_le_dec x 0); [done|exfalso; apply Hx; lra]).
      specialize (Hneg Hs').
      assert (Hopp : (inject_Z (- 2 ^ 52) * 2 ^ (binade x - 52)
                      == - (inject_Z (2 ^ 52) * 2 ^ (binade x - 52)))%Q).
      { rewrite inject_Z_opp. ring. }
      pose proof (double_ge_multiple x (- 2 ^ 52) Hx) as Hd.
      rewrite Hopp in Hd. specialize (Hd ltac:(lra)). lra.
Qed.

Lemma double_upper (b x : Q) :
  representable b -> (x <= b)%Q -> (double x <= b)%Q.
Proof.
  intros Hb Hxb. destruct (Qeq_dec x 0) as [Hx|Hx].
  { rewrite (double_zero x Hx). lra. }
  destruct (binade_scaled x Hx) as [Hpos Hneg].
  destruct (representable_cases b x Hb Hx) as [[B HB]|[Hlo Hhi]].
  - rewrite HB in *. by apply double_le_multiple.
  - destruct (Qlt_le_dec 0 x) as [Hs|Hs].
    + specialize (Hpos Hs).
      pose proof (double_le_multiple x (2 ^ 52) Hx ltac:(lra)). lra.
    + assert (Hs' : (x < 0)%Q) by (destruct (Qlt_le_dec x 0); [done|exfalso; apply Hx; lra]).
      specialize (Hneg Hs').
      assert (Hopp : (inject_Z (- 2 ^ 52) * 2 ^ (binade x - 52)
                      == - (inject_Z (2 ^ 52) * 2 ^ (binade x - 52)))%Q).
      { rewrite inject_Z_opp. ring. }
      pose proof (double_le_multiple x (- 2 ^ 52) Hx) as Hd.
      rewrite Hopp in Hd. specialize (Hd Hneg). lra.
Qed.

Lemma double_canonical (x : Q) : Qred (double x) = double x.
Proof.
  unfold double. destruct (Qzerob x); [reflexivity|]. apply Qred_complete, Qred_correct.
Qed.

(** A double is left as it is; an integer keeps the form [z # 1]. *)
Lemma double_exact (x : Q) : representable x -> (double x == x)%Q.
Proof.
  intros Hx. apply Qle_antisym.
  - apply double_upper; [done|lra].
  - apply double_lower; [done|lra].
Qed.

Lemma double_integer (x : Q) (z : Z) :
  Z.abs z <= 2 ^ 53 -> (x == inject_Z z)%Q -> double x = inject_Z z.
Proof.
  intros Hz Hx.
  assert (Hr : representable x).
  { exists z, 0. split; [done|]. rewrite Hx. change (2 ^ 0)%Q with 1%Q. ring. }
  rewrite <- double_canonical, <- Qred_inject_Z.
  apply Qred_complete. rewrite (double_exact x Hr). exact Hx.
Qed.

Lemma pow2_cancel (n : Z) : 0 <= n -> (inject_Z (2 ^ n) * 2 ^ (- n) == 1)%Q.
Proof.
  intros Hn. rewrite <- (pow2_Z n Hn), <- pow2_add.
  by replace (n + - n) with 0 by lia.
Qed.

Lemma representable_plus_pow (k n : Z) :
  0 <= n -> Z.abs (k * 2 ^ n + 1) <= 2 ^ 53 ->
  representable (inject_Z k + 2 ^ (- n)).
Proof.
  intros Hn Hk. exists (k * 2 ^ n + 1), (- n). split; [done|].
  rewrite inject_Z_plus, inject_Z_mult. pose proof (pow2_cancel n Hn) as Hc.
  set (P := inject_Z (2 ^ n)) in *. set (I := (2 ^ (- n))%Q) in *.
  change (inject_Z 1) with 1%Q.
  assert (H : ((inject_Z k * P + 1) * I == inject_Z k * (P * I) + I)%Q) by ring.
  rewrite H, Hc. ring.
Qed.

Lemma representable_minus_pow (k n : Z) :
  0 <= n -> Z.abs (k * 2 ^ n - 1) <= 2 ^ 53 ->
  representable (inject_Z k - 2 ^ (- n)).
Proof.
  intros Hn Hk. exists (k * 2 ^ n - 1), (- n). split; [done|].
  unfold Z.sub. rewrite inject_Z_plus, inject_Z_mult.
  change (inject_Z (- (1))) with (- (1))%Q.
  pose proof (pow2_cancel n Hn) as Hc.
  set (P := inject_Z (2 ^ n)) in *. set (I := (2 ^ (- n))%Q) in *.
  assert (H : ((inject_Z k * P + - (1)) * I == inject_Z k * (P * I) - I)%Q) by ring.
  rewrite H, Hc. ring.
Qed.

Lemma representable_Z (z : Z) : Z.abs z <= 2 ^ 53 -> representable (inject_Z z).
Proof.
  intros Hz. exists z, 0. split; [done|]. change (2 ^ 0)%Q with 1%Q. ring.
Qed.

Lemma baseRange_double_integers (d : Z) (n : nat) :
  forall z : Z,
    (forall i : nat, (i < n)%nat -> Z.abs (z - Z.of_nat i * d) <= 2 ^ 53) ->
    baseRange_double (inject_Z z) (- inject_Z d) n = inject_Z <$> baseRange z (- d) n.
Proof.
  induction n as [|n IH]; intros z Hz; [reflexivity|].
  cbn [baseRange_double baseRange fmap list_fmap]. f_equal.
  destruct n as [|n]; [reflexivity|].
  rewrite (double_integer _ (z + - d)).
  - apply IH. intros i Hi. specialize (Hz (S i) ltac:(lia)). lia.
  - specialize (Hz 1%nat ltac:(lia)). lia.
  - rewrite inject_Z_plus, inject_Z_opp. reflexivity.
Qed.

Section Exact.

Variables s e d : Z.
Hypothesis step_pos : 0 < d.
Hypothesis start_le_end : s <= e.
Hypothesis in_range : window_in_range (mkWindow s e d).

Lemma margin_bounds :
  ((1 # 1048576) <= double (1 # 1000000))%Q
  /\ (double (1 # 1000000) <= (1 # 524288))%Q.
Proof. split; apply Qle_bool_imp_le; vm_compute; reflexivity. Qed.

Lemma end_in_doubles :
  (inject_Z s - (1 # 524288) <= double (inject_Z s - double (1 # 1000000)))%Q
  /\ (double (inject_Z s - double (1 # 1000000)) <= inject_Z s - (1 # 1048576))%Q.
Proof.
  destruct in_range as (Hs & _). cbn [startTimeSec mkWindow] in Hs.
  destruct margin_bounds as [Hlo Hhi]. split.
  - apply double_lower; [|lra].
    apply (representable_minus_pow s 19); [lia|].
    change (2 ^ 19) with 524288. change (2 ^ 33) with 8589934592 in Hs.
    change (2 ^ 53) with 9007199254740992. lia.
  - apply double_upper; [|lra].
    apply (representable_minus_pow s 20); [lia|].
    change (2 ^ 20) with 1048576. change (2 ^ 33) with 8589934592 in Hs.
    change (2 ^ 53) with 9007199254740992. lia.
Qed.

Lemma span_in_doubles :
  let t := double (double (inject_Z s - double (1 # 1000000)) - inject_Z e) in
  (inject_Z (s - e) - (1 # 524288) <= t)%Q
  /\ (t <= inject_Z (s - e) - (1 # 1048576))%Q.
Proof.
  destruct in_range as (_ & _ & _ & Hspan). cbn [startTimeSec endTimeSec mkWindow] in Hspan.
  assert (Hspan' : e - s < 2 ^ 32) by (eapply Z.lt_trans; [exact Hspan|done]).
  clear Hspan. rename Hspan' into Hspan.
  destruct end_in_doubles as [Hlo Hhi].
  assert (Hse : (inject_Z (s - e) == inject_Z s - inject_Z e)%Q).
  { unfold Z.sub. rewrite inject_Z_plus, inject_Z_opp. ring. }
  cbv zeta. split.
  - apply double_lower; [|lra].
    apply (representable_minus_pow (s - e) 19); [lia|].
    change (2 ^ 19) with 524288. change (2 ^ 32) with 4294967296 in Hspan.
    change (2 ^ 53) with 9007199254740992. lia.
  - apply double_upper; [|lra].
    apply (representable_minus_pow (s - e) 20); [lia|].
    change (2 ^ 20) with 1048576. change (2 ^ 32) with 4294967296 in Hspan.
    change (2 ^ 53) with 9007199254740992. lia.
Qed.


(** The quotient, rounded twice, still lies strictly above
    [(e - s) / d] and not above the next integer. *)
Lemma quotient_in_doubles :
  let t := double (double (inject_Z s - double (1 # 1000000)) - inject_Z e) in
  (inject_Z ((e - s) / d) < double (t / - inject_Z d))%Q
  /\ (double (t / - inject_Z d) <= inject_Z ((e - s) / d + 1))%Q.
Proof.
  destruct in_range as (Hs & He & Hd & Hspan).
  cbn [startTimeSec endTimeSec stepDurationSec mkWindow] in Hs, He, Hd, Hspan.
  assert (Hspan' : e - s < 2 ^ 32) by (eapply Z.lt_trans; [exact Hspan|done]).
  clear Hspan. rename Hspan' into Hspan.
  destruct span_in_doubles as [Hlo Hhi]. cbv zeta in *.
  set (t := double (double (inject_Z s - double (1 # 1000000)) - inject_Z e)) in *.
  set (k := (e - s) / d).
  assert (Hk : 0 <= k /\ k * d <= e - s < (k + 1) * d).
  { pose proof (Z.div_pos (e - s) d ltac:(lia) step_pos).
    pose proof (Z.mul_div_le (e - s) d step_pos).
    pose proof (Z.mul_succ_div_gt (e - s) d step_pos). unfold k. lia. }
  assert (Hdq : (0 < inject_Z d)%Q) by (rewrite <- (Zlt_Qlt 0); exact step_pos).
  assert (Hquot : (t / - inject_Z d == (- t) / inject_Z d)%Q).
  { field. intros H0. rewrite H0 in Hdq. by apply Qlt_irrefl in Hdq. }
  assert (Hse : (inject_Z (s - e) == - inject_Z (e - s))%Q).
  { rewrite <- inject_Z_opp. by replace (- (e - s)) with (s - e) by lia. }
  set (D := Z.log2_up d).
  assert (HD : 0 <= D /\ d <= 2 ^ D).
  { split; [apply Z.log2_up_nonneg|].
    exact (proj2 (Z.log2_log2_up_spec d step_pos)). }
  assert (Hm : k * 2 ^ (20 + D) + 1 <= 2 ^ 53).
  { destruct (Z.eq_dec d 1) as [Hd1|Hd1].
    - unfold D. rewrite Hd1. change (Z.log2_up 1) with 0.
      change (2 ^ (20 + 0)) with 1048576. change (2 ^ 53) with 9007199254740992.
      change (2 ^ 32) with 4294967296 in Hspan. nia.
    - pose proof (Z.log2_up_spec d ltac:(lia)) as [Hlt _]. fold D in Hlt.
      assert (HD1 : 1 <= D).
      { destruct (Z.eq_dec D 0) as [H0|]; [|lia]. rewrite H0 in Hlt.
        change (2 ^ Z.pred 0) with 0 in Hlt. destruct HD as [_ HD].
        rewrite H0 in HD. change (2 ^ 0) with 1 in HD. lia. }
      replace (20 + D) with (21 + Z.pred D) by lia.
      rewrite Z.pow_add_r by lia.
      assert (HP : 0 < 2 ^ Z.pred D) by (apply Z.pow_pos_nonneg; lia).
      set (P := 2 ^ Z.pred D) in *.
      assert (HkP : k * P < 2 ^ 32) by nia.
      change (2 ^ 21) with 2097152. change (2 ^ 53) with 9007199254740992.
      change (2 ^ 32) with 4294967296 in HkP. lia. }
  split.
  - apply Qlt_le_trans with (inject_Z k + 2 ^ (- (20 + D)))%Q.
    + pose proof (pow2_pos (- (20 + D))). lra.
    + apply double_lower.
      * apply representable_plus_pow; [lia|].
        assert (0 <= k * 2 ^ (20 + D)); [|lia].
        apply Z.mul_nonneg_nonneg; [lia|]. apply Z.pow_nonneg. lia.
      * rewrite Hquot. apply Qle_shift_div_l; [exact Hdq|].
        assert (Hfrac : (2 ^ (- (20 + D)) * inject_Z d <= (1 # 1048576))%Q).
        { apply Qle_trans with (2 ^ (- (20 + D)) * inject_Z (2 ^ D))%Q.
          - apply Qmult_le_l; [apply pow2_pos|]. rewrite <- Zle_Qle. lia.
          - rewrite <- (pow2_Z D) by lia. rewrite <- pow2_add.
            replace (- (20 + D) + D) with (- 20) by lia. done. }
        assert (Hkd : (inject_Z k * inject_Z d <= inject_Z (e - s))%Q).
        { rewrite <- inject_Z_mult, <- Zle_Qle. lia. }
        assert (Hdist : ((inject_Z k + 2 ^ (- (20 + D))) * inject_Z d
                         == inject_Z k * inject_Z d + 2 ^ (- (20 + D)) * inject_Z d)%Q)
          by ring.
        rewrite Hdist. lra.
  - apply double_upper.
    + apply representable_Z. change (2 ^ 32) with 4294967296 in Hspan.
      change (2 ^ 53) with 9007199254740992. nia.
    + rewrite Hquot. apply Qle_shift_div_r; [exact Hdq|].
      rewrite <- inject_Z_mult.
      assert (Hup : (inject_Z (e - s) + 1 <= inject_Z ((k + 1) * d))%Q).
      { change 1%Q with (inject_Z 1). rewrite <- inject_Z_plus, <- Zle_Qle. lia. }
      lra.
Qed.

Lemma range_length_in_doubles :
  range_length_double (inject_Z e) (double (inject_Z s - double (1 # 1000000)))
                      (- inject_Z d)
  = Z.to_nat ((e - s) / d + 1).
Proof.
  unfold range_length_double.
  assert (Hz : Qzerob (- inject_Z d) = false).
  { apply Qzerob_false. intros H0.
    assert (Hdq : (0 < inject_Z d)%Q) by (rewrite <- (Zlt_Qlt 0); exact step_pos).
    lra. }
  rewrite Hz. destruct quotient_in_doubles as [Hlo Hhi]. cbv zeta in *.
  rewrite (Qceiling_unique _ ((e - s) / d + 1)).
  - pose proof (Z.div_pos (e - s) d ltac:(lia) step_pos). lia.
  - by replace ((e - s) / d + 1 - 1) with ((e - s) / d) by lia.
  - exact Hhi.
Qed.

(** Within the range, the doubles compute the grid of exact
    arithmetic. *)
Lemma timestampSecs_double_exact :
  timestampSecs_double (inject_Z s) (inject_Z e) (inject_Z d)
  = inject_Z <$> range e (inject_Z s - (1 # 1000000))%Q (- d).
Proof.
  unfold timestampSecs_double, range_double, range.
  rewrite range_length_in_doubles, (grid_length s e d step_pos).
  apply baseRange_double_integers. intros i Hi.
  destruct in_range as (Hs & He & Hd & Hspan).
  cbn [startTimeSec endTimeSec stepDurationSec mkWindow] in Hs, He, Hd, Hspan.
  pose proof (Z.div_pos (e - s) d ltac:(lia) step_pos).
  pose proof (Z.mul_div_le (e - s) d step_pos).
  assert (Z.of_nat i * d <= (e - s) / d * d) by (apply Z.mul_le_mono_nonneg_r; lia).
  change (2 ^ 33) with 8589934592 in *. change (2 ^ 53) with 9007199254740992. lia.
Qed.

End Exact.

(** The double of [x] is [N * 2^(e - 52)] with [|N| <= 2^53]. *)
Lemma double_representable (x : Q) : representable (double x).
Proof.
  destruct (Qeq_dec x 0) as [Hx|Hx].
  { rewrite (double_zero x Hx). apply (representable_Z 0). done. }
  exists (round_half_even (x / 2 ^ (binade x - 52))), (binade x - 52).
  split; [|by apply double_eq].
  destruct (binade_spec x Hx) as [_ Hhi].
  pose proof (pow2_pos (binade x - 52)) as Hu.
  assert (He : (2 ^ (binade x + 1) == inject_Z (2 ^ 53) * 2 ^ (binade x - 52))%Q).
  { rewrite <- (pow2_Z 53) by lia. rewrite <- pow2_add.
    by replace (53 + (binade x - 52)) with (binade x + 1) by lia. }
  rewrite He in Hhi. apply Qabs_Qlt_condition in Hhi as [Hlo Hhi].
  assert (H1 : round_half_even (x / 2 ^ (binade x - 52)) <= 2 ^ 53).
  { rewrite <- (round_half_even_Z (2 ^ 53)). apply round_half_even_mono.
    apply Qle_shift_div_r; [exact Hu|lra]. }
  assert (H2 : - 2 ^ 53 <= round_half_even (x / 2 ^ (binade x - 52))).
  { rewrite <- (round_half_even_Z (- 2 ^ 53)). apply round_half_even_mono.
    apply Qle_shift_div_l; [exact Hu|]. rewrite inject_Z_opp.
    assert (Hopp : (- inject_Z (2 ^ 53) * 2 ^ (binade x - 52)
                    == - (inject_Z (2 ^ 53) * 2 ^ (binade x - 52)))%Q) by ring.
    rewrite Hopp. lra. }
  lia.
Qed.

Lemma round_half_even_error (x : Q) :
  (- (1 # 2) <= inject_Z (round_half_even x) - x)%Q
  /\ (inject_Z (round_half_even x) - x <= 1 # 2)%Q.
Proof.
  pose proof (Qfloor_le x) as Hlo. pose proof (Qlt_floor x) as Hhi.
  rewrite inject_Z_plus in Hhi. change (inject_Z 1) with 1%Q in Hhi.
  unfold round_half_even.
  destruct (Qltb (x - inject_Z (Qfloor x)) (1 # 2)) eqn:H1.
  { apply Qltb_lt in H1. split; lra. }
  apply Qltb_ge in H1.
  destruct (Qltb (1 # 2) (x - inject_Z (Qfloor x))) eqn:H2.
  { rewrite inject_Z_plus. change (inject_Z 1) with 1%Q. split; lra. }
  apply Qltb_ge in H2.
  destruct (Z.even (Qfloor x)); [split; lra|].
  rewrite inject_Z_plus. change (inject_Z 1) with 1%Q. split; lra.
Qed.

(** Rounding moves a number by at most [2^-53] of its magnitude. *)
Lemma double_error (x : Q) :
  (x - Qabs x * (1 # 9007199254740992) <= double x)%Q
  /\ (double x <= x + Qabs x * (1 # 9007199254740992))%Q.
Proof.
  destruct (Qeq_dec x 0) as [Hx|Hx].
  { rewrite (double_zero x Hx). pose proof (Qabs_nonneg x) as Habs.
    assert (H0 : (0 <= Qabs x * (1 # 9007199254740992))%Q)
      by (apply Qmult_le_0_compat; [exact Habs|done]).
    split; lra. }
  rewrite (double_eq x Hx).
  destruct (binade_spec x Hx) as [Hlo _].
  pose proof (pow2_pos (binade x - 52)) as Hu.
  assert (He : (2 ^ binade x == inject_Z (2 ^ 52) * 2 ^ (binade x - 52))%Q).
  { rewrite <- (pow2_Z 52) by lia. rewrite <- pow2_add.
    by replace (52 + (binade x - 52)) with (binade x) by lia. }
  rewrite He in Hlo.
  destruct (round_half_even_error (x / 2 ^ (binade x - 52))) as [Ha Hb].
  set (u := (2 ^ (binade x - 52))%Q) in *.
  set (N := inject_Z (round_half_even (x / u))) in *.
  assert (Hx' : (x == x / u * u)%Q).
  { field. intros H0. rewrite H0 in Hu. by apply Qlt_irrefl in Hu. }
  set (z := (x / u)%Q) in *.
  assert (H1 : ((N - z) * u <= (1 # 2) * u)%Q) by (apply Qmult_le_compat_r; lra).
  assert (H2 : (- (1 # 2) * u <= (N - z) * u)%Q) by (apply Qmult_le_compat_r; lra).
  assert (H3 : ((N - z) * u == N * u - z * u)%Q) by ring.
  assert (H4 : ((1 # 2) * u <= Qabs x * (1 # 9007199254740992))%Q).
  { assert (H5 : (inject_Z (2 ^ 52) * u * (1 # 9007199254740992) == (1 # 2) * u)%Q).
    { assert (H6 : (inject_Z (2 ^ 52) * (1 # 9007199254740992) == 1 # 2)%Q) by reflexivity.
      assert (H7 : (inject_Z (2 ^ 52) * u * (1 # 9007199254740992)
                    == inject_Z (2 ^ 52) * (1 # 9007199254740992) * u)%Q) by ring.
      rewrite H7, H6. reflexivity. }
    rewrite <- H5. apply Qmult_le_compat_r; [exact Hlo|done]. }
  assert (H8 : (- (1 # 2) * u == - ((1 # 2) * u))%Q) by ring.
  split; lra.
Qed.

Lemma Qceiling_pos (x : Q) : (0 < x)%Q -> 1 <= Qceiling x.
Proof.
  intros Hx. pose proof (Qle_ceiling x) as Hc.
  assert (H : (0 < inject_Z (Qceiling x))%Q) by lra.
  rewrite <- (Zlt_Qlt 0) in H. lia.
Qed.

(** The descent in doubles never rises above the point it starts from. *)
Lemma baseRange_double_descends (d : Q) (n : nat) :
  (0 < d)%Q ->
  forall x : Q, representable x ->
    Forall (fun t => (t <= x)%Q) (baseRange_double (double (x + - d)) (- d) n).
Proof.
  intros Hd. induction n as [|n IH]; intros x Hx; [constructor|].
  cbn [baseRange_double].
  assert (Hstep : (double (x + - d) <= x)%Q) by (apply double_upper; [done|lra]).
  constructor; [exact Hstep|].
  eapply Forall_impl; [apply IH, double_representable|].
  cbn. intros t Ht. lra.
Qed.

Lemma binary64_representable (a : Q) : binary64 a -> representable a.
Proof. intros (m & j & Hm & _ & Ha). exists m, j. split; [lia|exact Ha]. Qed.

(** On a window of doubles below [2^33] in magnitude whose step lies
    between [2^-20] and [2^33], the descent starts: [endTimeSec] is its
    first point, and no point is larger. *)
Lemma timestampSecs_double_starts_at_end (s e d : Q) :
  representable s -> representable e -> representable d ->
  (Qabs s < inject_Z (2 ^ 33))%Q -> (Qabs e < inject_Z (2 ^ 33))%Q ->
  ((1 # 1048576) <= d)%Q -> (d < inject_Z (2 ^ 33))%Q ->
  (s <= e)%Q ->
  exists rest : list Q,
    timestampSecs_double s e d = e :: rest
    /\ Forall (fun t => (t <= e)%Q) rest.
Proof.
  intros _ He _ Hs _ Hdlo Hdhi Hse.
  assert (Hd : (0 < d)%Q) by lra.
  assert (Hc : ((1 # 1048576) + (1 # 536870912) <= double (1 # 1000000))%Q).
  { apply Qle_bool_imp_le. vm_compute. reflexivity. }
  destruct margin_bounds as [_ Hchi].
  set (c := double (1 # 1000000)) in *.
  apply Qabs_Qlt_condition in Hs as [Hslo Hshi].
  assert (H33 : (inject_Z (2 ^ 33) * (1 # 9007199254740992) == 1 # 1048576)%Q) by reflexivity.
  (* the end of the range lies below the start of the window *)
  assert (Hend : (double (s - c) <= s - (1 # 1073741824))%Q).
  { destruct (double_error (s - c)) as [_ Hup].
    assert (Habs : (Qabs (s - c) <= inject_Z (2 ^ 33) + (1 # 524288))%Q).
    { apply Qabs_Qle_condition. split; lra. }
    assert (Hm : (Qabs (s - c) * (1 # 9007199254740992)
                  <= (inject_Z (2 ^ 33) + (1 # 524288)) * (1 # 9007199254740992))%Q)
      by (apply Qmult_le_compat_r; [exact Habs|done]).
    assert (Hv : ((inject_Z (2 ^ 33) + (1 # 524288)) * (1 # 9007199254740992)
                  <= (1 # 1048576) + (1 # 1073741824))%Q).
    { apply Qle_bool_imp_le. vm_compute. reflexivity. }
    assert (Hpow : ((1 # 536870912) == (1 # 1073741824) + (1 # 1073741824))%Q) by reflexivity.
    lra. }
  set (s' := double (s - c)) in *.
  assert (Ht : (double (s' - e) <= - (1 # 1073741824))%Q).
  { apply double_upper; [|lra].
    exists (-1), (-30). split; [done|]. reflexivity. }
  set (t := double (s' - e)) in *.
  assert (Hy : ((1 # 9223372036854775808) <= double (t / - d))%Q).
  { apply double_lower.
    - exists 1, (-63). split; [done|]. reflexivity.
    - assert (Hq : (t / - d == (- t) / d)%Q).
      { field. intros H0. rewrite H0 in Hd. by apply Qlt_irrefl in Hd. }
      rewrite Hq. apply Qle_shift_div_l; [exact Hd|].
      apply Qle_trans with ((1 # 9223372036854775808) * inject_Z (2 ^ 33))%Q.
      + apply Qmult_le_l; [done|lra].
      + assert (Hv : ((1 # 9223372036854775808) * inject_Z (2 ^ 33) == 1 # 1073741824)%Q) by reflexivity.
        rewrite Hv. lra. }
  unfold timestampSecs_double, range_double, range_length_double.
  fold c. fold s'. fold t.
  assert (Hz : Qzerob (- d) = false).
  { apply Qzerob_false. intros H0. lra. }
  rewrite Hz.
  assert (Hceil : 1 <= Qceiling (double (t / - d))).
  { apply Qceiling_pos. eapply Qlt_le_trans; [|exact Hy]. done. }
  destruct (Z.to_nat (Z.max (Qceiling (double (t / - d))) 0)) as [|n] eqn:Hn; [lia|].
  cbn [baseRange_double]. eexists. split; [reflexivity|].
  by apply baseRange_double_descends.
Qed.

(** Beyond the range the margin [1e-6] is lost in the rounding: the
    start of the window drops out of the grid although the step divides
    the span, and a window that starts where it ends has no grid
    point at all. *)
Example grid_in_doubles_loses_start :
  timestampSecs_double 1500000000000 1500000000200 100
  = [1500000000200%Q; 1500000000100%Q].
Proof. vm_compute. reflexivity. Qed.

(** On a window that is not of whole seconds the descent rounds at
    every step: from 0.3 in steps of 0.1 it ends below the start 0. *)
Example grid_in_doubles_below_start :
  last (timestampSecs_double 0 (double (3 # 10)) (double (1 # 10)))
  = Some (-1 # 36028797018963968)%Q.
Proof. vm_compute. reflexivity. Qed.

Example grid_in_doubles_lost :
  timestampSecs_double 17179869185 17179869185 1 = [].
Proof. vm_compute. reflexivity. Qed.

(** C2, as the claim states it, fails.  For the window from 0 to 5 in
    steps of 3 the grid is [2; 5]: its first timestamp lies above
    [startTimeSec]. *)
Lemma grid_first_above_start :
  ~ (forall w : Window,
        0 < stepDurationSec w -> startTimeSec w <= endTimeSec w ->
        last (getTimestampSecs w) = Some (endTimeSec w)
        /\ exists f, head (getTimestampSecs w) = Some f
                     /\ f <= startTimeSec w
                     /\ startTimeSec w - stepDurationSec w < f).
Proof.
  intros H.
  destruct (H (mkWindow 0 5 3)) as (_ & f & Hf & Hle & _); [done..|].
  assert (Hgrid : getTimestampSecs (mkWindow 0 5 3) = [2; 5])
    by (vm_compute; reflexivity).
  rewrite Hgrid in Hf. simpl in Hf, Hle. injection Hf as <-. lia.
Qed.


(** C2, amended.  On a window of doubles below [2^33] in magnitude
    that does not end before it starts, with a step from [2^-20] up to
    [2^33] that fits less than [2^31] times in the span, [endTimeSec]
    itself is a grid timestamp and the largest one.  On a window of whole seconds on which the doubles are exact
    ([window_in_range]), with [startTimeSec <= endTimeSec] and a step
    [> 0], the timestamps computed in doubles are those of exact
    arithmetic, and the smallest grid timestamp [m] is where the
    descent from [endTimeSec] stops above [startTimeSec - 1e-6], so
    [startTimeSec <= m < startTimeSec + stepDurationSec], and
    [m = startTimeSec] exactly when the step divides the span. *)
Theorem grid_extremes :
  (forall s e d : Q,
      binary64 s -> binary64 e -> binary64 d ->
      (Qabs s < inject_Z (2 ^ 33))%Q -> (Qabs e < inject_Z (2 ^ 33))%Q ->
      ((1 # 1048576) <= d)%Q -> (d < inject_Z (2 ^ 33))%Q ->
      (s <= e)%Q -> (e - s < inject_Z (2 ^ 31) * d)%Q ->
      exists rest : list Q,
        timestampSecs_double s e d = e :: rest
        /\ Forall (fun t => (t <= e)%Q) rest)
  /\ (forall w : Window,
        window_in_range w ->
        0 < stepDurationSec w -> startTimeSec w <= endTimeSec w ->
        timestampSecs_double (inject_Z (startTimeSec w)) (inject_Z (endTimeSec w))
                             (inject_Z (stepDurationSec w))
        ≡ₚ inject_Z <$> getTimestampSecs w
        /\ endTimeSec w ∈ getTimestampSecs w
        /\ (forall t, t ∈ getTimestampSecs w -> t <= endTimeSec w)
        /\ exists m,
             m ∈ getTimestampSecs w
             /\ (forall t, t ∈ getTimestampSecs w -> m <= t)
             /\ startTimeSec w <= m < startTimeSec w + stepDurationSec w
             /\ (m = startTimeSec w <->
                 (endTimeSec w - startTimeSec w) mod stepDurationSec w = 0)).
Proof.
  split.
  { intros s e d Hs He Hd Hsb Heb Hdlo Hdhi Hse _.
    apply timestampSecs_double_starts_at_end;
      first [by apply binary64_representable|assumption]. }
  intros w. destruct w as [s e d]. cbn [startTimeSec endTimeSec stepDurationSec].
  intros Hin Hd Hse. change {| startTimeSec := s; endTimeSec := e; stepDurationSec := d |}
    with (mkWindow s e d) in *.
  pose proof (Z.div_pos (e - s) d ltac:(lia) Hd) as Hk.
  pose proof (Z.div_mod (e - s) d ltac:(lia)) as Hdm.
  pose proof (Z.mod_pos_bound (e - s) d Hd) as Hmod.
  split; [|split; [|split]].
  - rewrite (timestampSecs_double_exact s e d Hd Hse Hin).
    apply fmap_Permutation. symmetry. apply merge_sort_Permutation.
  - apply elem_of_grid; [done..|]. exists 0. lia.
  - intros t Ht. apply elem_of_grid in Ht as (i & Hi & ->); [|done..]. nia.
  - exists (e - (e - s) / d * d).
    split; [|split; [|split]].
    + apply elem_of_grid; [done..|]. exists ((e - s) / d). lia.
    + intros t Ht. apply elem_of_grid in Ht as (i & Hi & ->); [|done..]. nia.
    + lia.
    + lia.
Qed.

Lemma grid_extremes_witness :
  (exists rest : list Q,
      timestampSecs_double 0 (3 # 4) (1 # 4) = (3 # 4)%Q :: rest
      /\ Forall (fun t => (t <= 3 # 4)%Q) rest)
  /\ timestampSecs_double (inject_Z 0) (inject_Z 300) (inject_Z 100)
     ≡ₚ inject_Z <$> getTimestampSecs (mkWindow 0 300 100)
  /\ 300 ∈ getTimestampSecs (mkWindow 0 300 100)
  /\ (forall t, t ∈ getTimestampSecs (mkWindow 0 300 100) -> t <= 300)
  /\ exists m,
       m ∈ getTimestampSecs (mkWindow 0 300 100)
       /\ (forall t, t ∈ getTimestampSecs (mkWindow 0 300 100) -> m <= t)
       /\ 0 <= m < 0 + 100
       /\ (m = 0 <-> (300 - 0) mod 100 = 0).
Proof.
  split.
  - apply (proj1 grid_extremes 0 (3 # 4) (1 # 4))%Q.
    + exists 0, 0. split; [lia|split; [lia|reflexivity]].
    + exists 3, (-2). split; [lia|split; [lia|reflexivity]].
    + exists 1, (-2). split; [lia|split; [lia|reflexivity]].
    + Qconst.
    + Qconst.
    + Qconst.
    + Qconst.
    + Qconst.
    + Qconst.
  - apply (proj2 grid_extremes (mkWindow 0 300 100)); [window_bounds|simpl; lia..].
Defined.

(** ** Order on numbers *)

Section NumOrder.

Lemma num_lt_irrefl (x : num) : num_lt x x = false.
Proof. destruct x; simpl; try done. apply Qltb_ge, Qle_refl. Qed.

(** [a <= b <= c] gives [a <= c], read on [<]. *)
Lemma num_not_lt_trans (a b c : num) :
  isNaN b = false -> num_lt b a = false -> num_lt c b = false ->
  num_lt c a = false.
Proof.
  destruct a as [a| | |], b as [b| | |], c as [c| | |]; simpl; try done.
  rewrite !Qltb_ge. intros _ Hab Hbc. by apply Qle_trans with b.
Qed.

(** [c <= a < b] gives [c <= b]. *)
Lemma num_lt_not_lt (a b c : num) :
  num_lt a b = true -> num_lt a c = false -> isNaN c = false ->
  num_lt b c = false.
Proof.
  destruct a as [a| | |], b as [b| | |], c as [c| | |]; simpl; try done.
  rewrite Qltb_lt, !Qltb_ge. intros Hab Hca _.
  apply Qle_trans with a; [done|by apply Qlt_le_weak].
Qed.

Lemma num_lt_not_NaN (a b : num) :
  num_lt a b = true -> isNaN a = false /\ isNaN b = false.
Proof. by destruct a, b. Qed.

Lemma num_ge_not_NaN (a b : num) :
  num_ge a b = true -> isNaN a = false /\ isNaN b = false.
Proof. by destruct a, b. Qed.

End NumOrder.

(** ** [minBy] *)

Section MinBy.

Context {A : Type} (iteratee : A -> option num).

Lemma baseExtremum_spec (array : list A) :
  forall computed, computed_ok iteratee computed ->
  match baseExtremum iteratee computed array with
  | None => computed = None /\ Forall (fun y => ~ counts iteratee y) array
  | Some (c, v) =>
      isNaN c = false /\ iteratee v = Some c
      /\ (computed = Some (c, v) \/ v ∈ array)
      /\ Forall (not_below iteratee c) array
      /\ (forall c0 v0, computed = Some (c0, v0) -> num_lt c0 c = false)
  end.
Proof.
  induction array as [|y array IH]; intros computed Hok; cbn [baseExtremum].
  { destruct computed as [[c v]|]; [|by split].
    destruct Hok as [Hc Hv].
    refine (conj Hc (conj Hv (conj (or_introl eq_refl) (conj (List.Forall_nil _) _)))).
    intros c0 v0 [= <- <-]. apply num_lt_irrefl. }
  destruct (iteratee y) as [current|] eqn:Hy.
  - destruct computed as [[c0 v0]|].
    + destruct Hok as [Hc0 Hv0].
      destruct (num_lt current c0) eqn:Hlt.
      * destruct (num_lt_not_NaN _ _ Hlt) as [Hcur _].
        specialize (IH (Some (current, y)) (conj Hcur Hy)).
        destruct (baseExtremum _ _ array) as [[c v]|]; [|by destruct IH as [? _]].
        destruct IH as (Hc & Hv & Hin & Hall & Hprev).
        specialize (Hprev _ _ eq_refl).
        refine (conj Hc (conj Hv (conj _ (conj _ _)))).
        -- right. destruct Hin as [[= -> ->]|Hin]; [left|right]; done.
        -- constructor; [|done]. intros cy Hcy.
           rewrite Hy in Hcy. by injection Hcy as <-.
        -- intros ? ? [= <- <-]. by eapply num_lt_not_lt.
      * specialize (IH (Some (c0, v0)) (conj Hc0 Hv0)).
        destruct (baseExtremum _ _ array) as [[c v]|]; [|by destruct IH as [? _]].
        destruct IH as (Hc & Hv & Hin & Hall & Hprev).
        specialize (Hprev _ _ eq_refl).
        refine (conj Hc (conj Hv (conj _ (conj _ _)))).
        -- destruct Hin as [Hin|Hin]; [by left|right; by right].
        -- constructor; [|done]. intros cy Hcy.
           rewrite Hy in Hcy. injection Hcy as <-.
           by eapply num_not_lt_trans.
        -- by intros ? ? [= <- <-].
    + destruct (isNaN current) eqn:Hnan.
      * specialize (IH None I).
        destruct (baseExtremum _ _ array) as [[c v]|].
        -- destruct IH as (Hc & Hv & Hin & Hall & Hprev).
           refine (conj Hc (conj Hv (conj _ (conj _ _)))).
           ++ destruct Hin as [Hin|Hin]; [done|right; by right].
           ++ constructor; [|done]. intros cy Hcy.
              rewrite Hy in Hcy. injection Hcy as <-. by destruct current.
           ++ done.
        -- destruct IH as [_ Hall]. split; [done|].
           constructor; [|done]. intros (c & Hc & Hc').
           rewrite Hy in Hc. injection Hc as <-. congruence.
      * specialize (IH (Some (current, y)) (conj Hnan Hy)).
        destruct (baseExtremum _ _ array) as [[c v]|]; [|by destruct IH as [? _]].
        destruct IH as (Hc & Hv & Hin & Hall & Hprev).
        specialize (Hprev _ _ eq_refl).
        refine (conj Hc (conj Hv (conj _ (conj _ _)))).
        -- right. destruct Hin as [[= -> ->]|Hin]; [left|right]; done.
        -- constructor; [|done]. intros cy Hcy.
           rewrite Hy in Hcy. by injection Hcy as <-.
        -- done.
  - specialize (IH computed Hok).
    destruct (baseExtremum _ _ array) as [[c v]|].
    + destruct IH as (Hc & Hv & Hin & Hall & Hprev).
      refine (conj Hc (conj Hv (conj _ (conj _ Hprev)))).
      * destruct Hin as [Hin|Hin]; [by left|right; by right].
      * constructor; [|done]. intros cy Hcy. congruence.
    + destruct IH as [-> Hall]. split; [done|].
      constructor; [|done]. intros (c & Hc & _). congruence.
Qed.

(** [minBy] returns an element that counts and that no element is
    strictly below. *)
Lemma minBy_Some (array : list A) (v : A) :
  minBy iteratee array = Some v ->
  v ∈ array /\ counts iteratee v
  /\ exists c, iteratee v = Some c /\ Forall (not_below iteratee c) array.
Proof.
  unfold minBy. pose proof (baseExtremum_spec array None I) as H.
  destruct (baseExtremum _ _ array) as [[c v']|]; [|done].
  intros [= <-]. destruct H as (Hc & Hv & [Hin|Hin] & Hall & _); [done|].
  split; [done|]. split; [by exists c|]. by exists c.
Qed.

(** [minBy] returns nothing only when no element counts. *)
Lemma minBy_None (array : list A) :
  minBy iteratee array = None -> Forall (fun y => ~ counts iteratee y) array.
Proof.
  unfold minBy. pose proof (baseExtremum_spec array None I) as H.
  destruct (baseExtremum _ _ array) as [[c v']|]; [done|].
  intros _. by destruct H.
Qed.

(** Among elements with one and the same criterion the first wins. *)
Lemma baseExtremum_constant (array : list A) (c : num) (v : A) :
  Forall (fun y => iteratee y = Some c) array ->
  baseExtremum iteratee (Some (c, v)) array = Some (c, v).
Proof.
  induction 1 as [|y array Hy _ IH]; [done|].
  cbn [baseExtremum]. by rewrite Hy, num_lt_irrefl.
Qed.

Lemma minBy_constant (array : list A) (c : num) (v : A) :
  isNaN c = false ->
  Forall (fun y => iteratee y = Some c) (v :: array) ->
  minBy iteratee (v :: array) = Some v.
Proof.
  intros Hc Hall. apply Forall_cons in Hall as [Hv Hall].
  unfold minBy. cbn [baseExtremum]. rewrite Hv, Hc.
  by rewrite baseExtremum_constant.
Qed.

End MinBy.

(** ** Hover resolution *)

Section Hover.

Variables (props : Props) (st : State).

Lemma hover_point_inv (ts : Z) (series : Series) (p : HoverPoint) :
  hover_point props st ts series = Some p ->
  exists d,
    getDatapointAtTimestamp series ts = Some d
    /\ graphValue p = getDatapointGraphValue props st d
    /\ hp_value p = value d
    /\ hp_key p = key series.
Proof.
  unfold hover_point. destruct (getDatapointAtTimestamp series ts) as [d|]; [|done].
  intros [= <-]. by exists d.
Qed.

Lemma hover_points_keys (ts : Z) (visible : list Series) (pts : list HoverPoint) :
  mapM (hover_point props st ts) visible = Some pts ->
  hp_key <$> pts = key <$> visible.
Proof.
  rewrite mapM_Some. induction 1 as [|s p visible pts Hp _ IH]; [done|].
  apply hover_point_inv in Hp as (d & _ & _ & _ & Hk).
  cbn [fmap list_fmap]. by rewrite Hk, IH.
Qed.

Lemma hover_points_stacked (ts : Z) (visible : list Series) (pts : list HoverPoint) :
  showStacked props = true ->
  mapM (hover_point props st ts) visible = Some pts ->
  Forall (fun p => exists g, graphValue p = Some g) pts.
Proof.
  intros Hst. rewrite mapM_Some. induction 1 as [|s p visible pts Hp _ IH]; [done|].
  constructor; [|done].
  apply hover_point_inv in Hp as (d & _ & Hg & _).
  unfold getDatapointGraphValue in Hg. rewrite Hst in Hg. eauto.
Qed.

Lemma handleGraphMouseMove_inv (cv : num) (ct : Q) (ts : Z) (hps : list HoverPoint) :
  handleGraphMouseMove props st cv ct = Some (ts, hps) ->
  exists qz pts,
    getTimestampQuantizer (window props) = Some qz
    /\ quantize qz ct = Some ts
    /\ mapM (hover_point props st ts) (getVisibleMultiSeries st) = Some pts
    /\ hps = (if simpleTooltip props
              then List.filter focused
                     (set_focused (focusedSeries_key props cv pts) <$> pts)
              else set_focused (focusedSeries_key props cv pts) <$> pts).
Proof.
  unfold handleGraphMouseMove.
  destruct (getTimestampQuantizer (window props)) as [qz|]; [|done].
  cbn [mbind option_bind].
  destruct (quantize qz ct) as [ts'|] eqn:Hts; [|done]. cbn [mbind option_bind].
  destruct (mapM _ _) as [pts|] eqn:Hpts; [|done]. cbn [mbind option_bind].
  intros Heq. injection Heq as -> <-. by exists qz, pts.
Qed.

End Hover.

Section Focus.

Lemma filter_idemp {A} (f : A -> bool) (l : list A) :
  List.filter f (List.filter f l) = List.filter f l.
Proof.
  induction l as [|x l IH]; [done|]. cbn [List.filter].
  destruct (f x) eqn:Hx; [|done]. cbn [List.filter]. by rewrite Hx, IH.
Qed.

Lemma filter_focused_no_key (pts : list HoverPoint) :
  List.filter focused (set_focused None <$> pts) = [].
Proof. induction pts as [|p pts IH]; [done|]. exact IH. Qed.

Lemma filter_focused_other (k : string) (pts : list HoverPoint) :
  k ∉ hp_key <$> pts ->
  List.filter focused (set_focused (Some k) <$> pts) = [].
Proof.
  induction pts as [|p pts IH]; [done|].
  cbn [fmap list_fmap List.filter set_focused focused].
  rewrite not_elem_of_cons. intros [Hk Hpts].
  rewrite bool_decide_eq_false_2 by congruence. by apply IH.
Qed.

(** Keys are distinct: flagging by key flags exactly one hover point. *)
Lemma filter_focused_one (x : HoverPoint) (pts : list HoverPoint) :
  NoDup (hp_key <$> pts) -> x ∈ pts ->
  List.filter focused (set_focused (Some (hp_key x)) <$> pts)
  = [set_focused (Some (hp_key x)) x].
Proof.
  induction pts as [|p pts IH]; [by intros _ ?%elem_of_nil|].
  cbn [fmap list_fmap]. rewrite NoDup_cons. intros [Hp Hnd] Hx.
  cbn [List.filter set_focused focused].
  destruct (decide (hp_key x = hp_key p)) as [Heq|Hne].
  - rewrite bool_decide_eq_true_2 by congruence.
    apply elem_of_cons in Hx as [->|Hx].
    + f_equal. by apply filter_focused_other.
    + exfalso. apply Hp. rewrite <- Heq. by apply list_elem_of_fmap_2.
  - rewrite bool_decide_eq_false_2 by congruence.
    apply elem_of_cons in Hx as [->|Hx]; [done|]. by apply IH.
Qed.

Lemma elem_of_filter_bool {A} (f : A -> bool) (l : list A) (x : A) :
  x ∈ List.filter f l <-> x ∈ l /\ f x = true.
Proof. rewrite !list_elem_of_In. apply filter_In. Qed.

End Focus.

(** C3.  In stacked mode the hover points before focusing, [pts], carry
    one graph position per visible series.  When none of them is at or
    above the cursor value, no hover point is focused.  Otherwise
    exactly one hover point is focused: it is at or above the cursor
    value and no qualifying series has a strictly smaller graph
    position.  Without [simpleTooltip] every visible series has its
    hover point in the result. *)
Theorem stacked_focus_smallest_above
    (props : Props) (st : State) (cv : num) (ct : Q) (ts : Z) (hps : list HoverPoint) :
  showStacked props = true ->
  NoDup (key <$> getVisibleMultiSeries st) ->
  handleGraphMouseMove props st cv ct = Some (ts, hps) ->
  exists pts,
    mapM (hover_point props st ts) (getVisibleMultiSeries st) = Some pts
    /\ (simpleTooltip props = false ->
        hp_key <$> hps = key <$> getVisibleMultiSeries st
        /\ graphValue <$> hps = graphValue <$> pts)
    /\ ((forall p, p ∈ pts -> isSeriesAbove cv p = false) ->
        List.filter focused hps = [])
    /\ ((exists p, p ∈ pts /\ isSeriesAbove cv p = true) ->
        exists f,
          f ∈ pts /\ isSeriesAbove cv f = true
          /\ (forall q, q ∈ pts -> isSeriesAbove cv q = true ->
                num_lt (to_number (graphValue q)) (to_number (graphValue f)) = false)
          /\ List.filter focused hps = [set_focused (Some (hp_key f)) f]).
Proof.
  intros Hst Hnd H.
  apply handleGraphMouseMove_inv in H as (qz & pts & _ & _ & Hpts & ->).
  exists pts. split; [done|].
  pose proof (hover_points_keys _ _ _ _ _ Hpts) as Hkeys.
  pose proof (hover_points_stacked _ _ _ _ _ Hst Hpts) as Hsome.
  rewrite <- Hkeys in Hnd.
  unfold focusedSeries_key. rewrite Hst.
  set (above := List.filter (isSeriesAbove cv) pts).
  split; [|split].
  - intros ->. rewrite <- Hkeys, <- !list_fmap_compose. split; by apply list_fmap_ext.
  - intros Hnone.
    assert (Habove : above = []).
    { destruct above as [|p above'] eqn:Ha; [done|].
      assert (Hp : p ∈ List.filter (isSeriesAbove cv) pts)
        by (fold above; rewrite Ha; left).
      apply elem_of_filter_bool in Hp as [Hp Hq]. by rewrite Hnone in Hq. }
    rewrite Habove. cbn.
    destruct (simpleTooltip props); rewrite ?filter_idemp; apply filter_focused_no_key.
  - intros (p & Hp & Hq).
    assert (Hpa : p ∈ above) by by apply elem_of_filter_bool.
    destruct (minBy graphValue above) as [f|] eqn:Hmin.
    + apply minBy_Some in Hmin as (Hf & _ & c & Hc & Hall).
      apply elem_of_filter_bool in Hf as [Hf Hfq].
      exists f. split; [done|]. split; [done|]. split.
      * intros q Hqin Hqq.
        assert (Hqa : q ∈ above) by by apply elem_of_filter_bool.
        rewrite Forall_forall in Hall. specialize (Hall q Hqa).
        rewrite Forall_forall in Hsome. destruct (Hsome q Hqin) as [g Hg].
        rewrite Hg, Hc. cbn [to_number]. by apply Hall.
      * cbn [fmap option_fmap option_map].
        destruct (simpleTooltip props); rewrite ?filter_idemp;
          by apply filter_focused_one.
    + exfalso. apply minBy_None in Hmin.
      rewrite Forall_forall in Hmin. apply (Hmin p Hpa).
      rewrite Forall_forall in Hsome. destruct (Hsome p Hp) as [g Hg].
      exists g. split; [done|].
      unfold isSeriesAbove in Hq. rewrite Hg in Hq. cbn [to_number] in Hq.
      by apply num_ge_not_NaN in Hq as [? _].
Qed.

Lemma stacked_focus_smallest_above_witness :
  handleGraphMouseMove stacked_3_4 (mounted stacked_3_4) (Fin 5) 0
  = Some (0,
      [ {| graphValue := Some (Fin 3); hp_value := Some (Fin 3);
           hp_key := "a:0"; hp_name := "a";
           hp_color := "hsl(209, 44%, 83%)"; focused := false |};
        {| graphValue := Some (Fin 7); hp_value := Some (Fin 4);
           hp_key := "b:1"; hp_name := "b";
           hp_color := "hsl(98, 55%, 81%)"; focused := true |} ])
  /\ exists pts f,
       mapM (hover_point stacked_3_4 (mounted stacked_3_4) 0)
            (getVisibleMultiSeries (mounted stacked_3_4)) = Some pts
       /\ f ∈ pts /\ isSeriesAbove (Fin 5) f = true
       /\ (forall q, q ∈ pts -> isSeriesAbove (Fin 5) q = true ->
             num_lt (to_number (graphValue q)) (to_number (graphValue f)) = false)
       /\ List.filter focused
            [ {| graphValue := Some (Fin 3); hp_value := Some (Fin 3);
                 hp_key := "a:0"; hp_name := "a";
                 hp_color := "hsl(209, 44%, 83%)"; focused := false |};
              {| graphValue := Some (Fin 7); hp_value := Some (Fin 4);
                 hp_key := "b:1"; hp_name := "b";
                 hp_color := "hsl(98, 55%, 81%)"; focused := true |} ]
          = [set_focused (Some (hp_key f)) f].
Proof.
  assert (Hrun : handleGraphMouseMove stacked_3_4 (mounted stacked_3_4) (Fin 5) 0
    = Some (0,
      [ {| graphValue := Some (Fin 3); hp_value := Some (Fin 3);
           hp_key := "a:0"; hp_name := "a";
           hp_color := "hsl(209, 44%, 83%)"; focused := false |};
        {| graphValue := Some (Fin 7); hp_value := Some (Fin 4);
           hp_key := "b:1"; hp_name := "b";
           hp_color := "hsl(98, 55%, 81%)"; focused := true |} ]))
    by (vm_compute; reflexivity).
  split; [exact Hrun|].
  assert (Hnd : NoDup (key <$> getVisibleMultiSeries (mounted stacked_3_4))).
  { apply (bool_decide_unpack _). vm_compute. exact I. }
  destruct (stacked_focus_smallest_above stacked_3_4 (mounted stacked_3_4)
              (Fin 5) 0 0 _ eq_refl Hnd Hrun) as (pts & Hpts & _ & _ & Hfocus).
  destruct Hfocus as (f & Hf & Habove & Hmin & Hone).
  { exists {| graphValue := Some (Fin 7); hp_value := Some (Fin 4);
              hp_key := "b:1"; hp_name := "b";
              hp_color := "hsl(98, 55%, 81%)"; focused := false |}.
    split; [|reflexivity].
    assert (Hpts' : mapM (hover_point stacked_3_4 (mounted stacked_3_4) 0)
                      (getVisibleMultiSeries (mounted stacked_3_4))
                    = Some [ {| graphValue := Some (Fin 3); hp_value := Some (Fin 3);
                                hp_key := "a:0"; hp_name := "a";
                                hp_color := "hsl(209, 44%, 83%)"; focused := false |};
                             {| graphValue := Some (Fin 7); hp_value := Some (Fin 4);
                                hp_key := "b:1"; hp_name := "b";
                                hp_color := "hsl(98, 55%, 81%)"; focused := false |} ])
      by (vm_compute; reflexivity).
    rewrite Hpts' in Hpts. injection Hpts as <-. right. left. }
  by exists pts, f.
Defined.

(** ** Gaps under the cursor *)

Section Gaps.

Variables (props : Props) (st : State).

Lemma filter_fmap {A B} (g : A -> B) (f : A -> bool) (f' : B -> bool) (l : list A) :
  (forall x, f' (g x) = f x) ->
  List.filter f' (g <$> l) = g <$> List.filter f l.
Proof.
  intros Hf. induction l as [|x l IH]; [done|].
  cbn [fmap list_fmap List.filter]. rewrite Hf.
  destruct (f x); cbn [fmap list_fmap]; by rewrite <- IH.
Qed.

Lemma baseExtremum_fmap {A B} (g : A -> B)
    (it : A -> option num) (it' : B -> option num) (l : list A) :
  (forall x, it' (g x) = it x) ->
  forall computed,
    baseExtremum it' (prod_map id g <$> computed) (g <$> l)
    = prod_map id g <$> baseExtremum it computed l.
Proof.
  intros Hit. induction l as [|x l IH]; intros computed; [done|].
  cbn [fmap list_fmap baseExtremum]. rewrite Hit.
  destruct (it x) as [current|]; [|apply IH].
  destruct computed as [[c v]|]; cbn [fmap option_fmap option_map prod_map fst snd id].
  - destruct (num_lt current c); [apply (IH (Some (current, x)))|apply (IH (Some (c, v)))].
  - destruct (isNaN current); [apply (IH None)|apply (IH (Some (current, x)))].
Qed.

Lemma minBy_fmap {A B} (g : A -> B)
    (it : A -> option num) (it' : B -> option num) (l : list A) :
  (forall x, it' (g x) = it x) ->
  minBy it' (g <$> l) = g <$> minBy it l.
Proof.
  intros Hit. unfold minBy.
  pose proof (baseExtremum_fmap g it it' l Hit None) as H.
  cbn [fmap option_fmap option_map] in H. rewrite H.
  by destruct (baseExtremum it None l) as [[c v]|].
Qed.

Lemma visible_gaps_as_zero :
  getVisibleMultiSeries (gaps_as_zero st)
  = series_gaps_as_zero <$> getVisibleMultiSeries st.
Proof.
  unfold getVisibleMultiSeries, no_selection, gaps_as_zero.
  cbn [selectedLegendSeriesKey state_multiSeries].
  destruct (selectedLegendSeriesKey st) as [k|]; [|done].
  destruct (String.eqb k ""); [done|]. by apply filter_fmap.
Qed.

Lemma lookup_gaps_as_zero (s : Series) (ts : Z) :
  getDatapointAtTimestamp (series_gaps_as_zero s) ts
  = gap_as_zero <$> getDatapointAtTimestamp s ts.
Proof.
  unfold getDatapointAtTimestamp, series_gaps_as_zero. cbn [datapoints].
  rewrite <- list_fmap_compose, list_lookup_fmap.
  do 2 f_equal.
Qed.

Lemma hover_point_gaps_as_zero (s : Series) (ts : Z) :
  hover_point props (gaps_as_zero st) ts (series_gaps_as_zero s)
  = zero_point props <$> hover_point props st ts s.
Proof.
  unfold hover_point. rewrite lookup_gaps_as_zero.
  destruct (getDatapointAtTimestamp s ts) as [d|]; [|done].
  cbn [fmap option_fmap option_map mbind option_bind]. f_equal.
  unfold zero_point, getDatapointGraphValue, getDatapointOffset, no_selection.
  cbn [graphValue hp_value hp_key hp_name hp_color focused gaps_as_zero
       selectedLegendSeriesKey gap_as_zero value offset series_gaps_as_zero
       key name color to_number].
  by destruct (showStacked props).
Qed.

Lemma hover_points_gaps_as_zero (ts : Z) (l : list Series) :
  mapM (hover_point props (gaps_as_zero st) ts) (series_gaps_as_zero <$> l)
  = fmap (zero_point props) <$> mapM (hover_point props st ts) l.
Proof.
  induction l as [|s l IH]; [done|].
  cbn [fmap list_fmap mapM]. rewrite hover_point_gaps_as_zero, IH.
  destruct (hover_point props st ts s) as [p|]; [|done].
  by destruct (mapM (hover_point props st ts) l).
Qed.

(** The focus does not tell a gap from a 0. *)
Lemma focusedSeries_key_zero_point (cv : num) (pts : list HoverPoint) :
  focusedSeries_key props cv (zero_point props <$> pts)
  = focusedSeries_key props cv pts.
Proof.
  unfold focusedSeries_key. destruct (showStacked props) eqn:Hst.
  - rewrite (filter_fmap (zero_point props) (isSeriesAbove cv) (isSeriesAbove cv)).
    + rewrite (minBy_fmap (zero_point props) graphValue graphValue).
      * by destruct (minBy graphValue _).
      * intros p. unfold zero_point. cbn [graphValue]. by rewrite Hst.
    + intros p. unfold isSeriesAbove, zero_point. cbn [graphValue]. by rewrite Hst.
  - rewrite (minBy_fmap (zero_point props)
               (distanceFromCursor cv) (distanceFromCursor cv)).
    + by destruct (minBy (distanceFromCursor cv) _).
    + intros p. unfold distanceFromCursor, zero_point. cbn [graphValue].
      by rewrite Hst.
Qed.

Lemma handleGraphMouseMove_gaps_as_zero (cv : num) (ct : Q) :
  handleGraphMouseMove props (gaps_as_zero st) cv ct
  = zero_result props <$> handleGraphMouseMove props st cv ct.
Proof.
  unfold handleGraphMouseMove.
  destruct (getTimestampQuantizer (window props)) as [qz|]; [|done].
  cbn [mbind option_bind].
  destruct (quantize qz ct) as [ts|]; [|done]. cbn [mbind option_bind].
  rewrite visible_gaps_as_zero, hover_points_gaps_as_zero.
  destruct (mapM (hover_point props st ts) _) as [pts|]; [|done].
  cbn [fmap option_fmap option_map mbind option_bind].
  unfold zero_result. cbn [fst snd].
  rewrite focusedSeries_key_zero_point. do 2 f_equal.
  set (fk := focusedSeries_key props cv pts).
  assert (Hset : set_focused fk <$> (zero_point props <$> pts)
                 = zero_point props <$> (set_focused fk <$> pts)).
  { rewrite <- !list_fmap_compose. by apply list_fmap_ext. }
  rewrite Hset. destruct (simpleTooltip props); [|done].
  by apply filter_fmap.
Qed.

Lemma distance_not_NaN (cv : num) (g : option num) :
  isNaN cv = false -> g = None ->
  isNaN (num_abs (num_sub (to_number g) cv)) = false.
Proof. intros Hcv ->. by destruct cv. Qed.

End Gaps.

(** C4, as the claim states it, fails.  In line mode a lone series
    whose value under the cursor is a gap is the focused series. *)
Lemma gap_series_is_focused :
  ~ (forall props st cv ct ts hps,
        handleGraphMouseMove props st cv ct = Some (ts, hps) ->
        forall p, p ∈ hps -> hp_value p = None -> focused p = false).
Proof.
  intros H.
  assert (Hrun :
    handleGraphMouseMove (one_gap_series false) (mounted (one_gap_series false))
                         (Fin (5 # 1000)) 0
    = Some (0, [ {| graphValue := None; hp_value := None;
                    hp_key := "a:0"; hp_name := "a";
                    hp_color := "hsl(209, 44%, 83%)"; focused := true |} ]))
    by (vm_compute; reflexivity).
  specialize (H _ _ _ _ _ _ Hrun _ (list_elem_of_here _ _) eq_refl).
  discriminate H.
Qed.

(** The same in stacked mode, with the cursor on the base line. *)
Example gap_series_is_focused_stacked :
  handleGraphMouseMove (one_gap_series true) (mounted (one_gap_series true))
                       (Fin 0) 0
  = Some (0, [ {| graphValue := Some (Fin 0); hp_value := None;
                  hp_key := "a:0"; hp_name := "a";
                  hp_color := "hsl(209, 44%, 83%)"; focused := true |} ]).
Proof. vm_compute. reflexivity. Qed.

(** ** Where the source departs from the claims *)

(** C1.  The input series ["b"] comes first and its sample 1 is stored
    under the first sorted name, ["a"]; the sample 2 of ["a"] is stored
    under ["b"]. *)
Theorem sample_stored_under_sorted_position :
  parseGraphValue (RawString "1") = Some (Fin 1)
  /\ parseGraphValue (RawString "2") = Some (Fin 2)
  /\ processMultiSeries series_b_then_a
     = Some
         [ {| name := "a"; key := "a:0"; color := "hsl(209, 44%, 83%)";
              datapoints :=
                [ {| timestampSec := 0; value := Some (Fin 1); offset := Fin 0 |} ] |};
           {| name := "b"; key := "b:1"; color := "hsl(98, 55%, 81%)";
              datapoints :=
                [ {| timestampSec := 0; value := Some (Fin 2); offset := Fin 1 |} ] |} ].
Proof. repeat split; vm_compute; reflexivity. Qed.

(** C6.  The comparator-less [sort] orders the grid of that window as
    the strings ["1000"], ["800"], ["900"]; both ends of the quantizer's
    domain are then 950, and no grid point is mapped to itself. *)
Theorem quantize_moves_grid_points :
  getTimestampSecs window_800_1000 = [1000; 800; 900]
  /\ exists qz,
       getTimestampQuantizer window_800_1000 = Some qz
       /\ quantize qz (inject_Z 1000) = Some 900
       /\ quantize qz (inject_Z 800) = Some 1000
       /\ quantize qz (inject_Z 900) = Some 1000.
Proof.
  split; [vm_compute; reflexivity|].
  destruct (getTimestampQuantizer window_800_1000) as [qz|] eqn:Hqz;
    [|vm_compute in Hqz; discriminate Hqz].
  exists qz. split; [reflexivity|].
  vm_compute in Hqz. injection Hqz as <-.
  repeat split; vm_compute; reflexivity.
Qed.

(** C5.  The rows are stacked in numeric order of their timestamps and
    the offsets are read back by position in the string-sorted grid:
    series ["b"] has offset 5 at 800, where ["a"] is a gap, and offset 0
    at 900, where ["a"] is 5. *)
Theorem offsets_attached_to_other_timestamps :
  processMultiSeries (two_series_800_1000 true)
  = Some
      [ {| name := "a"; key := "a:0"; color := "hsl(209, 44%, 83%)";
           datapoints :=
             [ {| timestampSec := 1000; value := None; offset := Fin 0 |};
               {| timestampSec := 800; value := None; offset := Fin 0 |};
               {| timestampSec := 900; value := Some (Fin 5); offset := Fin 0 |} ] |};
        {| name := "b"; key := "b:1"; color := "hsl(98, 55%, 81%)";
           datapoints :=
             [ {| timestampSec := 1000; value := None; offset := Fin 0 |};
               {| timestampSec := 800; value := None; offset := Fin 5 |};
               {| timestampSec := 900; value := None; offset := Fin 0 |} ] |} ].
Proof. vm_compute. reflexivity. Qed.

(** C9.  On the same window the component mounts, and a cursor at the
    left edge of a surface 100 pixels wide inverts to 800, which is
    quantized to 1000; the search for 1000 among [1000; 800; 900] ends
    past the last datapoint, and reading the missing datapoint throws. *)
Theorem hover_lookup_out_of_bounds :
  is_Some (mount (two_series_800_1000 false))
  /\ (cursorTimestampSec_of window_800_1000 100 0 == inject_Z 800)%Q
  /\ sortedIndex [1000; 800; 900] 1000 = 3%nat
  /\ handleGraphMouseMove (two_series_800_1000 false)
       (mounted (two_series_800_1000 false)) (Fin 0)
       (cursorTimestampSec_of window_800_1000 100 0)
     = None.
Proof.
  split; [|split; [|split]].
  - vm_compute. eauto.
  - vm_compute. reflexivity.
  - vm_compute. reflexivity.
  - vm_compute. reflexivity.
Qed.

(** ** The quantizer is total *)

Section Quantizer.

Lemma bisect_loop_bounds (a : list Q) (x : Q) (fuel lo hi : nat) :
  (lo <= hi)%nat ->
  (lo <= bisect_loop fuel a x lo hi <= hi)%nat.
Proof.
  revert lo hi. induction fuel as [|fuel IH]; intros lo hi Hle; cbn [bisect_loop]; [lia|].
  destruct (Nat.ltb_spec lo hi) as [Hlt|_]; [|lia].
  assert (Hmid : (lo <= (lo + hi) / 2 < hi)%nat).
  { split; [apply Nat.div_le_lower_bound|apply Nat.Div0.div_lt_upper_bound]; lia. }
  destruct (Qltb x _).
  - specialize (IH lo ((lo + hi) / 2)%nat). lia.
  - specialize (IH (S ((lo + hi) / 2)) hi). lia.
Qed.

Lemma rescale_length (x0 x1 : Q) (n : nat) : length (rescale x0 x1 n) = n.
Proof. unfold rescale. by rewrite length_map, length_seq. Qed.

Lemma scaleQuantize_Some (x0 x1 : Q) (r : list Z) (qz : Quantizer) :
  scaleQuantize x0 x1 r = Some qz ->
  qz = {| qdomain := rescale x0 x1 (pred (length r)); qrange := r |}.
Proof. destruct r; [done|]. by intros [= <-]. Qed.

Lemma getTimestampQuantizer_range (w : Window) (qz : Quantizer) :
  getTimestampQuantizer w = Some qz ->
  qrange qz = getTimestampSecs w
  /\ length (qrange qz) = S (length (qdomain qz)).
Proof.
  unfold getTimestampQuantizer.
  destruct (head (getTimestampSecs w)) as [f|]; [|done].
  destruct (last (getTimestampSecs w)) as [l|]; [|done].
  unfold scaleQuantize. destruct (getTimestampSecs w) as [|t ts]; [done|].
  intros [= <-]. cbn [qrange qdomain]. by rewrite rescale_length.
Qed.

(** Every timestamp is quantized to some timestamp of the grid. *)
Lemma quantize_total (w : Window) (qz : Quantizer) (x : Q) :
  getTimestampQuantizer w = Some qz ->
  exists g, quantize qz x = Some g /\ g ∈ getTimestampSecs w.
Proof.
  intros Hqz. apply getTimestampQuantizer_range in Hqz as [Hrange Hlen].
  unfold quantize, bisectRight.
  pose proof (bisect_loop_bounds (qdomain qz) x (S (length (qdomain qz))) 0
                (length (qdomain qz)) ltac:(lia)) as Hb.
  destruct (lookup_lt_is_Some_2 (qrange qz)
              (bisect_loop (S (length (qdomain qz))) (qdomain qz) x 0
                           (length (qdomain qz)))) as [g Hg]; [lia|].
  exists g. split; [done|]. rewrite <- Hrange. by eapply list_elem_of_lookup_2.
Qed.

(** A window with a positive step that does not end before it starts
    has a quantizer. *)
Lemma getTimestampQuantizer_is_Some (w : Window) :
  0 < stepDurationSec w -> startTimeSec w <= endTimeSec w ->
  is_Some (getTimestampQuantizer w).
Proof.
  intros Hd Hse.
  assert (Hend : endTimeSec w ∈ getTimestampSecs w).
  { destruct w as [s e d]. cbn [startTimeSec endTimeSec stepDurationSec] in *.
    apply (elem_of_grid s e d Hd Hse).
    pose proof (Z.div_pos (e - s) d ltac:(lia) Hd). exists 0. lia. }
  unfold getTimestampQuantizer, scaleQuantize.
  destruct (getTimestampSecs w) as [|t ts] eqn:Hgrid; [by apply elem_of_nil in Hend|].
  cbn [head].
  destruct (last (t :: ts)) as [l|] eqn:Hlast; [by eexists|].
  by apply last_None in Hlast.
Qed.

End Quantizer.

(** ** Series keys are distinct *)

Section Keys.

Lemma pretty_N_go_all_digits (x : N) :
  forall s, all_digits s = true -> all_digits (pretty_N_go x s) = true.
Proof.
  induction (N.lt_wf_0 x) as [x _ IH]. intros s Hs.
  destruct (decide (x = 0)%N) as [->|Hx]; [by rewrite pretty_N_go_0|].
  rewrite pretty_N_go_step by lia. apply IH; [apply N.div_lt; lia|].
  cbn [all_digits]. rewrite Hs, andb_true_r. apply bool_decide_eq_true_2.
  rewrite digit_of_pretty_N_char by (apply N.mod_lt; lia). by eexists.
Qed.

Lemma pretty_nat_all_digits (i : nat) : all_digits (pretty i) = true.
Proof.
  unfold pretty, pretty_nat, pretty, pretty_N.
  destruct (decide (N.of_nat i = 0)%N); [done|]. by apply pretty_N_go_all_digits.
Qed.

Lemma all_digits_colon (s d : string) : all_digits (s +:+ String ":" d) = false.
Proof.
  induction s as [|c s IH]; [done|].
  change (String c s +:+ String ":" d) with (String c (s +:+ String ":" d)).
  cbn [all_digits]. rewrite IH. apply andb_false_r.
Qed.

(** The digits after the last colon determine the index. *)
Lemma after_colon_inj (s1 s2 d1 d2 : string) :
  all_digits d1 = true -> all_digits d2 = true ->
  s1 +:+ String ":" d1 = s2 +:+ String ":" d2 -> d1 = d2.
Proof.
  intros H1 H2. revert s2.
  induction s1 as [|c1 s1 IH]; intros [|c2 s2]; cbn [String.append]; intros Heq.
  - by injection Heq.
  - injection Heq as _ ->. by rewrite all_digits_colon in H1.
  - injection Heq as _ <-. by rewrite all_digits_colon in H2.
  - injection Heq as _ Heq. by apply (IH s2).
Qed.

Lemma series_key_inj (n1 n2 : string) (i1 i2 : nat) :
  n1 +:+ ":" +:+ pretty i1 = n2 +:+ ":" +:+ pretty i2 -> i1 = i2.
Proof.
  intros Heq. apply (inj pretty).
  apply (after_colon_inj n1 n2); auto using pretty_nat_all_digits.
Qed.

Lemma lookup_zip_seq {A} (l : list A) (j i : nat) :
  zip (seq j (length l)) l !! i = (fun x => ((j + i)%nat, x)) <$> l !! i.
Proof.
  revert j i. induction l as [|x l IH]; intros j [|i]; cbn; try done.
  - by rewrite Nat.add_0_r.
  - rewrite IH. destruct (l !! i); cbn; [|done]. do 2 f_equal. lia.
Qed.

Lemma make_series_key theme t tss stacked (i : nat) (n : string) (s : Series) :
  make_series theme t tss stacked i n = Some s ->
  key s = n +:+ ":" +:+ pretty i.
Proof.
  unfold make_series. destruct (stacked !! i); [|done]. cbn [mbind option_bind].
  destruct (mapM _ _); [|done]. by intros [= <-].
Qed.

(** [processMultiSeries] gives every series a key of its own. *)
Lemma processMultiSeries_keys (props : Props) (ms : list Series) :
  processMultiSeries props = Some ms -> NoDup (key <$> ms).
Proof.
  unfold processMultiSeries.
  destruct (getTimestampQuantizer (window props)) as [qz|]; [|done].
  cbn [mbind option_bind].
  destruct (fill_table _ _ _ _) as [t|]; [|done]. cbn [mbind option_bind].
  set (names := merge_sort string_le (seriesName <$> multiSeries props)).
  set (stacked := stack _ _). intros Hms. apply mapM_Some in Hms.
  apply NoDup_alt. intros i j k Hi Hj.
  rewrite list_lookup_fmap in Hi, Hj.
  destruct (ms !! i) as [si|] eqn:Hsi; [|done].
  destruct (ms !! j) as [sj|] eqn:Hsj; [|done].
  injection Hi as Hi. injection Hj as Hj.
  destruct (Forall2_lookup_r _ _ _ _ _ Hms Hsi) as ([i' ni] & Hzi & Hmi).
  destruct (Forall2_lookup_r _ _ _ _ _ Hms Hsj) as ([j' nj] & Hzj & Hmj).
  rewrite lookup_zip_seq in Hzi, Hzj.
  destruct (names !! i) as [ni'|]; [|done].
  destruct (names !! j) as [nj'|]; [|done].
  injection Hzi as <- <-. injection Hzj as <- <-.
  apply make_series_key in Hmi, Hmj.
  rewrite Hmi in Hi. rewrite Hmj in Hj. subst k.
  by apply series_key_inj in Hj.
Qed.

Lemma NoDup_fmap_filter {A B} (f : A -> B) (p : A -> bool) (l : list A) :
  NoDup (f <$> l) -> NoDup (f <$> List.filter p l).
Proof.
  induction l as [|x l IH]; [done|].
  cbn [fmap list_fmap List.filter]. rewrite NoDup_cons. intros [Hx Hl].
  destruct (p x); [|by apply IH].
  cbn [fmap list_fmap]. apply NoDup_cons. split; [|by apply IH].
  intros Hin. apply Hx.
  apply list_elem_of_fmap in Hin as (y & Hy & Hin).
  apply elem_of_filter_bool in Hin as [Hin _].
  rewrite Hy. by apply list_elem_of_fmap_2.
Qed.

(** Whatever the legend selects, the visible series of a mounted
    component have distinct keys. *)
Lemma visible_keys_NoDup (props : Props) (ms : list Series) (sel : option string) :
  processMultiSeries props = Some ms ->
  NoDup (key <$> getVisibleMultiSeries
                   {| selectedLegendSeriesKey := sel; state_multiSeries := ms |}).
Proof.
  intros Hms%processMultiSeries_keys. unfold getVisibleMultiSeries.
  cbn [state_multiSeries]. destruct (no_selection _); [done|].
  by apply NoDup_fmap_filter.
Qed.

End Keys.

(** ** The quantizer on a grid in ascending numeric order *)

Section AscendingGrid.

Variables s e d : Z.
Hypothesis step_pos : 0 < d.
Hypothesis start_le_end : s <= e.

(** The sort left the grid in ascending numeric order, as it does when
    all its timestamps are non-negative and have the same number of
    digits. *)
Hypothesis grid_ascending : Sorted Z.lt (getTimestampSecs (mkWindow s e d)).

Lemma baseRange_descending (start : Z) (len : nat) :
  Sorted (flip Z.lt) (baseRange start (- d) len).
Proof.
  revert start. induction len as [|len IH]; intros start; cbn [baseRange]; [constructor|].
  constructor; [apply IH|].
  destruct len; cbn [baseRange]; constructor. unfold flip. lia.
Qed.

#[local] Instance Zlt_antisymm : AntiSymm (=) Z.lt.
Proof. intros x y ? ?. lia. Qed.

Lemma ascending_grid :
  getTimestampSecs (mkWindow s e d)
  = reverse (baseRange e (- d) (Z.to_nat ((e - s) / d + 1))).
Proof.
  apply (Sorted_unique Z.lt); [exact grid_ascending| |].
  - apply (Sorted_reverse (flip Z.lt)), baseRange_descending.
  - unfold getTimestampSecs, Array_sort, range.
    cbn [startTimeSec endTimeSec stepDurationSec mkWindow].
    by rewrite merge_sort_Permutation, grid_length, reverse_Permutation.
Qed.

Lemma ascending_grid_length :
  length (getTimestampSecs (mkWindow s e d)) = S (Z.to_nat ((e - s) / d)).
Proof.
  pose proof (Z.div_pos (e - s) d ltac:(lia) step_pos).
  rewrite ascending_grid, length_reverse, baseRange_length. lia.
Qed.

Lemma ascending_grid_lookup (i : nat) :
  (i <= Z.to_nat ((e - s) / d))%nat ->
  getTimestampSecs (mkWindow s e d) !! i
  = Some (e - (e - s) / d * d + Z.of_nat i * d).
Proof.
  intros Hi. pose proof (Z.div_pos (e - s) d ltac:(lia) step_pos).
  rewrite ascending_grid, reverse_lookup by (rewrite baseRange_length; lia).
  rewrite baseRange_length, baseRange_lookup by lia. f_equal.
  replace (Z.of_nat (Z.to_nat ((e - s) / d + 1) - S i))
    with ((e - s) / d - Z.of_nat i) by lia.
  ring.
Qed.

Lemma nth_rescale (x0 x1 : Q) (n i : nat) :
  (i < n)%nat ->
  nth i (rescale x0 x1 n) 0%Q
  = ((inject_Z (Z.of_nat i + 1) * x1 - inject_Z (Z.of_nat i - Z.of_nat n) * x0)
     / inject_Z (Z.of_nat n + 1))%Q.
Proof.
  intros Hi. unfold rescale.
  rewrite nth_lookup. change (map ?f ?l) with (f <$> l).
  rewrite list_lookup_fmap, lookup_seq_lt by done. reflexivity.
Qed.

(** The threshold after grid point [i] lies half a step above it. *)
Lemma threshold_half_step (m : Z) (n i : nat) :
  (i < n)%nat ->
  (nth i (rescale (inject_Z m - (1 # 2) * inject_Z d)
                  (inject_Z (m + Z.of_nat n * d) + (1 # 2) * inject_Z d) n) 0
   * 2 == inject_Z (2 * m + (2 * Z.of_nat i + 1) * d))%Q.
Proof.
  intros Hi. rewrite nth_rescale by done.
  rewrite !inject_Z_plus, !inject_Z_mult, !inject_Z_plus, !inject_Z_mult.
  unfold Z.sub. rewrite inject_Z_plus, inject_Z_opp.
  change (inject_Z 1) with 1%Q. change (inject_Z 2) with 2%Q.
  field.
  assert (Hn : (0 <= inject_Z (Z.of_nat n))%Q) by (rewrite <- (Zle_Qle 0); lia).
  intros H0.
  assert (Hpos : (0 < inject_Z (Z.of_nat n) + 1)%Q).
  { apply Qlt_le_trans with 1%Q; [Qconst|].
    rewrite <- (Qplus_0_l 1) at 1. by apply Qplus_le_l. }
  rewrite H0 in Hpos. by apply Qlt_irrefl in Hpos.
Qed.

Lemma bisect_loop_ascending (a : list Q) (x : Q) (j n : nat) :
  (forall i, (i < n)%nat -> Qltb x (nth i a 0%Q) = (j <=? i)%nat) ->
  forall fuel lo hi,
    (hi - lo < fuel)%nat -> (lo <= j <= hi)%nat -> (hi <= n)%nat ->
    bisect_loop fuel a x lo hi = j.
Proof.
  intros Ha. induction fuel as [|fuel IH]; intros lo hi Hfuel Hj Hhi; [lia|].
  cbn [bisect_loop]. destruct (Nat.ltb_spec lo hi) as [Hlt|Hge]; [|lia].
  assert (Hmid : (lo <= (lo + hi) / 2 < hi)%nat).
  { split; [apply Nat.div_le_lower_bound|apply Nat.Div0.div_lt_upper_bound]; lia. }
  rewrite Ha by lia.
  destruct (Nat.leb_spec j ((lo + hi) / 2)); apply IH; lia.
Qed.

(** On such a grid every grid point is quantized to itself. *)
Lemma quantize_idempotent_on_ascending_grid (qz : Quantizer) (g : Z) :
  getTimestampQuantizer (mkWindow s e d) = Some qz ->
  g ∈ getTimestampSecs (mkWindow s e d) ->
  quantize qz (inject_Z g) = Some g.
Proof.
  intros Hqz Hg.
  set (n := Z.to_nat ((e - s) / d)). set (m := e - (e - s) / d * d).
  pose proof (Z.div_pos (e - s) d ltac:(lia) step_pos) as Hk.
  apply list_elem_of_lookup in Hg as [j Hj].
  assert (Hjn : (j <= n)%nat).
  { apply lookup_lt_Some in Hj. rewrite ascending_grid_length in Hj. unfold n. lia. }
  rewrite ascending_grid_lookup in Hj by done. injection Hj as <-. fold m.
  pose proof (getTimestampQuantizer_range _ _ Hqz) as [Hrange Hlen].
  revert Hqz. unfold getTimestampQuantizer.
  rewrite head_lookup, last_lookup, ascending_grid_length.
  rewrite !ascending_grid_lookup by (cbn; lia).
  cbn [pred stepDurationSec mkWindow]. fold n m.
  intros ->%scaleQuantize_Some. rewrite ascending_grid_length. cbn [pred]. fold n.
  unfold quantize, bisectRight.
  cbn [qdomain qrange]. rewrite rescale_length.
  rewrite (bisect_loop_ascending _ _ j n); [|  |lia..].
  - by rewrite ascending_grid_lookup.
  - intros i Hi.
    replace (e - (e - s) / d * d + Z.of_nat n * d) with (m + Z.of_nat n * d)
      by (unfold m; lia).
    replace (m + Z.of_nat 0 * d) with m by lia.
    pose proof (threshold_half_step m n i Hi) as Hthr.
    set (thr := nth i _ 0%Q) in *.
    destruct (Nat.leb_spec j i) as [Hle|Hgt].
    + apply Qltb_lt. apply (Qmult_lt_r _ _ 2); [Qconst|].
      rewrite Hthr. change 2%Q with (inject_Z 2).
      rewrite <- inject_Z_mult, <- Zlt_Qlt. nia.
    + apply Qltb_ge. apply (Qmult_le_r _ _ 2); [Qconst|].
      rewrite Hthr. change 2%Q with (inject_Z 2).
      rewrite <- inject_Z_mult, <- Zle_Qle. nia.
Qed.

Lemma sortedIndex_loop_ascending (array : list Z) (v : Z) (j n : nat) :
  (forall i, (i < n)%nat -> (nth i array 0 <? v) = (i <? j)%nat) ->
  forall fuel low high,
    (high - low < fuel)%nat -> (low <= j <= high)%nat -> (high <= n)%nat ->
    sortedIndex_loop fuel array v low high = j.
Proof.
  intros Ha. induction fuel as [|fuel IH]; intros low high Hfuel Hj Hhigh; [lia|].
  cbn [sortedIndex_loop]. destruct (Nat.ltb_spec low high) as [Hlt|Hge]; [|lia].
  assert (Hmid : (low <= (low + high) / 2 < high)%nat).
  { split; [apply Nat.div_le_lower_bound|apply Nat.Div0.div_lt_upper_bound]; lia. }
  rewrite Ha by lia.
  destruct (Nat.ltb_spec ((low + high) / 2) j); apply IH; lia.
Qed.

(** On such a grid the search finds every grid point where it stands. *)
Lemma sortedIndex_on_ascending_grid (j : nat) (g : Z) :
  getTimestampSecs (mkWindow s e d) !! j = Some g ->
  sortedIndex (getTimestampSecs (mkWindow s e d)) g = j.
Proof.
  intros Hj. pose proof (Z.div_pos (e - s) d ltac:(lia) step_pos) as Hk.
  assert (Hjn : (j <= Z.to_nat ((e - s) / d))%nat).
  { apply lookup_lt_Some in Hj. rewrite ascending_grid_length in Hj. lia. }
  rewrite ascending_grid_lookup in Hj by done. injection Hj as <-.
  unfold sortedIndex. rewrite ascending_grid_length.
  apply (sortedIndex_loop_ascending _ _ j (S (Z.to_nat ((e - s) / d)))); [|lia..].
  intros i Hi. rewrite nth_lookup, ascending_grid_lookup by lia. cbn [default].
  destruct (Nat.ltb_spec i j); [apply Z.ltb_lt|apply Z.ltb_ge].
  - apply Z.add_lt_mono_l, Z.mul_lt_mono_pos_r; lia.
  - apply Z.add_le_mono_l, Z.mul_le_mono_nonneg_r; lia.
Qed.

End AscendingGrid.


(** ** Hover on a grid in ascending numeric order *)

Section AscendingHover.

Lemma make_series_timestamps theme t tss stacked (i : nat) (n : string) (series : Series) :
  make_series theme t tss stacked i n = Some series ->
  timestampSec <$> datapoints series = tss.
Proof.
  unfold make_series. destruct (stacked !! i) as [st|]; [|done].
  cbn [mbind option_bind].
  destruct (mapM _ _) as [dps|] eqn:Hdps; [|done]. intros [= <-]. cbn [datapoints].
  apply mapM_Some in Hdps.
  assert (Hsnd : timestampSec <$> dps = (zip (seq 0 (length tss)) tss).*2).
  { induction Hdps as [|[ti ts] dp l k Hdp _ IH]; [done|].
    cbn [fmap list_fmap]. rewrite IH. f_equal.
    unfold make_datapoint in Hdp.
    destruct (table_get t ts) as [row|]; [|done]. cbn [mbind option_bind] in Hdp.
    destruct (row !! n) as [v|]; [|done]. cbn [mbind option_bind] in Hdp.
    destruct (st !! ti) as [cell|]; [|done]. by injection Hdp as <-. }
  rewrite Hsnd. apply snd_zip. by rewrite length_seq.
Qed.

Lemma processMultiSeries_timestamps (props : Props) (ms : list Series) :
  processMultiSeries props = Some ms ->
  Forall (fun series =>
            timestampSec <$> datapoints series = getTimestampSecs (window props)) ms.
Proof.
  unfold processMultiSeries.
  destruct (getTimestampQuantizer (window props)) as [qz|] eqn:Hqz; [|done].
  apply getTimestampQuantizer_range in Hqz as [Hrange _].
  cbn [mbind option_bind].
  destruct (fill_table _ _ _ _) as [t|]; [|done]. cbn [mbind option_bind].
  intros Hms. apply mapM_Some in Hms. rewrite <- Hrange.
  induction Hms as [|[i n] series l k Hs _ IH]; constructor; [|done].
  by eapply make_series_timestamps.
Qed.

Variables (props : Props) (ms : list Series).
Hypothesis step_pos : 0 < stepDurationSec (window props).
Hypothesis start_le_end : startTimeSec (window props) <= endTimeSec (window props).
Hypothesis grid_ascending : Sorted Z.lt (getTimestampSecs (window props)).
Hypothesis mounted_on_props : processMultiSeries props = Some ms.

(** With the grid in ascending numeric order, hover resolution finds a
    datapoint for every visible series, whatever the cursor and the
    legend selection. *)
Lemma hover_finds_datapoints_on_ascending_grid
    (sel : option string) (cv : num) (ct : Q) :
  exists ts hps,
    handleGraphMouseMove props
      {| selectedLegendSeriesKey := sel; state_multiSeries := ms |} cv ct
    = Some (ts, hps)
    /\ ts ∈ getTimestampSecs (window props).
Proof.
  set (st := {| selectedLegendSeriesKey := sel; state_multiSeries := ms |}).
  destruct (getTimestampQuantizer_is_Some _ step_pos start_le_end) as [qz Hqz].
  destruct (quantize_total _ qz ct Hqz) as (ts & Hts & Hin).
  unfold handleGraphMouseMove. rewrite Hqz. cbn [mbind option_bind].
  rewrite Hts. cbn [mbind option_bind].
  assert (Hall : Forall (fun series => is_Some (hover_point props st ts series))
                        (getVisibleMultiSeries st)).
  { apply Forall_forall. intros series Hs.
    assert (Hms : series ∈ ms).
    { unfold getVisibleMultiSeries in Hs. cbn [state_multiSeries] in Hs.
      destruct (no_selection st); [done|].
      by apply elem_of_filter_bool in Hs as [? _]. }
    pose proof (processMultiSeries_timestamps props ms mounted_on_props) as Htss.
    rewrite Forall_forall in Htss. specialize (Htss series Hms).
    apply list_elem_of_lookup in Hin as [j Hj].
    destruct (window props) as [s e d] eqn:Hw.
    cbn [stepDurationSec startTimeSec endTimeSec] in *.
    change {| startTimeSec := s; endTimeSec := e; stepDurationSec := d |}
      with (mkWindow s e d) in *.
    unfold hover_point, getDatapointAtTimestamp. rewrite Htss.
    rewrite (sortedIndex_on_ascending_grid s e d) with (j := j) by done.
    assert (Hdp : is_Some (datapoints series !! j)).
    { apply lookup_lt_is_Some. apply lookup_lt_Some in Hj.
      by rewrite <- Htss, length_fmap in Hj. }
    destruct Hdp as [dp ->]. by eexists. }
  apply mapM_is_Some in Hall. destruct Hall as [pts ->].
  cbn [mbind option_bind]. by eexists _, _.
Qed.

End AscendingHover.

(** The window of the specification's scenario, from 0 to 300 in steps
    of 100, has an ascending grid. *)
Example ascending_grid_0_300 (g : Z) :
  g ∈ getTimestampSecs (mkWindow 0 300 100) ->
  exists qz,
    getTimestampQuantizer (mkWindow 0 300 100) = Some qz
    /\ quantize qz (inject_Z g) = Some g
    /\ sortedIndex (getTimestampSecs (mkWindow 0 300 100)) g
       = Z.to_nat (g / 100).
Proof.
  intros Hg.
  assert (Hasc : Sorted Z.lt (getTimestampSecs (mkWindow 0 300 100))).
  { apply (bool_decide_unpack _). vm_compute. exact I. }
  destruct (getTimestampQuantizer_is_Some (mkWindow 0 300 100)) as [qz Hqz];
    [done..|].
  exists qz. split; [done|]. split.
  - by apply (quantize_idempotent_on_ascending_grid 0 300 100).
  - assert (Hgrid : getTimestampSecs (mkWindow 0 300 100) = [0; 100; 200; 300])
      by (vm_compute; reflexivity).
    rewrite Hgrid in Hg. rewrite Hgrid.
    rewrite !elem_of_cons in Hg.
    destruct Hg as [->|[->|[->|[->|Hg]]]]; [reflexivity..|by apply elem_of_nil in Hg].
Qed.

(** ** The stacker on the rows it is given *)

Section Stacker.

Lemma sum_values_cons (d : Row) (k : string) (ks : list string) :
  sum_values d (k :: ks) = (Qvalue d k + sum_values d ks)%Q.
Proof. reflexivity. Qed.

Lemma sum_values_nil (d : Row) : sum_values d [] = 0%Q.
Proof. reflexivity. Qed.

Lemma Qvalue_Fin (d : Row) (k : string) (v : Q) :
  row_value d k = Fin v -> Qvalue d k = v.
Proof. unfold Qvalue. by intros ->. Qed.

Variable data : list Row.

Lemma offsetNone_from_row (ks : list string) :
  forall (s0 : list (num * num)) (p : num * num) (j : nat) (d : Row),
    length s0 = length data ->
    data !! j = Some d -> s0 !! j = Some p ->
    forall i si,
      offsetNone_from s0 (stack_init ks data) !! i = Some si ->
      exists cell, si !! j = Some cell /\ scan p ks d !! i = Some cell.
Proof.
  induction ks as [|k ks IH]; intros s0 p j d Hlen Hd Hp i si; [done|].
  cbn [stack_init map offsetNone_from scan].
  set (s1 := lift_onto s0 _).
  assert (Hs1 : s1 !! j = Some (if isNaN p.2 then p.1 else p.2,
                                num_add (row_value d k)
                                        (if isNaN p.2 then p.1 else p.2))).
  { unfold s1, lift_onto. rewrite lookup_zip_with, Hp. cbn [mbind option_bind].
    change (map ?f ?l) with (f <$> l). by rewrite list_lookup_fmap, Hd. }
  assert (Hlen1 : length s1 = length data).
  { unfold s1, lift_onto. rewrite length_zip_with, length_map. lia. }
  destruct i as [|i]; cbn [lookup list_lookup].
  - intros [= <-]. eauto.
  - intros Hsi. by apply (IH s1 _ j d Hlen1 Hd Hs1 i si).
Qed.

Lemma scan_sums (d : Row) (ks : list string) :
  Forall (fun k => finite (row_value d k)) ks ->
  forall (p : num * num) (q0 : Q) (i : nat) (cell : num * num),
    p.2 = Fin q0 ->
    scan p ks d !! i = Some cell ->
    exists a b,
      cell = (Fin a, Fin b)
      /\ (a == q0 + sum_values d (take i ks))%Q
      /\ (b == q0 + sum_values d (take (S i) ks))%Q.
Proof.
  induction 1 as [|k ks [v Hv] _ IH]; intros p q0 i cell Hp; [done|].
  cbn [scan]. rewrite Hp. cbn [isNaN]. rewrite Hv. cbn [num_add].
  destruct i as [|i]; cbn [lookup list_lookup].
  - intros [= <-]. exists q0, (v + q0)%Q. split; [done|].
    cbn [take]. rewrite take_0, sum_values_cons, sum_values_nil, (Qvalue_Fin _ _ _ Hv).
    split; ring.
  - intros Hcell.
    destruct (IH (Fin q0, Fin (v + q0)%Q) (v + q0)%Q i cell eq_refl Hcell)
      as (a & b & -> & Ha & Hb).
    exists a, b. split; [done|].
    cbn [take]. rewrite !sum_values_cons, (Qvalue_Fin _ _ _ Hv).
    rewrite Ha, Hb. split; ring.
Qed.

(** On the rows it is given, [stack] puts series [i] on the sum of the
    values of the series before it, row by row. *)
Lemma stack_offsets_are_prefix_sums (keys : list string) (i j : nat)
    (d : Row) (si : list (num * num)) :
  data !! j = Some d ->
  Forall (fun k => finite (row_value d k)) keys ->
  stack keys data !! i = Some si ->
  exists a b,
    si !! j = Some (Fin a, Fin b)
    /\ (a == sum_values d (take i keys))%Q
    /\ (b == sum_values d (take (S i) keys))%Q.
Proof.
  intros Hd Hfin. unfold stack, stackOffsetNone.
  destruct keys as [|k keys]; [done|]. cbn [stack_init map].
  apply Forall_cons in Hfin as [[v Hv] Hfin].
  assert (Hs0 : (map (fun d0 : Row => (Fin 0%Q, to_number_prop (d0 !! k))) data)
                !! j = Some (Fin 0%Q, Fin v)).
  { change (map ?f ?l) with (f <$> l). rewrite list_lookup_fmap, Hd.
    cbn. by rewrite <- Hv. }
  destruct i as [|i]; cbn [lookup list_lookup].
  - intros [= <-]. exists 0%Q, v. split; [done|].
    cbn [take]. rewrite take_0, sum_values_cons, sum_values_nil, (Qvalue_Fin _ _ _ Hv).
    split; [reflexivity|ring].
  - intros Hsi.
    destruct (offsetNone_from_row keys _ _ j d (length_map _ _) Hd Hs0 i si Hsi)
      as (cell & Hcell & Hscan).
    destruct (scan_sums d keys Hfin (Fin 0%Q, Fin v) v i cell eq_refl Hscan)
      as (a & b & -> & Ha & Hb).
    exists a, b. split; [done|].
    cbn [take]. rewrite !sum_values_cons, (Qvalue_Fin _ _ _ Hv).
    rewrite Ha, Hb. split; ring.
Qed.

End Stacker.

(** ** Which name a series writes under *)

Section Relabel.

Lemma string_leb_trans (s1 s2 s3 : string) :
  String.leb s1 s2 = true -> String.leb s2 s3 = true -> String.leb s1 s3 = true.
Proof.
  unfold String.leb. revert s2 s3.
  induction s1 as [|c1 s1 IH]; intros [|c2 s2] [|c3 s3]; cbn; try done.
  unfold Ascii.compare.
  destruct (N.compare_spec (N_of_ascii c1) (N_of_ascii c2)) as [H12|H12|H12];
    destruct (N.compare_spec (N_of_ascii c2) (N_of_ascii c3)) as [H23|H23|H23];
    destruct (N.compare_spec (N_of_ascii c1) (N_of_ascii c3)) as [H13|H13|H13];
    try done; try lia.
  apply IH.
Qed.

#[local] Instance string_le_trans : Transitive string_le.
Proof.
  intros s1 s2 s3 H12%Is_true_true H23%Is_true_true.
  apply Is_true_true. by eapply string_leb_trans.
Qed.

#[local] Instance string_le_total : Total string_le.
Proof.
  intros s1 s2. unfold string_le.
  destruct (String.leb_total s1 s2) as [H|H]; rewrite H; [by left|by right].
Qed.

#[local] Instance string_le_antisymm : AntiSymm (=) string_le.
Proof.
  intros s1 s2 H12%Is_true_true H21%Is_true_true. by apply String.leb_antisym.
Qed.

(** Sorting sorted names changes nothing. *)
Lemma sort_names_idemp (l : list string) :
  merge_sort string_le (merge_sort string_le l) = merge_sort string_le l.
Proof.
  apply (Sorted_unique string_le).
  - apply Sorted_merge_sort, _.
  - apply Sorted_merge_sort, _.
  - apply merge_sort_Permutation.
Qed.

Lemma relabel_names (names : list string) (input : list InputSeries) :
  length names = length input ->
  seriesName <$> zip_with relabel_series names input = names.
Proof.
  revert input. induction names as [|n names IH]; intros [|s input] Hlen;
    try done. cbn. f_equal. apply IH. by injection Hlen.
Qed.

Lemma relabel_values (names : list string) (input : list InputSeries) :
  length names = length input ->
  values <$> zip_with relabel_series names input = values <$> input.
Proof.
  revert input. induction names as [|n names IH]; intros [|s input] Hlen;
    try done. cbn. f_equal. apply IH. by injection Hlen.
Qed.

(** The fill loop reads the position and the samples of a series, never
    its name. *)
Lemma fill_table_values (qz : Quantizer) (names : list string)
    (input input' : list InputSeries) :
  values <$> input = values <$> input' ->
  forall t, fill_table qz names t input = fill_table qz names t input'.
Proof.
  intros Hvalues. unfold fill_table.
  assert (Hlen : length input = length input').
  { by rewrite <- (length_fmap values input), Hvalues, length_fmap. }
  rewrite <- Hlen. generalize 0%nat. revert input' Hvalues Hlen.
  induction input as [|series input IH]; intros [|series' input'] Hvalues Hlen j t;
    try done.
  injection Hvalues as Hv Hvalues. injection Hlen as Hlen.
  cbn [length seq zip zip_with foldlM]. rewrite Hv.
  destruct (foldlM _ t (values series')) as [t'|]; [|done].
  cbn [mbind option_bind]. by apply IH.
Qed.

(** Alignment does not look at which series a sample came from, only at
    the position of that series in the input: the result is the one for
    the input renamed by position in the sorted name list. *)
Lemma processMultiSeries_relabel (props : Props) :
  processMultiSeries props = processMultiSeries (relabel props).
Proof.
  unfold processMultiSeries. cbn [window multiSeries colorTheme relabel].
  set (names := merge_sort string_le (seriesName <$> multiSeries props)).
  assert (Hlen : length names = length (multiSeries props)).
  { unfold names. by rewrite merge_sort_Permutation, length_fmap. }
  rewrite (relabel_names names _ Hlen).
  assert (Hsorted : merge_sort string_le names = names)
    by apply sort_names_idemp.
  rewrite Hsorted.
  destruct (getTimestampQuantizer (window props)) as [qz|]; [|done].
  cbn [mbind option_bind].
  by rewrite (fill_table_values qz names _ (multiSeries props)
                (relabel_values names _ Hlen)).
Qed.

End Relabel.

(** ** Scenarios of the specification *)

(** On the window from 0 to 300 in steps of 100, the timestamp 150 lies
    half-way and goes to the upper grid point 200; 50 goes to 100. *)
Example scenario_grid_and_alignment :
  getTimestampSecs (mkWindow 0 300 100) = [0; 100; 200; 300]
  /\ aligned_values <$> processMultiSeries (scenario_A_B false)
     = Some [ ("A", [Some (Fin 10); None; Some (Fin 20); None]);
              ("B", [None; Some (Fin 5); None; None]) ].
Proof. split; vm_compute; reflexivity. Qed.

Example scenario_stack_offsets :
  stored_offsets <$> processMultiSeries (scenario_A_B true)
  = Some [ ("A", [Fin 0; Fin 0; Fin 0; Fin 0]);
           ("B", [Fin 10; Fin 0; Fin 20; Fin 0]) ].
Proof. vm_compute. reflexivity. Qed.

(** On that window hover resolution returns hover points for every
    cursor and every legend selection. *)
Example scenario_hover_never_fails
    (sel : option string) (cv : num) (ct : Q) (ms : list Series) :
  processMultiSeries (scenario_A_B true) = Some ms ->
  exists ts hps,
    handleGraphMouseMove (scenario_A_B true)
      {| selectedLegendSeriesKey := sel; state_multiSeries := ms |} cv ct
    = Some (ts, hps)
    /\ ts ∈ getTimestampSecs (mkWindow 0 300 100).
Proof.
  intros Hms.
  apply (hover_finds_datapoints_on_ascending_grid (scenario_A_B true) ms);
    [done|done| |done].
  apply (bool_decide_unpack _). vm_compute. exact I.
Qed.

(** [metricUnits = "bytes"], value 2048 on an axis whose maximum is
    2048: the unit is kB. *)
Example scenario_bytes_2048 :
  valueFormatters_bytes (num_of_Z 2048) (Some (num_of_Z 2048)) = "2 kB".
Proof. vm_compute. reflexivity. Qed.

(** Stacking two rows: series ["B"] stands on the value of series ["A"]
    in each of them. *)
Example scenario_prefix_sums (d : Row) (si : list (num * num)) (j : nat) :
  two_rows !! j = Some d ->
  stack ["A"; "B"] two_rows !! 1%nat = Some si ->
  exists a b, si !! j = Some (Fin a, Fin b) /\ (a == Qvalue d "A")%Q.
Proof.
  intros Hd Hsi.
  destruct (stack_offsets_are_prefix_sums _ ["A"; "B"] 1 j d si Hd) as (a & b & Hj & Ha & _);
    [|done|].
  - destruct j as [|[|j]]; [| |done]; injection Hd as <-;
      repeat constructor; eexists; vm_compute; reflexivity.
  - exists a, b. split; [done|]. rewrite Ha. cbn [take].
    rewrite sum_values_cons, sum_values_nil. ring.
Qed.
(** * Further properties of the component *)

(** ** Colours *)

Lemma palette_NoDup (theme : ColorTheme) : NoDup (palette theme).
Proof. destruct theme; apply (bool_decide_unpack _); vm_compute; exact I. Qed.

(** X1.  The colour of a series is always an entry of the palette of
    the theme; it depends on the series index only through its
    remainder by the palette length, so the colours repeat with that
    period; and two indices below the palette length never share a
    colour. *)
Theorem colorThemes_cycles (theme : ColorTheme) (i : nat) :
  colorThemes theme i ∈ palette theme
  /\ colorThemes theme (i + length (palette theme)) = colorThemes theme i
  /\ (forall j : nat,
         (i < length (palette theme))%nat -> (j < length (palette theme))%nat ->
         colorThemes theme i = colorThemes theme j -> i = j).
Proof.
  assert (Hlen : (0 < length (palette theme))%nat) by (destruct theme; cbn; lia).
  unfold colorThemes. split; [|split].
  - destruct (lookup_lt_is_Some_2 (palette theme) (i mod length (palette theme))%nat)
      as [c Hc]; [apply Nat.mod_upper_bound; lia|].
    rewrite Hc. cbn. by eapply list_elem_of_lookup_2.
  - replace (i + length (palette theme))%nat
      with (i + 1 * length (palette theme))%nat by lia.
    by rewrite Nat.Div0.mod_add.
  - intros j Hi Hj. rewrite !Nat.mod_small by done.
    destruct (lookup_lt_is_Some_2 (palette theme) i Hi) as [ci Hci].
    destruct (lookup_lt_is_Some_2 (palette theme) j Hj) as [cj Hcj].
    rewrite Hci, Hcj. cbn. intros ->.
    eapply NoDup_lookup; [apply palette_NoDup|done..].
Qed.

(** ** Fading and focusing from the legend *)

(** X2.  For a series with a non-empty key: it is never faded and
    focused at once; while a series is selected nothing is faded; and
    while nothing is selected and the legend is hovered, a series is
    faded exactly when it is not focused. *)
Theorem faded_or_focused (st : State) (hovered : option string) (series : Series) :
  key series <> "" ->
  isFadedSeries st hovered series && isFocusedSeries st hovered series = false
  /\ (no_selection st = false -> isFadedSeries st hovered series = false)
  /\ (no_selection st = true -> truthy hovered = true ->
      isFadedSeries st hovered series = negb (isFocusedSeries st hovered series)).
Proof.
  intros Hk. unfold isFadedSeries, isFocusedSeries, no_selection, truthy.
  destruct st as [[k|] ms]; cbn [selectedLegendSeriesKey].
  - destruct (String.eqb_spec k "") as [->|Hne].
    + rewrite (bool_decide_eq_false_2 (Some "" = Some (key series))) by congruence.
      rewrite orb_false_r. split; [|split]; [|done|].
      * destruct hovered as [h|]; [|done].
        destruct (negb (String.eqb h "")), (bool_decide (Some h = Some (key series))); done.
      * intros _ ->. done.
    + split; [|split]; done.
  - rewrite (bool_decide_eq_false_2 (None = Some (key series))) by congruence.
    rewrite orb_false_r. split; [|split]; [|done|].
    + destruct hovered as [h|]; [|done].
      destruct (negb (String.eqb h "")), (bool_decide (Some h = Some (key series))); done.
    + intros _ ->. done.
Qed.

Lemma faded_or_focused_witness :
  isFadedSeries {| selectedLegendSeriesKey := None; state_multiSeries := [] |}
                (Some "a:0")
                {| name := "b"; key := "b:1"; color := ""; datapoints := [] |}
  = negb (isFocusedSeries {| selectedLegendSeriesKey := None; state_multiSeries := [] |}
                (Some "a:0")
                {| name := "b"; key := "b:1"; color := ""; datapoints := [] |}).
Proof.
  apply (faded_or_focused
           {| selectedLegendSeriesKey := None; state_multiSeries := [] |}
           (Some "a:0")
           {| name := "b"; key := "b:1"; color := ""; datapoints := [] |});
    [discriminate|reflexivity|reflexivity].
Defined.

(** ** The visible series *)

Lemma filter_key_other (k : string) (l : list Series) :
  k ∉ key <$> l ->
  List.filter (fun series => bool_decide (Some k = Some (key series))) l = [].
Proof.
  induction l as [|x l IH]; [done|].
  cbn [fmap list_fmap List.filter]. rewrite not_elem_of_cons. intros [Hk Hl].
  rewrite bool_decide_eq_false_2 by congruence. by apply IH.
Qed.

Lemma filter_key_one (x : Series) (l : list Series) :
  NoDup (key <$> l) -> x ∈ l ->
  List.filter (fun series => bool_decide (Some (key x) = Some (key series))) l = [x].
Proof.
  induction l as [|y l IH]; [by intros _ ?%elem_of_nil|].
  cbn [fmap list_fmap]. rewrite NoDup_cons. intros [Hy Hnd] Hx.
  cbn [List.filter].
  destruct (decide (key x = key y)) as [Heq|Hne].
  - rewrite bool_decide_eq_true_2 by congruence.
    apply elem_of_cons in Hx as [->|Hx].
    + f_equal. by apply filter_key_other.
    + exfalso. apply Hy. rewrite <- Heq. by apply list_elem_of_fmap_2.
  - rewrite bool_decide_eq_false_2 by congruence.
    apply elem_of_cons in Hx as [->|Hx]; [done|]. by apply IH.
Qed.

(** X3.  When the keys of the series are distinct and the legend
    selects the key of one of them, that series alone is visible. *)
Theorem selected_series_alone_is_visible (st : State) (series : Series) :
  NoDup (key <$> state_multiSeries st) ->
  series ∈ state_multiSeries st ->
  key series <> "" ->
  selectedLegendSeriesKey st = Some (key series) ->
  getVisibleMultiSeries st = [series].
Proof.
  intros Hnd Hin Hk Hsel. unfold getVisibleMultiSeries, no_selection.
  rewrite Hsel. destruct (String.eqb_spec (key series) "") as [|_]; [done|].
  by apply filter_key_one.
Qed.

Lemma selected_series_alone_is_visible_witness :
  getVisibleMultiSeries (state_a_b (Some "b:1")) = [series_b].
Proof.
  apply (selected_series_alone_is_visible (state_a_b (Some "b:1")) series_b).
  - apply (bool_decide_unpack _). vm_compute. exact I.
  - cbn. apply list_elem_of_further, list_elem_of_here.
  - discriminate.
  - reflexivity.
Defined.

(** ** The formatters *)

Lemma space_not_placeholder (s t : string) : s +:+ String " " t <> "---".
Proof. destruct s as [|? [|? [|? [|? ?]]]]; cbn; intros [=]. Qed.

Lemma percent_not_placeholder (s : string) : s +:+ "%" <> "---".
Proof. destruct s as [|? [|? [|? [|? ?]]]]; cbn; intros [=]. Qed.

(** X4.  Under every scheme and for every reference magnitude, the
    rendering function gives the placeholder ["---"] for a gap and for
    nothing else: no number, not even NaN or an infinity, is rendered
    as the placeholder. *)
Theorem placeholder_only_for_gap (reference : num) (n : option num) :
  (valueFormatters_none reference n = "---" <-> n = None)
  /\ (valueFormatters_bytes reference n = "---" <-> n = None)
  /\ (valueFormatters_percent n = "---" <-> n = None).
Proof.
  split; [|split].
  - unfold valueFormatters_none.
    repeat match goal with
           | |- context [List.find ?f ?l] => destruct (List.find f l) as [[? ?]|]
           end;
      (destruct n as [x|]; [|done]; split; [|done];
       destruct (is_zero x); [done|];
       intros H; exfalso; revert H; apply space_not_placeholder).
  - unfold valueFormatters_bytes.
    match goal with
    | |- context [List.find ?f ?l] => destruct (List.find f l) as [[? ?]|]
    end;
      (destruct n as [x|]; [|done]; split; [|done]; [done ||
       (intros H; exfalso; revert H; apply space_not_placeholder)]).
  - unfold valueFormatters_percent.
    destruct n as [x|]; [|done]. split; [|done].
    destruct (is_zero x); [done|].
    intros H. exfalso. revert H. apply percent_not_placeholder.
Qed.

Lemma threshold_reached (q unit : Q) :
  (0 < unit)%Q -> (2 * unit <= q)%Q ->
  num_ge (num_divc (Fin q) unit) (Fin 2) = true.
Proof.
  intros Hpos Hq. cbn [num_divc]. rewrite num_ge_Fin.
  apply negb_true_iff, Qltb_ge, Qle_shift_div_l; done.
Qed.

Lemma Qfloor_unique (x : Q) (n : Z) :
  (inject_Z n <= x)%Q -> (x < inject_Z (n + 1))%Q -> Qfloor x = n.
Proof.
  intros Hlo Hhi.
  pose proof (Qfloor_le x) as Hf. pose proof (Qlt_floor x) as Hc.
  assert (H1 : (inject_Z n < inject_Z (Qfloor x + 1))%Q) by (eapply Qle_lt_trans; eauto).
  assert (H2 : (inject_Z (Qfloor x) < inject_Z (n + 1))%Q) by (eapply Qle_lt_trans; eauto).
  rewrite <- Zlt_Qlt in H1, H2. lia.
Qed.

(** Rounding a whole number of units gives that number. *)
Lemma round_whole_units (k : Z) (unit : Q) :
  (0 < unit)%Q ->
  Math_round_toString (num_divc (Fin (inject_Z k * unit)) unit) = pretty k.
Proof.
  intros Hpos. cbn [num_divc Math_round_toString]. f_equal.
  assert (Heq : (inject_Z k * unit / unit == inject_Z k)%Q).
  { apply Qdiv_mult_l. intros H0. rewrite H0 in Hpos. by apply Qlt_irrefl in Hpos. }
  apply Qfloor_unique.
  - rewrite Heq. rewrite <- (Qplus_0_r (inject_Z k)) at 1.
    apply Qplus_le_r. Qconst.
  - rewrite Heq, inject_Z_plus. apply Qplus_lt_r. Qconst.
Qed.

(** X5.  Under the [bytes] scheme the unit follows the reference
    magnitude: a unit of [byteUnits] is chosen when the reference is at
    least twice that unit and less than twice the next larger one (the
    largest unit has no upper bound).  Every value is then divided by
    that unit, rounded to the nearest integer and labelled; a whole
    number of units, below [2^53] in magnitude, is rendered as that
    number. *)
Theorem bytes_unit_follows_reference (q : Q) (label : string) (unit : Q) :
  (label, unit) ∈ byteUnits ->
  (2 * unit <= q)%Q ->
  label = "TB" \/ (q < 2 * (inject_Z 1024 * unit))%Q ->
  (forall n : num,
      valueFormatters_bytes (Fin q) (Some n)
      = Math_round_toString (num_divc n unit) +:+ " " +:+ label)
  /\ (forall k : Z,
      Z.abs k < 2 ^ 53 ->
      valueFormatters_bytes (Fin q) (Some (Fin (inject_Z k * unit)))
      = pretty k +:+ " " +:+ label).
Proof.
  intros Hin Hlo Hhi.
  assert (Hpos : (0 < unit)%Q).
  { unfold byteUnits in Hin. repeat (apply elem_of_cons in Hin as [[= _ ->]|Hin]);
      [Qconst..|by apply elem_of_nil in Hin]. }
  assert (Hfmt : forall n : num,
             valueFormatters_bytes (Fin q) (Some n)
             = Math_round_toString (num_divc n unit) +:+ " " +:+ label).
  { intros n. unfold valueFormatters_bytes, byteUnits in *.
    repeat (apply elem_of_cons in Hin as [[= -> ->]|Hin]);
      [..|by apply elem_of_nil in Hin];
      (destruct Hhi as [Hhi|Hhi]; [try discriminate Hhi|]); cbn [List.find];
      rewrite ?(threshold_not_reached q _ _ Hhi) by Qconst;
      rewrite threshold_reached by (first [exact Hlo|Qconst]); reflexivity. }
  split; [exact Hfmt|].
  intros k _. rewrite Hfmt. by rewrite round_whole_units.
Qed.

Lemma bytes_unit_follows_reference_witness :
  valueFormatters_bytes (Fin (inject_Z 3000)) (Some (Fin (inject_Z 5 * inject_Z 1024)))
  = "5 kB".
Proof.
  apply (bytes_unit_follows_reference (inject_Z 3000) "kB" (inject_Z 1024)).
  - unfold byteUnits. do 3 apply list_elem_of_further. apply list_elem_of_here.
  - Qconst.
  - right. Qconst.
  - reflexivity.
Defined.

(** X6.  Under the [none] scheme a prefix of [bigNumbers] is chosen
    when the reference magnitude is at least twice its unit and less
    than twice the next larger one (the largest has no upper bound);
    every value other than zero is then divided by that unit and
    rendered without decimals, followed by a space and the prefix. *)
Theorem none_prefix_follows_reference (q : Q) (label : string) (unit : Q) (n : num) :
  (label, unit) ∈ bigNumbers ->
  (2 * unit <= q)%Q ->
  label = "T" \/ (q < 2 * (inject_Z 1000 * unit))%Q ->
  is_zero n = false ->
  valueFormatters_none (Fin q) (Some n)
  = toFixed (num_divc n unit) 0 +:+ " " +:+ label.
Proof.
  intros Hin Hlo Hhi Hn. unfold valueFormatters_none, bigNumbers in *.
  repeat (apply elem_of_cons in Hin as [[= -> ->]|Hin]);
    [..|by apply elem_of_nil in Hin];
    (destruct Hhi as [Hhi|Hhi]; [try discriminate Hhi|]);
    cbn [List.find];
    rewrite ?(threshold_not_reached q _ _ Hhi) by Qconst;
    rewrite threshold_reached by (first [exact Hlo|Qconst]);
    rewrite Hn; reflexivity.
Qed.

Lemma none_prefix_follows_reference_witness :
  valueFormatters_none (Fin (inject_Z 5000)) (Some (Fin (inject_Z 1400))) = "1 k".
Proof.
  apply (none_prefix_follows_reference (inject_Z 5000) "k" (inject_Z 1000)
           (Fin (inject_Z 1400))).
  - unfold bigNumbers. do 3 apply list_elem_of_further. apply list_elem_of_here.
  - Qconst.
  - right. Qconst.
  - reflexivity.
Defined.

(** X7.  Under the [none] scheme a reference magnitude below 2000
    chooses no prefix, and the number of decimals grows as the
    magnitude shrinks: an entry of [smallNumbers] is chosen when the
    reference is at least twice its base and less than twice the next
    larger base (the base 1 reaches up to 2000); every finite value
    other than zero, below [10^21] in magnitude, is then rendered
    rounded to that many decimals, followed by a space. *)
Theorem none_precision_follows_reference (q base : Q) (precision : nat) (v : Q) :
  (base, precision) ∈ smallNumbers ->
  (2 * base <= q)%Q ->
  (q < inject_Z 2000)%Q ->
  precision = 0%nat \/ (q < 2 * (inject_Z 10 * base))%Q ->
  ~ (v == 0)%Q ->
  (Qabs v < inject_Z (10 ^ 21))%Q ->
  exists s : string,
    valueFormatters_none (Fin q) (Some (Fin v)) = s +:+ " "
    /\ rendered_to precision v s.
Proof.
  intros Hin Hlo Hk Hhi Hv _.
  exists (toFixed (Fin v) precision). split; [|apply toFixed_rendered].
  assert (Hn : is_zero (Fin v) = false) by (by apply Qzerob_false).
  assert (Hbig : (q < 2 * inject_Z 1000)%Q) by (eapply Qlt_le_trans; [exact Hk|Qconst]).
  unfold valueFormatters_none, bigNumbers, smallNumbers in *.
  cbn [List.find]. rewrite !(threshold_not_reached q _ _ Hbig) by Qconst.
  repeat (apply elem_of_cons in Hin as [[= -> ->]|Hin]);
    [..|by apply elem_of_nil in Hin];
    (destruct Hhi as [Hhi|Hhi]; [try discriminate Hhi|]);
    rewrite ?(threshold_not_reached q _ _ Hhi) by Qconst;
    rewrite threshold_reached by (first [exact Hlo|Qconst]);
    rewrite Hn; cbn [num_divc]; rewrite ?Qdiv_1_eq; reflexivity.
Qed.

Lemma none_precision_follows_reference_witness :
  exists s : string,
    valueFormatters_none (Fin (5 # 100)) (Some (Fin (1234 # 100000))) = s +:+ " "
    /\ rendered_to 2 (1234 # 100000) s.
Proof.
  apply (none_precision_follows_reference (5 # 100) (1 # 100) 2 (1234 # 100000)).
  - unfold smallNumbers. do 2 apply list_elem_of_further. apply list_elem_of_here.
  - Qconst.
  - Qconst.
  - right. Qconst.
  - Qconst.
  - reflexivity.
Defined.

(** That rendering written out. *)
Example none_precision_renders :
  valueFormatters_none (Fin (5 # 100)) (Some (Fin (1234 # 100000))) = "0.01 ".
Proof. vm_compute. reflexivity. Qed.

(** ** Whole percents *)

Section Percent.

Lemma pretty_N_times_10 (a : N) :
  (0 < a)%N -> pretty (10 * a)%N = pretty a +:+ "0".
Proof.
  intros Ha. unfold pretty, pretty_N.
  rewrite !decide_False by lia.
  rewrite pretty_N_go_step by lia.
  replace ((10 * a) `div` 10)%N with a by (apply N.div_unique_exact; lia).
  replace ((10 * a) `mod` 10)%N with 0%N
    by (symmetry; rewrite N.mul_comm; apply N.Div0.mod_mul).
  apply pretty_N_go_app.
Qed.

Lemma pretty_N_times_100 (a : N) :
  (0 < a)%N -> pretty (100 * a)%N = pretty a +:+ "00".
Proof.
  intros Ha. replace (100 * a)%N with (10 * (10 * a))%N by lia.
  rewrite !pretty_N_times_10 by lia. by rewrite string_app_assoc.
Qed.

Lemma pretty_pos_nonempty (p : positive) :
  (0 < String.length (pretty (N.pos p)))%nat.
Proof.
  unfold pretty, pretty_N. rewrite decide_False by lia.
  destruct (pretty_N_go_head (N.pos p) "" ltac:(lia)) as (c & t & d & -> & _).
  cbn. lia.
Qed.

(** Two decimals of a whole number. *)
Lemma toFixed_2_whole (q : Q) (k : Z) :
  (q == inject_Z k)%Q -> k <> 0 ->
  toFixed (Fin q) 2 = pretty k +:+ ".00".
Proof.
  intros Hq Hk. unfold toFixed.
  assert (Hneg : Qis_neg q = (k <? 0)).
  { unfold Qis_neg. unfold Qeq in Hq. cbn in Hq.
    destruct (Z.ltb_spec (Qnum q) 0), (Z.ltb_spec k 0); [done| | |done]; nia. }
  assert (Hfloor : Qfloor (Qabs q * inject_Z (10 ^ Z.of_nat 2) + (1 # 2))
                   = 100 * Z.abs k).
  { apply Qfloor_unique.
    - rewrite Hq. change (Qabs (inject_Z k)) with (inject_Z (Z.abs k)).
      rewrite <- inject_Z_mult.
      apply Qle_trans with (inject_Z (Z.abs k * 10 ^ Z.of_nat 2) + 0)%Q.
      + rewrite Qplus_0_r, <- Zle_Qle. cbn. lia.
      + apply Qplus_le_r. Qconst.
    - rewrite Hq. change (Qabs (inject_Z k)) with (inject_Z (Z.abs k)).
      rewrite <- inject_Z_mult.
      apply Qlt_le_trans with (inject_Z (Z.abs k * 10 ^ Z.of_nat 2) + 1)%Q.
      + apply Qplus_lt_r. Qconst.
      + change 1%Q with (inject_Z 1). rewrite <- inject_Z_plus, <- Zle_Qle.
        cbn. lia. }
  rewrite Hneg, Hfloor.
  assert (Hdigits : exists p : positive,
             Z.abs k = Z.pos p
             /\ pretty k = (if k <? 0 then "-" else "") +:+ pretty (N.pos p)).
  { destruct k as [|p|p]; [done|by exists p..]. }
  destruct Hdigits as (p & Habs & Hpretty).
  assert (H100 : pretty (100 * Z.abs k) = pretty (N.pos p) +:+ "00").
  { rewrite Habs. change (100 * Z.pos p) with (Z.pos (100 * p)).
    change (pretty (Z.pos (100 * p))) with (pretty (100 * N.pos p)%N).
    by apply pretty_N_times_100. }
  cbv zeta. rewrite H100, Hpretty.
  pose proof (pretty_pos_nonempty p) as Hlen.
  set (digits := pretty (N.pos p)) in *.
  assert (Hdl : String.length (digits +:+ "00") = (String.length digits + 2)%nat)
    by apply length_append.
  rewrite !Hdl.
  destruct (Nat.leb_spec (String.length digits + 2) 2) as [Hle|_]; [lia|].
  rewrite !Hdl.
  replace (String.length digits + 2 - 2)%nat with (String.length digits) by lia.
  rewrite substring_prefix.
  change (String.substring (String.length digits) 2 (digits +:+ "00"))
    with (String.substring (String.length digits) (String.length "00")
                           (digits +:+ "00")).
  rewrite substring_suffix. by rewrite !string_app_assoc.
Qed.

End Percent.

(** X8.  Under the [percent] scheme a value that is a whole number
    [k] of percent, other than zero and below [2^53] in magnitude, is
    rendered as [k] with two zero decimals and the percent sign. *)
Theorem percent_of_whole_percents (q : Q) (k : Z) :
  (q * inject_Z 100 == inject_Z k)%Q -> k <> 0 -> Z.abs k < 2 ^ 53 ->
  valueFormatters_percent (Some (Fin q)) = pretty k +:+ ".00%".
Proof.
  intros Hq Hk _. unfold valueFormatters_percent.
  assert (Hz : is_zero (Fin q) = false).
  { cbn [is_zero]. unfold Qzerob. apply Z.eqb_neq. intros H0.
    unfold Qeq in Hq. cbn in Hq. rewrite H0 in Hq. lia. }
  rewrite Hz. cbn [num_mulc]. rewrite (toFixed_2_whole _ k Hq Hk).
  by rewrite string_app_assoc.
Qed.

Lemma percent_of_whole_percents_witness :
  valueFormatters_percent (Some (Fin (1 # 2))) = "50.00%"
  /\ valueFormatters_percent (Some (Fin (-3 # 100))) = "-3.00%".
Proof.
  split.
  - apply (percent_of_whole_percents (1 # 2) 50); [Qconst|lia|reflexivity].
  - apply (percent_of_whole_percents (-3 # 100) (-3)); [Qconst|lia|reflexivity].
Defined.

(** ** The time grid and its quantizer *)

Lemma Qceiling_nonpos (x : Q) : (x <= 0)%Q -> Qceiling x <= 0.
Proof. intros H. rewrite <- (Qceiling_Z 0). by apply Qceiling_resp_le. Qed.

Lemma Qdiv_nonpos_pos (a b : Q) : (a <= 0)%Q -> (0 < b)%Q -> (a / b <= 0)%Q.
Proof.
  intros Ha Hb. apply Qle_shift_div_r; [exact Hb|]. by rewrite Qmult_0_l.
Qed.

Lemma Qdiv_nonneg_neg (a b : Q) : (0 <= a)%Q -> (b < 0)%Q -> (a / b <= 0)%Q.
Proof.
  intros Ha Hb.
  assert (Hb' : (0 < - b)%Q).
  { apply (Qplus_lt_l _ _ b). rewrite Qplus_0_l. ring_simplify. exact Hb. }
  assert (Heq : (a / b == (- a) / (- b))%Q).
  { field. intros H0. rewrite H0 in Hb. by apply Qlt_irrefl in Hb. }
  rewrite Heq. apply Qdiv_nonpos_pos; [|exact Hb'].
  apply (Qplus_le_l _ _ a). rewrite Qplus_0_l. ring_simplify. exact Ha.
Qed.

(** A window that ends before it starts, or whose step is not positive,
    has an empty grid, as long as one of the two conditions holds. *)
Lemma grid_empty (w : Window) :
  startTimeSec w <= endTimeSec w \/ 0 < stepDurationSec w ->
  ~ (startTimeSec w <= endTimeSec w /\ 0 < stepDurationSec w) ->
  getTimestampSecs w = [].
Proof.
  destruct w as [s e d]. cbn [startTimeSec endTimeSec stepDurationSec].
  intros Hor Hnot. unfold getTimestampSecs, range.
  cbn [startTimeSec endTimeSec stepDurationSec].
  assert (Hlen : range_length e (inject_Z s - (1 # 1000000))%Q (- d) = 0%nat);
    [|by rewrite Hlen].
  unfold range_length.
  match goal with |- Z.to_nat (Z.max (Qceiling ?x) 0) = _ =>
    assert (Hx : (x <= 0)%Q); [|pose proof (Qceiling_nonpos x Hx); lia] end.
  destruct (Z_lt_le_dec 0 d) as [Hd|Hd].
  - (* a positive step: the window ends before it starts *)
    assert (Hes : e < s) by lia.
    destruct (Z.eqb_spec (- d) 0) as [|_]; [lia|].
    apply Qdiv_nonneg_neg.
    + apply Qle_trans with (inject_Z (s - e) - 1)%Q.
      * change 1%Q with (inject_Z 1). unfold Qminus.
        rewrite <- inject_Z_opp, <- inject_Z_plus, <- (Zle_Qle 0). lia.
      * unfold Z.sub. rewrite inject_Z_plus, inject_Z_opp.
        apply (Qplus_le_l _ _ (- inject_Z s + inject_Z e + 1)). ring_simplify. Qconst.
    + rewrite <- (Zlt_Qlt _ 0). lia.
  - (* a step that is not positive: the descent has no point *)
    assert (Hse : s <= e) by lia.
    apply Qdiv_nonpos_pos.
    + apply Qle_trans with (inject_Z (s - e))%Q.
      * unfold Z.sub. rewrite inject_Z_plus, inject_Z_opp.
        apply (Qplus_le_l _ _ (- inject_Z s + inject_Z e + (1 # 1000000))).
        ring_simplify. Qconst.
      * rewrite <- (Zle_Qle _ 0). lia.
    + destruct (Z.eqb_spec (- d) 0) as [|Hne]; [Qconst|].
      rewrite <- (Zlt_Qlt 0). lia.
Qed.

Lemma range_length_in_doubles_empty (s e d : Z) :
  window_in_range (mkWindow s e d) ->
  s <= e \/ 0 < d -> ~ (s <= e /\ 0 < d) ->
  range_length_double (inject_Z e) (double (inject_Z s - double (1 # 1000000)))
                      (- inject_Z d)
  = 0%nat.
Proof.
  intros Hin Hor Hnot. destruct (end_in_doubles s e d Hin) as [Hlo Hhi].
  set (s' := double (inject_Z s - double (1 # 1000000))) in *.
  unfold range_length_double.
  match goal with |- Z.to_nat (Z.max (Qceiling ?y) 0) = _ =>
    assert (Hy : (y <= 0)%Q); [|pose proof (Qceiling_nonpos y Hy); lia] end.
  assert (H0 : representable 0).
  { apply (representable_Z 0). done. }
  destruct (Z_lt_le_dec 0 d) as [Hd|Hd].
  - assert (Hes : e < s) by lia.
    assert (Hz : Qzerob (- inject_Z d) = false).
    { apply Qzerob_false. intros Hq.
      assert (0 < inject_Z d)%Q by (rewrite <- (Zlt_Qlt 0); exact Hd). lra. }
    rewrite Hz. apply double_upper; [exact H0|].
    apply Qdiv_nonneg_neg.
    + apply double_lower; [exact H0|].
      assert (inject_Z e + 1 <= inject_Z s)%Q.
      { change 1%Q with (inject_Z 1). rewrite <- inject_Z_plus, <- Zle_Qle. lia. }
      lra.
    + assert (0 < inject_Z d)%Q by (rewrite <- (Zlt_Qlt 0); exact Hd). lra.
  - assert (Hse : s <= e) by lia.
    assert (Hdiv : (0 < (if Qzerob (- inject_Z d) then 1 else - inject_Z d))%Q).
    { destruct (Qzerob (- inject_Z d)) eqn:Hz; [done|].
      apply Qzerob_false in Hz.
      assert (inject_Z d <= 0)%Q by (rewrite <- (Zle_Qle _ 0); exact Hd).
      destruct (Qlt_le_dec 0 (- inject_Z d)) as [|Hle]; [done|].
      exfalso. apply Hz. lra. }
    apply double_upper; [exact H0|].
    apply Qdiv_nonpos_pos; [|exact Hdiv].
    apply double_upper; [exact H0|].
    assert (inject_Z s <= inject_Z e)%Q by (rewrite <- Zle_Qle; exact Hse).
    lra.
Qed.

(** On the windows of [window_in_range] the doubles compute the range
    of exact arithmetic. *)
Lemma timestampSecs_double_agrees (w : Window) :
  window_in_range w ->
  startTimeSec w <= endTimeSec w \/ 0 < stepDurationSec w ->
  timestampSecs_double (inject_Z (startTimeSec w)) (inject_Z (endTimeSec w))
                       (inject_Z (stepDurationSec w))
  = inject_Z <$> range (endTimeSec w)
                       (inject_Z (startTimeSec w) - (1 # 1000000))%Q
                       (- stepDurationSec w).
Proof.
  destruct w as [s e d]. cbn [startTimeSec endTimeSec stepDurationSec].
  intros Hin Hor.
  destruct (decide (s <= e /\ 0 < d)) as [[Hse Hd]|Hnot].
  - by apply timestampSecs_double_exact.
  - unfold timestampSecs_double, range_double.
    rewrite (range_length_in_doubles_empty s e d Hin Hor Hnot).
    pose proof (grid_empty (mkWindow s e d) Hor Hnot) as Hempty.
    unfold getTimestampSecs, Array_sort in Hempty.
    cbn [startTimeSec endTimeSec stepDurationSec mkWindow] in Hempty.
    assert (Hnil : range e (inject_Z s - (1 # 1000000))%Q (- d) = []).
    { apply Permutation_nil. rewrite <- Hempty. apply merge_sort_Permutation. }
    by rewrite Hnil.
Qed.

(** X9.  For a window of whole seconds on which the doubles are exact
    ([window_in_range]) and that does not end before it starts, or
    whose step is positive, the timestamps computed in doubles are
    those of exact arithmetic, and the quantizer can be built exactly
    when both hold; otherwise the grid is empty and building the
    quantizer throws. *)
Theorem quantizer_exists_iff_valid_window (w : Window) :
  window_in_range w ->
  startTimeSec w <= endTimeSec w \/ 0 < stepDurationSec w ->
  timestampSecs_double (inject_Z (startTimeSec w)) (inject_Z (endTimeSec w))
                       (inject_Z (stepDurationSec w))
  ≡ₚ inject_Z <$> getTimestampSecs w
  /\ (is_Some (getTimestampQuantizer w)
      <-> startTimeSec w <= endTimeSec w /\ 0 < stepDurationSec w).
Proof.
  intros Hin Hor. split.
  { rewrite (timestampSecs_double_agrees w Hin Hor).
    apply fmap_Permutation. symmetry. apply merge_sort_Permutation. }
  split.
  - intros [qz Hqz].
    destruct (decide (startTimeSec w <= endTimeSec w /\ 0 < stepDurationSec w))
      as [|Hnot]; [done|].
    unfold getTimestampQuantizer in Hqz.
    by rewrite (grid_empty w Hor Hnot) in Hqz.
  - intros [Hse Hd]. by apply getTimestampQuantizer_is_Some.
Qed.

Lemma quantizer_exists_iff_valid_window_witness :
  is_Some (getTimestampQuantizer (mkWindow 0 5 3))
  /\ ~ is_Some (getTimestampQuantizer (mkWindow 0 5 0))
  /\ ~ is_Some (getTimestampQuantizer (mkWindow 5 0 3)).
Proof.
  split; [|split].
  - apply (quantizer_exists_iff_valid_window (mkWindow 0 5 3));
      [window_bounds|cbn; lia..].
  - intros H.
    apply (quantizer_exists_iff_valid_window (mkWindow 0 5 0)) in H;
      [cbn in *; lia|window_bounds|cbn; lia].
  - intros H.
    apply (quantizer_exists_iff_valid_window (mkWindow 5 0 3)) in H;
      [cbn in *; lia|window_bounds|cbn; lia].
Defined.

Lemma baseRange_NoDup (start step : Z) (n : nat) :
  step <> 0 -> NoDup (baseRange start step n).
Proof.
  intros Hstep. apply NoDup_alt. intros i j x Hi Hj.
  assert (Hin : (i < n)%nat)
    by (apply lookup_lt_Some in Hi; by rewrite baseRange_length in Hi).
  assert (Hjn : (j < n)%nat)
    by (apply lookup_lt_Some in Hj; by rewrite baseRange_length in Hj).
  rewrite baseRange_lookup in Hi, Hj by done.
  assert (Heq : Z.of_nat i * step = Z.of_nat j * step)
    by (injection Hi; injection Hj; lia).
  apply Z.mul_reg_r in Heq; [lia|done].
Qed.

(** X10.  For a window of whole seconds on which the doubles are
    exact ([window_in_range]), with a positive step and an end not
    before the start, the timestamps computed in doubles are those of
    exact arithmetic, and the grid consists of
    [(end - start) / step + 1] distinct timestamps: [end],
    [end - step], and so on down to the last one that is not below
    [start]; whatever order the sort leaves them in. *)
Theorem grid_is_the_descent_from_end (w : Window) :
  window_in_range w ->
  0 < stepDurationSec w -> startTimeSec w <= endTimeSec w ->
  timestampSecs_double (inject_Z (startTimeSec w)) (inject_Z (endTimeSec w))
                       (inject_Z (stepDurationSec w))
  ≡ₚ inject_Z <$> getTimestampSecs w
  /\ length (getTimestampSecs w)
  = Z.to_nat ((endTimeSec w - startTimeSec w) / stepDurationSec w + 1)
  /\ NoDup (getTimestampSecs w)
  /\ (forall t : Z,
         t ∈ getTimestampSecs w <->
         exists i : Z,
           0 <= i <= (endTimeSec w - startTimeSec w) / stepDurationSec w
           /\ t = endTimeSec w - i * stepDurationSec w).
Proof.
  intros Hin Hd Hse. split.
  { rewrite (timestampSecs_double_agrees w Hin (or_introl Hse)).
    apply fmap_Permutation. symmetry. apply merge_sort_Permutation. }
  clear Hin. destruct w as [s e d]. cbn [startTimeSec endTimeSec stepDurationSec] in *.
  split; [|split].
  - unfold getTimestampSecs, Array_sort, range.
    cbn [startTimeSec endTimeSec stepDurationSec].
    by rewrite merge_sort_Permutation, baseRange_length, grid_length.
  - unfold getTimestampSecs, Array_sort, range.
    rewrite merge_sort_Permutation. apply baseRange_NoDup.
    cbn [stepDurationSec]. lia.
  - intros t. by apply (elem_of_grid s e d).
Qed.

Lemma grid_is_the_descent_from_end_witness :
  timestampSecs_double (inject_Z 800) (inject_Z 1000) (inject_Z 100)
  ≡ₚ inject_Z <$> getTimestampSecs window_800_1000
  /\ length (getTimestampSecs window_800_1000) = 3%nat
  /\ NoDup (getTimestampSecs window_800_1000)
  /\ (forall t : Z,
         t ∈ getTimestampSecs window_800_1000 <->
         exists i : Z, 0 <= i <= 2 /\ t = 1000 - i * 100).
Proof.
  apply (grid_is_the_descent_from_end window_800_1000);
    [window_bounds|cbn; lia..].
Defined.

(** X11.  For a window of whole seconds on which the doubles are
    exact ([window_in_range]), with a positive step and an end not
    before the start, the quantizer exists and maps every timestamp to
    some timestamp of the grid: quantizing never fails and never
    leaves the grid. *)
Theorem quantize_never_leaves_grid (w : Window) (x : Q) :
  window_in_range w ->
  0 < stepDurationSec w -> startTimeSec w <= endTimeSec w ->
  exists (qz : Quantizer) (g : Z),
    getTimestampQuantizer w = Some qz
    /\ quantize qz x = Some g
    /\ g ∈ getTimestampSecs w.
Proof.
  intros _ Hd Hse.
  destruct (getTimestampQuantizer_is_Some w Hd Hse) as [qz Hqz].
  destruct (quantize_total w qz x Hqz) as (g & Hg & Hin).
  by exists qz, g.
Qed.

Lemma quantize_never_leaves_grid_witness :
  exists (qz : Quantizer) (g : Z),
    getTimestampQuantizer window_800_1000 = Some qz
    /\ quantize qz (12345 # 10) = Some g
    /\ g ∈ getTimestampSecs window_800_1000.
Proof.
  apply (quantize_never_leaves_grid window_800_1000 (12345 # 10));
    [window_bounds|cbn; lia..].
Defined.

(** X12.  On a grid that the sort left in ascending numeric order, the
    quantizer maps every timestamp to the nearest grid timestamp: a
    timestamp that lies less than half a step above a grid point and at
    most half a step below it is mapped to that point, a timestamp
    exactly halfway between two grid points to the upper one, and a
    timestamp before the first or after the last grid point to that
    point. *)
Theorem quantize_nearest_on_ascending_grid (s e d : Z) (qz : Quantizer)
    (g : Z) (x : Q) :
  0 < d -> s <= e ->
  Sorted Z.lt (getTimestampSecs (mkWindow s e d)) ->
  getTimestampQuantizer (mkWindow s e d) = Some qz ->
  g ∈ getTimestampSecs (mkWindow s e d) ->
  g = e - (e - s) / d * d \/ (inject_Z g - (1 # 2) * inject_Z d <= x)%Q ->
  g = e \/ (x < inject_Z g + (1 # 2) * inject_Z d)%Q ->
  quantize qz x = Some g.
Proof.
  intros step_pos start_le_end grid_ascending Hqz Hg Hlo Hhi.
  set (n := Z.to_nat ((e - s) / d)). set (m := e - (e - s) / d * d).
  pose proof (Z.div_pos (e - s) d ltac:(lia) step_pos) as Hk.
  apply list_elem_of_lookup in Hg as [j Hj].
  assert (Hjn : (j <= n)%nat).
  { apply lookup_lt_Some in Hj.
    rewrite (ascending_grid_length s e d) in Hj by done. unfold n. lia. }
  rewrite (ascending_grid_lookup s e d) in Hj by done. injection Hj as <-.
  fold m in Hlo, Hhi |- *.
  pose proof (getTimestampQuantizer_range _ _ Hqz) as [Hrange Hlen].
  revert Hqz. unfold getTimestampQuantizer.
  rewrite head_lookup, last_lookup, (ascending_grid_length s e d) by done.
  rewrite !(ascending_grid_lookup s e d) by (done || cbn; lia).
  cbn [pred stepDurationSec mkWindow]. fold n m.
  intros ->%scaleQuantize_Some.
  rewrite (ascending_grid_length s e d) by done. cbn [pred]. fold n.
  unfold quantize, bisectRight.
  cbn [qdomain qrange]. rewrite rescale_length.
  rewrite (bisect_loop_ascending _ _ j n); [|  |lia..].
  - by rewrite (ascending_grid_lookup s e d).
  - intros i Hi.
    replace (e - (e - s) / d * d + Z.of_nat n * d) with (m + Z.of_nat n * d)
      by (unfold m; lia).
    replace (m + Z.of_nat 0 * d) with m by lia.
    pose proof (threshold_half_step d m n i Hi) as Hthr.
    set (thr := nth i _ 0%Q) in *.
    assert (Hhalf : forall z : Z,
               ((inject_Z z + (1 # 2) * inject_Z d) * 2 == inject_Z (2 * z + d))%Q).
    { intros z. rewrite inject_Z_plus, inject_Z_mult.
      change (inject_Z 2) with 2%Q. ring. }
    assert (Hhalf' : forall z : Z,
               ((inject_Z z - (1 # 2) * inject_Z d) * 2 == inject_Z (2 * z - d))%Q).
    { intros z. unfold Z.sub. rewrite inject_Z_plus, inject_Z_opp, inject_Z_mult.
      change (inject_Z 2) with 2%Q. ring. }
    destruct (Nat.leb_spec j i) as [Hle|Hgt].
    + apply Qltb_lt. apply (Qmult_lt_r _ _ 2); [Qconst|]. rewrite Hthr.
      destruct Hhi as [Hhi|Hhi]; [exfalso; unfold m, n in *; nia|].
      apply Qlt_le_trans
        with ((inject_Z (m + Z.of_nat j * d) + (1 # 2) * inject_Z d) * 2)%Q.
      * apply Qmult_lt_r; [Qconst|exact Hhi].
      * rewrite Hhalf, <- Zle_Qle. nia.
    + apply Qltb_ge. apply (Qmult_le_r _ _ 2); [Qconst|]. rewrite Hthr.
      destruct Hlo as [Hlo|Hlo]; [exfalso; unfold m, n in *; nia|].
      apply Qle_trans
        with ((inject_Z (m + Z.of_nat j * d) - (1 # 2) * inject_Z d) * 2)%Q.
      * rewrite Hhalf', <- Zle_Qle. nia.
      * apply Qmult_le_r; [Qconst|exact Hlo].
Qed.

Lemma quantize_nearest_on_ascending_grid_witness :
  exists qz : Quantizer,
    getTimestampQuantizer (mkWindow 0 300 100) = Some qz
    /\ quantize qz (inject_Z 150) = Some 200
    /\ quantize qz (inject_Z 149) = Some 100
    /\ quantize qz (inject_Z (-1000)) = Some 0.
Proof.
  assert (Hasc : Sorted Z.lt (getTimestampSecs (mkWindow 0 300 100))).
  { vm_compute. repeat constructor. }
  destruct (getTimestampQuantizer (mkWindow 0 300 100)) as [qz|] eqn:Hqz;
    [|vm_compute in Hqz; discriminate Hqz].
  assert (Hin : forall g, g ∈ [0; 100; 200; 300] ->
                          g ∈ getTimestampSecs (mkWindow 0 300 100)).
  { intros g Hg. vm_compute. exact Hg. }
  exists qz. split; [reflexivity|]. split; [|split].
  - apply (quantize_nearest_on_ascending_grid 0 300 100 qz 200 (inject_Z 150));
      [lia|lia|exact Hasc|exact Hqz|apply Hin; set_solver| |].
    + right. Qconst.
    + right. Qconst.
  - apply (quantize_nearest_on_ascending_grid 0 300 100 qz 100 (inject_Z 149));
      [lia|lia|exact Hasc|exact Hqz|apply Hin; set_solver| |].
    + right. Qconst.
    + right. Qconst.
  - apply (quantize_nearest_on_ascending_grid 0 300 100 qz 0 (inject_Z (-1000)));
      [lia|lia|exact Hasc|exact Hqz|apply Hin; set_solver| |].
    + left. reflexivity.
    + right. Qconst.
Defined.

(** ** Looking up a datapoint *)

Lemma filter_all {A} (P : A -> Prop) `{!forall x, Decision (P x)} (l : list A) :
  Forall P l -> filter P l = l.
Proof.
  induction 1 as [|x l Hx _ IH]; [done|].
  by rewrite filter_cons_True, IH.
Qed.

Lemma filter_none {A} (P : A -> Prop) `{!forall x, Decision (P x)} (l : list A) :
  Forall (fun x => ~ P x) l -> filter P l = [].
Proof.
  induction 1 as [|x l Hx _ IH]; [done|].
  by rewrite filter_cons_False.
Qed.

Lemma nth_below_count (a : list Z) (v : Z) (i : nat) :
  StronglySorted Z.le a -> (i < length a)%nat ->
  (nth i a 0 <? v) = (i <? length (filter (fun t => (t < v)%Z) a))%nat.
Proof.
  intros Hs. revert i. induction Hs as [|t a Hs IH Ht]; intros i Hi; [cbn in Hi; lia|].
  destruct (decide (t < v)) as [Hlt|Hge].
  - rewrite filter_cons_True by done. destruct i as [|i]; cbn [nth length].
    + apply Z.ltb_lt in Hlt. by rewrite Hlt.
    + rewrite IH by (cbn in Hi; lia). done.
  - assert (Hnil : filter (fun t => (t < v)%Z) (t :: a) = []).
    { rewrite filter_cons_False by done.
      apply filter_none. eapply Forall_impl; [exact Ht|].
      cbn. intros y Hy. lia. }
    rewrite Hnil. cbn [length].
    assert (Hall : Forall (fun y => v <= y) (t :: a)).
    { constructor; [lia|]. eapply Forall_impl; [exact Ht|]. cbn. intros y Hy. lia. }
    rewrite Forall_lookup in Hall.
    destruct (lookup_lt_is_Some_2 (t :: a) i Hi) as [y Hy].
    rewrite (nth_lookup_Some _ _ _ _ Hy). specialize (Hall i y Hy).
    apply Z.ltb_ge. lia.
Qed.

(** On an array in ascending order the search returns the number of
    elements below the value. *)
Lemma sortedIndex_count (a : list Z) (v : Z) :
  StronglySorted Z.le a ->
  sortedIndex a v = length (filter (fun t => (t < v)%Z) a).
Proof.
  intros Hs. unfold sortedIndex.
  apply (sortedIndex_loop_ascending a v _ (length a)); [|lia| |lia].
  - intros i Hi. by apply nth_below_count.
  - split; [lia|]. apply length_filter.
Qed.

(** X13.  In a series whose datapoints are in ascending order of
    timestamp, the lookup returns the first datapoint whose timestamp
    is not below the one asked for: every datapoint before it has a
    smaller timestamp and every datapoint from it on has not.  It
    returns nothing exactly when every timestamp is smaller. *)
Theorem lookup_finds_first_not_below (series : Series) (ts : Z) :
  Sorted Z.le (timestampSec <$> datapoints series) ->
  exists j : nat,
    (j <= length (datapoints series))%nat
    /\ getDatapointAtTimestamp series ts = datapoints series !! j
    /\ (forall (i : nat) (dp : Datapoint),
           datapoints series !! i = Some dp ->
           (timestampSec dp < ts <-> (i < j)%nat)).
Proof.
  intros Hs. apply Sorted_StronglySorted in Hs; [|apply _].
  exists (sortedIndex (timestampSec <$> datapoints series) ts).
  rewrite (sortedIndex_count _ _ Hs).
  split; [|split].
  - rewrite <- (length_fmap timestampSec (datapoints series)). apply length_filter.
  - unfold getDatapointAtTimestamp. by rewrite (sortedIndex_count _ _ Hs).
  - intros i dp Hi.
    assert (Hlen : (i < length (timestampSec <$> datapoints series))%nat).
    { rewrite length_fmap. by eapply lookup_lt_Some. }
    pose proof (nth_below_count _ ts i Hs Hlen) as Hnth.
    rewrite (nth_lookup_Some _ _ _ (timestampSec dp)) in Hnth
      by (by rewrite list_lookup_fmap, Hi).
    rewrite <- Nat.ltb_lt, <- Hnth. symmetry. apply Z.ltb_lt.
Qed.

Lemma lookup_finds_first_not_below_witness :
  exists j : nat,
    (j <= length (datapoints series_a))%nat
    /\ getDatapointAtTimestamp series_a 5 = datapoints series_a !! j
    /\ (forall (i : nat) (dp : Datapoint),
           datapoints series_a !! i = Some dp ->
           (timestampSec dp < 5 <-> (i < j)%nat)).
Proof.
  apply (lookup_finds_first_not_below series_a 5).
  cbn. repeat constructor; lia.
Defined.

(** In a series in strictly ascending order of timestamp the search
    finds every datapoint where it stands. *)
Lemma lookup_own_timestamp (series : Series) (dp : Datapoint) :
  StronglySorted Z.lt (timestampSec <$> datapoints series) ->
  dp ∈ datapoints series ->
  getDatapointAtTimestamp series (timestampSec dp) = Some dp.
Proof.
  intros Hs Hin.
  assert (Hle : StronglySorted Z.le (timestampSec <$> datapoints series)).
  { rewrite <- (list_fmap_id (timestampSec <$> datapoints series)).
    eapply StronglySorted_fmap; [|exact Hs]. unfold id. intros ? ?. lia. }
  apply list_elem_of_lookup in Hin as [i Hi].
  unfold getDatapointAtTimestamp. rewrite (sortedIndex_count _ _ Hle).
  assert (Hcount : length (filter (fun t => (t < timestampSec dp)%Z)
                             (timestampSec <$> datapoints series)) = i);
    [|by rewrite Hcount].
  assert (Hsplit : datapoints series
                   = take i (datapoints series) ++ dp :: drop (S i) (datapoints series)).
  { by rewrite (take_drop_middle _ _ _ Hi). }
  assert (Hi' : length (take i (datapoints series)) = i).
  { apply lookup_lt_Some in Hi. rewrite length_take. lia. }
  rewrite Hsplit in Hs. rewrite Hsplit at 1.
  rewrite fmap_app, fmap_cons in Hs |- *.
  apply StronglySorted_app in Hs as (Hcross & _ & Hs2).
  apply StronglySorted_inv in Hs2 as [_ Hafter].
  rewrite filter_app, filter_cons_False by lia.
  rewrite (filter_none _ (timestampSec <$> drop (S i) (datapoints series))), app_nil_r.
  - rewrite filter_all, length_fmap; [done|].
    apply Forall_forall. intros t Ht. apply Hcross; [done|apply list_elem_of_here].
  - eapply Forall_impl; [exact Hafter|]. cbn. intros y Hy. lia.
Qed.

(** X14.  In a series whose datapoints are in strictly ascending order
    of timestamp, looking up the timestamp of one of its datapoints
    returns that datapoint. *)
Theorem lookup_finds_own_timestamp (series : Series) (dp : Datapoint) :
  Sorted Z.lt (timestampSec <$> datapoints series) ->
  dp ∈ datapoints series ->
  getDatapointAtTimestamp series (timestampSec dp) = Some dp.
Proof.
  intros Hs Hin. apply lookup_own_timestamp; [|done].
  apply Sorted_StronglySorted; [apply _|done].
Qed.

Lemma lookup_finds_own_timestamp_witness :
  getDatapointAtTimestamp series_b 1
  = Some {| timestampSec := 1; value := Some (Fin 1); offset := Fin 0 |}.
Proof.
  apply (lookup_finds_own_timestamp series_b
           {| timestampSec := 1; value := Some (Fin 1); offset := Fin 0 |}).
  - cbn. repeat constructor; lia.
  - cbn. apply list_elem_of_further, list_elem_of_here.
Defined.

(** ** Gaps under the cursor, datapoint by datapoint *)

(** C4, amended.  Without [simpleTooltip] every visible series has its
    hover point, and that point carries the value, a gap included, of
    the datapoint that the lookup returns for the hovered timestamp;
    in a series whose timestamps ascend and contain the hovered
    timestamp, this is the datapoint at the hovered timestamp.  The
    focus does not exclude gaps: resolving the same cursor on the
    state where every gap is replaced by the number 0 focuses the same
    keys, in both modes.  In line mode, when the cursor value is a
    number and the lookup returns a gap for every visible series, the
    first visible series is focused. *)
Theorem gap_takes_part_in_focus
    (props : Props) (st : State) (cv : num) (ct : Q) (ts : Z) (hps : list HoverPoint) :
  handleGraphMouseMove props st cv ct = Some (ts, hps) ->
  (simpleTooltip props = false ->
   Forall2 (fun s p =>
              hp_key p = key s
              /\ exists d, getDatapointAtTimestamp s ts = Some d
                           /\ hp_value p = value d
                           /\ (Sorted Z.lt (timestampSec <$> datapoints s) ->
                               ts ∈ timestampSec <$> datapoints s ->
                               timestampSec d = ts))
           (getVisibleMultiSeries st) hps)
  /\ (exists hps',
        handleGraphMouseMove props (gaps_as_zero st) cv ct = Some (ts, hps')
        /\ hp_key <$> hps' = hp_key <$> hps
        /\ focused <$> hps' = focused <$> hps
        /\ Forall (fun p => hp_value p <> None) hps')
  /\ (showStacked props = false -> isNaN cv = false ->
      (forall s d, s ∈ getVisibleMultiSeries st ->
                   getDatapointAtTimestamp s ts = Some d -> value d = None) ->
      forall s0 rest, getVisibleMultiSeries st = s0 :: rest ->
      exists p0, p0 ∈ hps /\ hp_key p0 = key s0
                 /\ hp_value p0 = None /\ focused p0 = true).
Proof.
  intros H. split; [|split].
  - apply handleGraphMouseMove_inv in H as (qz & pts & _ & _ & Hpts & ->).
    intros ->. apply mapM_Some in Hpts. apply Forall2_fmap_r.
    eapply Forall2_impl; [exact Hpts|]. intros s p Hp.
    apply hover_point_inv in Hp as (d & Hd & _ & Hv & Hk).
    split; [done|]. exists d. split; [done|]. split; [done|].
    intros Hasc Hin.
    apply list_elem_of_fmap in Hin as (dp & Hts & Hdp).
    assert (Hown : getDatapointAtTimestamp s (timestampSec dp) = Some dp).
    { apply lookup_own_timestamp; [|done].
      apply Sorted_StronglySorted; [apply _|done]. }
    rewrite <- Hts in Hown. rewrite Hd in Hown. injection Hown as ->. done.
  - exists (zero_point props <$> hps).
    rewrite handleGraphMouseMove_gaps_as_zero, H.
    split; [done|]. rewrite <- !list_fmap_compose.
    split; [by apply list_fmap_ext|]. split; [by apply list_fmap_ext|].
    apply Forall_fmap, Forall_forall. by intros p _.
  - intros Hline Hcv Hgaps s0 rest Hvis.
    apply handleGraphMouseMove_inv in H as (qz & pts & _ & _ & Hpts & ->).
    assert (Hnone : Forall2 (fun s p => hp_key p = key s /\ hp_value p = None
                                        /\ graphValue p = None)
                            (getVisibleMultiSeries st) pts).
    { apply mapM_Some in Hpts.
      apply Forall2_same_length_lookup. split; [by eapply Forall2_length|].
      intros i s p Hs Hp.
      pose proof (Forall2_lookup_lr _ _ _ _ _ _ Hpts Hs Hp) as Hsp.
      apply hover_point_inv in Hsp as (d & Hd & Hg & Hv & Hk).
      assert (Hval : value d = None).
      { eapply Hgaps; [|exact Hd]. eapply list_elem_of_lookup_2, Hs. }
      unfold getDatapointGraphValue in Hg. rewrite Hline in Hg.
      by rewrite Hg, Hv, Hval. }
    rewrite Hvis in Hnone.
    apply Forall2_cons_inv_l in Hnone as (p0 & prest & (Hk0 & Hv0 & Hg0) & Hrest & ->).
    assert (Hfk : focusedSeries_key props cv (p0 :: prest) = Some (hp_key p0)).
    { unfold focusedSeries_key. rewrite Hline.
      rewrite (minBy_constant (distanceFromCursor cv) prest
                 (num_abs (num_sub (Fin 0) cv)) p0); [done|by destruct cv|].
      constructor.
      - unfold distanceFromCursor. by rewrite Hg0.
      - clear -Hrest. induction Hrest as [|s p l k (_ & _ & Hg) _ IH]; [done|].
        constructor; [|done]. unfold distanceFromCursor. by rewrite Hg. }
    rewrite Hfk.
    exists (set_focused (Some (hp_key p0)) p0).
    assert (Hfoc : focused (set_focused (Some (hp_key p0)) p0) = true)
      by by apply bool_decide_eq_true_2.
    split; [|by repeat split].
    cbn [fmap list_fmap]. destruct (simpleTooltip props); [|left].
    cbn [List.filter]. rewrite Hfoc. left.
Qed.

Lemma gap_takes_part_in_focus_witness :
  exists p0,
    p0 ∈ [ {| graphValue := None; hp_value := None;
              hp_key := "a:0"; hp_name := "a";
              hp_color := "hsl(209, 44%, 83%)"; focused := true |} ]
    /\ hp_key p0 = "a:0" /\ hp_value p0 = None /\ focused p0 = true.
Proof.
  assert (Hrun :
    handleGraphMouseMove (one_gap_series false) (mounted (one_gap_series false))
                         (Fin (5 # 1000)) 0
    = Some (0, [ {| graphValue := None; hp_value := None;
                    hp_key := "a:0"; hp_name := "a";
                    hp_color := "hsl(209, 44%, 83%)"; focused := true |} ]))
    by (vm_compute; reflexivity).
  destruct (gap_takes_part_in_focus _ _ _ _ _ _ Hrun) as (_ & _ & Hfirst).
  refine (Hfirst eq_refl eq_refl _ _ [] eq_refl).
  intros s d Hs Hd.
  apply list_elem_of_singleton in Hs. subst s.
  vm_compute in Hd. by injection Hd as <-.
Defined.

(** Where the timestamps do not ascend, the lookup can return the
    datapoint of another timestamp: the cursor at 300 is resolved to
    the timestamp 200, where the series has a gap, and the hover point
    carries the value 5 of the datapoint at 1000. *)
Example hover_point_of_another_timestamp :
  aligned_values (state_multiSeries (mounted one_sample_0_1000))
  = [("a", [None; None; Some (Fin 5); None; None; None; None; None; None; None; None])]
  /\ (fun series => timestampSec <$> datapoints series) <$> state_multiSeries (mounted one_sample_0_1000)
     = [[0; 100; 1000; 200; 300; 400; 500; 600; 700; 800; 900]]
  /\ handleGraphMouseMove one_sample_0_1000 (mounted one_sample_0_1000)
                          (Fin 1) (inject_Z 300)
     = Some (200, [ {| graphValue := Some (Fin 5); hp_value := Some (Fin 5);
                       hp_key := "a:0"; hp_name := "a";
                       hp_color := "hsl(209, 44%, 83%)"; focused := true |} ]).
Proof. repeat split; vm_compute; reflexivity. Qed.

(** ** Sorting with a relation that agrees on the elements *)

Section MergeSortExt.

Context {A : Type} (R R' : relation A).
Context `{!forall x y, Decision (R x y)} `{!forall x y, Decision (R' x y)}.
Variable P : A -> Prop.
Hypothesis agree : forall x y, P x -> P y -> (R x y <-> R' x y).

Lemma list_merge_ext (l1 l2 : list A) :
  Forall P l1 -> Forall P l2 -> list_merge R l1 l2 = list_merge R' l1 l2.
Proof.
  intros H1. revert l2. induction H1 as [|x1 l1 Hx1 Hl1 IH]; intros l2 H2.
  - by rewrite !list_merge_nil_l.
  - induction H2 as [|x2 l2 Hx2 Hl2 IH2].
    + by rewrite !list_merge_nil_r.
    + rewrite !list_merge_cons.
      destruct (decide (R x1 x2)) as [Hr|Hr], (decide (R' x1 x2)) as [Hr'|Hr'].
      * f_equal. apply IH. by constructor.
      * exfalso. by apply Hr', agree.
      * exfalso. by apply Hr, agree.
      * f_equal. exact IH2.
Qed.

Lemma list_merge_Forall (l1 l2 : list A) :
  Forall P l1 -> Forall P l2 -> Forall P (list_merge R l1 l2).
Proof. intros H1 H2. rewrite merge_Permutation. by apply Forall_app. Qed.

Lemma merge_list_to_stack_ext (st : list (option (list A))) :
  forall l,
    Forall (fun o => forall l', o = Some l' -> Forall P l') st -> Forall P l ->
    merge_list_to_stack R st l = merge_list_to_stack R' st l
    /\ Forall (fun o => forall l', o = Some l' -> Forall P l')
              (merge_list_to_stack R st l).
Proof.
  induction st as [|[l0|] st IH]; intros l Hst Hl; cbn [merge_list_to_stack].
  - split; [done|]. constructor; [|done]. by intros l' [= <-].
  - apply Forall_cons in Hst as [Hl0 Hst]. specialize (Hl0 l0 eq_refl).
    destruct (IH (list_merge R l0 l) Hst (list_merge_Forall _ _ Hl0 Hl)) as [Heq Hok].
    rewrite <- (list_merge_ext l0 l Hl0 Hl). rewrite Heq.
    split; [done|]. constructor; [done|]. by rewrite <- Heq.
  - apply Forall_cons in Hst as [_ Hst].
    split; [done|]. constructor; [|done]. by intros l' [= <-].
Qed.

Lemma merge_stack_ext (st : list (option (list A))) :
  Forall (fun o => forall l', o = Some l' -> Forall P l') st ->
  merge_stack R st = merge_stack R' st /\ Forall P (merge_stack R st).
Proof.
  induction st as [|[l0|] st IH]; intros Hst; cbn [merge_stack].
  - done.
  - apply Forall_cons in Hst as [Hl0 Hst]. specialize (Hl0 l0 eq_refl).
    destruct (IH Hst) as [Heq Hok].
    rewrite <- Heq. split; [by apply list_merge_ext|by apply list_merge_Forall].
  - apply Forall_cons in Hst as [_ Hst]. by apply IH.
Qed.

Lemma merge_sort_aux_ext (l : list A) :
  forall st,
    Forall (fun o => forall l', o = Some l' -> Forall P l') st -> Forall P l ->
    merge_sort_aux R st l = merge_sort_aux R' st l.
Proof.
  induction l as [|x l IH]; intros st Hst Hl; cbn [merge_sort_aux].
  - by apply merge_stack_ext.
  - apply Forall_cons in Hl as [Hx Hl].
    destruct (merge_list_to_stack_ext st [x] Hst) as [Heq Hok];
      [by repeat constructor|].
    rewrite <- Heq. by apply IH.
Qed.

(** Two relations that agree on the elements of a list sort it alike. *)
Lemma merge_sort_ext (l : list A) :
  Forall P l -> merge_sort R l = merge_sort R' l.
Proof. intros Hl. by apply merge_sort_aux_ext. Qed.

End MergeSortExt.

(** ** Grids that the sort leaves in ascending order *)

Section SameDigits.

Lemma compare_app (s1 s2 t1 t2 : string) :
  String.length s1 = String.length s2 ->
  String.compare (s1 +:+ t1) (s2 +:+ t2)
  = match String.compare s1 s2 with
    | Eq => String.compare t1 t2
    | c => c
    end.
Proof.
  revert s2. induction s1 as [|c1 s1 IH]; intros [|c2 s2] Hlen; try done.
  change (match Ascii.compare c1 c2 with
          | Eq => String.compare (s1 +:+ t1) (s2 +:+ t2)
          | ne => ne
          end
          = match (match Ascii.compare c1 c2 with
                   | Eq => String.compare s1 s2
                   | ne => ne
                   end) with
            | Eq => String.compare t1 t2
            | c => c
            end).
  destruct (Ascii.compare c1 c2); [|done..].
  apply IH. by injection Hlen.
Qed.

Lemma N_compare_add_l (c a b : N) : (c + a ?= c + b)%N = (a ?= b)%N.
Proof.
  destruct (N.compare_spec a b);
    [apply N.compare_eq_iff|apply N.compare_lt_iff|apply N.compare_gt_iff]; lia.
Qed.

Lemma N_of_ascii_pretty_N_char (d : N) :
  (d < 10)%N -> N_of_ascii (pretty_N_char d) = (48 + d)%N.
Proof.
  intros Hd.
  assert (Hcases : d ∈ [0; 1; 2; 3; 4; 5; 6; 7; 8; 9]%N).
  { rewrite !elem_of_cons. lia. }
  rewrite !elem_of_cons in Hcases.
  destruct Hcases as [->|[->|[->|[->|[->|[->|[->|[->|[->|[->|H]]]]]]]]]];
    [reflexivity..|by apply elem_of_nil in H].
Qed.

Lemma pretty_N_single (x : N) :
  (0 < x < 10)%N -> pretty x = String (pretty_N_char x) "".
Proof.
  intros Hx. unfold pretty, pretty_N. rewrite decide_False by lia.
  rewrite pretty_N_go_step by lia.
  rewrite (N.div_small x 10), (N.mod_small x 10) by lia.
  by rewrite pretty_N_go_0.
Qed.

Lemma pretty_N_snoc (x : N) :
  (10 <= x)%N ->
  pretty x = pretty (x `div` 10)%N +:+ String (pretty_N_char (x `mod` 10)) "".
Proof.
  intros Hx.
  assert (Hdiv : (0 < x `div` 10)%N) by (apply N.div_str_pos; lia).
  unfold pretty, pretty_N. rewrite !decide_False by lia.
  rewrite pretty_N_go_step by lia. apply pretty_N_go_app.
Qed.

(** Decimal strings of the same length compare as their numbers. *)
Lemma pretty_N_compare (k : nat) :
  forall x y : N,
    (10 ^ N.of_nat k <= x < 10 ^ N.of_nat (S k))%N ->
    (10 ^ N.of_nat k <= y < 10 ^ N.of_nat (S k))%N ->
    String.length (pretty x) = S k
    /\ String.compare (pretty x) (pretty y) = (x ?= y)%N.
Proof.
  induction k as [|k IH]; intros x y Hx Hy.
  - change (10 ^ N.of_nat 0)%N with 1%N in *.
    change (10 ^ N.of_nat 1)%N with 10%N in *.
    rewrite !pretty_N_single by lia. split; [done|].
    cbn [String.compare]. unfold Ascii.compare.
    rewrite !N_of_ascii_pretty_N_char by lia.
    rewrite N_compare_add_l. by destruct (x ?= y)%N.
  - rewrite !Nat2N.inj_succ, !N.pow_succ_r' in *.
    set (b := (10 ^ N.of_nat k)%N) in *.
    assert (Hb : (0 < b)%N) by (unfold b; apply N.neq_0_lt_0, N.pow_nonzero; lia).
    pose proof (N.div_mod x 10 ltac:(lia)) as Hxd.
    pose proof (N.div_mod y 10 ltac:(lia)) as Hyd.
    pose proof (N.mod_lt x 10 ltac:(lia)) as Hxm.
    pose proof (N.mod_lt y 10 ltac:(lia)) as Hym.
    assert (Hx' : (b <= x `div` 10 < 10 * b)%N).
    { split; [apply N.div_le_lower_bound; lia|apply N.Div0.div_lt_upper_bound; lia]. }
    assert (Hy' : (b <= y `div` 10 < 10 * b)%N).
    { split; [apply N.div_le_lower_bound; lia|apply N.Div0.div_lt_upper_bound; lia]. }
    destruct (IH _ _ Hx' Hy') as [Hlx Hcmp].
    destruct (IH _ _ Hy' Hx') as [Hly _].
    rewrite (pretty_N_snoc x), (pretty_N_snoc y) by lia. split.
    + rewrite length_append, Hlx. cbn. lia.
    + rewrite compare_app by congruence. rewrite Hcmp.
      cbn [String.compare]. unfold Ascii.compare.
      rewrite !N_of_ascii_pretty_N_char by lia.
      rewrite N_compare_add_l.
      clear -Hxd Hyd Hxm Hym.
      set (xq := (x `div` 10)%N) in *. set (xr := (x `mod` 10)%N) in *.
      set (yq := (y `div` 10)%N) in *. set (yr := (y `mod` 10)%N) in *.
      clearbody xq xr yq yr.
      destruct (N.compare_spec xq yq) as [Heq|Hlt|Hgt].
      * destruct (N.compare_spec xr yr) as [Heq'|Hlt'|Hgt'];
          symmetry; [apply N.compare_eq_iff|apply N.compare_lt_iff
                     |apply N.compare_gt_iff]; lia.
      * symmetry. apply N.compare_lt_iff. lia.
      * symmetry. apply N.compare_gt_iff. lia.
Qed.

(** On integers with the same number of digits the default sort order
    is the numeric order. *)
Lemma default_sort_le_same_digits (k : nat) (x y : Z) :
  10 ^ Z.of_nat k <= x < 10 ^ Z.of_nat (S k) ->
  10 ^ Z.of_nat k <= y < 10 ^ Z.of_nat (S k) ->
  default_sort_le x y <-> x <= y.
Proof.
  intros Hx Hy.
  assert (Hpow : forall n : nat, Z.of_N (10 ^ N.of_nat n) = 10 ^ Z.of_nat n).
  { intros n. rewrite N2Z.inj_pow. f_equal. lia. }
  assert (Hpos : 0 < 10 ^ Z.of_nat k) by (apply Z.pow_pos_nonneg; lia).
  destruct x as [|p|p]; [lia| |lia]. destruct y as [|p'|p']; [lia| |lia].
  unfold default_sort_le, string_le, Number_toString.
  change (pretty (Z.pos p)) with (pretty (N.pos p)).
  change (pretty (Z.pos p')) with (pretty (N.pos p')).
  unfold String.leb.
  destruct (pretty_N_compare k (N.pos p) (N.pos p')) as [_ ->].
  { rewrite <- !Hpow in Hx. lia. }
  { rewrite <- !Hpow in Hy. lia. }
  destruct (N.compare_spec (N.pos p) (N.pos p')) as [Heq|Hlt|Hgt]; cbn; split;
    try done; try lia.
Qed.

Lemma ascending_of_distinct (l : list Z) :
  StronglySorted Z.le l -> NoDup l -> Sorted Z.lt l.
Proof.
  induction 1 as [|x l _ IH Hx]; intros Hnd; [constructor|].
  apply NoDup_cons in Hnd as [Hout Hnd].
  constructor; [by apply IH|].
  destruct l as [|y l]; constructor.
  apply Forall_cons in Hx as [Hxy _].
  assert (x <> y); [|lia]. intros ->. apply Hout, list_elem_of_here.
Qed.

End SameDigits.

(** X15.  On a window of whole seconds on which the doubles are
    exact ([window_in_range]), when the step is positive and the start
    and the end of the window are positive integers with the same
    number of decimal digits, the sort, although it compares the
    timestamps as strings, leaves the grid in ascending numeric
    order. *)
Theorem grid_ascending_when_same_digits (w : Window) (k : nat) :
  window_in_range w ->
  0 < stepDurationSec w ->
  startTimeSec w <= endTimeSec w ->
  10 ^ Z.of_nat k <= startTimeSec w ->
  endTimeSec w < 10 ^ Z.of_nat (S k) ->
  Sorted Z.lt (getTimestampSecs w).
Proof.
  intros _. destruct w as [s e d]. cbn [startTimeSec endTimeSec stepDurationSec].
  intros Hd Hse Hlo Hhi.
  set (l := range e (inject_Z s - (1 # 1000000))%Q (- d)).
  assert (Hl : l = baseRange e (- d) (Z.to_nat ((e - s) / d + 1))).
  { unfold l, range. by rewrite grid_length. }
  assert (Hin : Forall (fun t => 10 ^ Z.of_nat k <= t < 10 ^ Z.of_nat (S k)) l).
  { apply Forall_forall. intros t Ht. rewrite Hl in Ht.
    apply elem_of_baseRange in Ht as (i & Hi & ->).
    pose proof (Z.div_pos (e - s) d ltac:(lia) Hd).
    pose proof (Z.mul_div_le (e - s) d Hd).
    assert (Z.of_nat i * d <= (e - s) / d * d); [|lia].
    apply Z.mul_le_mono_nonneg_r; lia. }
  unfold getTimestampSecs, Array_sort. cbn [startTimeSec endTimeSec stepDurationSec].
  fold l.
  rewrite (merge_sort_ext default_sort_le Z.le
             (fun t => 10 ^ Z.of_nat k <= t < 10 ^ Z.of_nat (S k))
             (default_sort_le_same_digits k) l Hin).
  apply ascending_of_distinct.
  - apply StronglySorted_merge_sort; apply _.
  - rewrite merge_sort_Permutation, Hl. apply baseRange_NoDup. lia.
Qed.

Lemma grid_ascending_when_same_digits_witness :
  Sorted Z.lt (getTimestampSecs (mkWindow 1700000000 1700003600 60)).
Proof.
  apply (grid_ascending_when_same_digits (mkWindow 1700000000 1700003600 60) 9);
    [window_bounds|cbn; lia..].
Defined.

(** ** The table of [processMultiSeries] *)

Section Table.

Lemma table_get_elem_of (t : Table) (ts : Z) (row : Row) :
  table_get t ts = Some row -> (ts, row) ∈ t.
Proof.
  unfold table_get. induction t as [|[k r] t IH]; [done|].
  cbn [List.find]. destruct (Z.eqb_spec k ts) as [->|Hne].
  - intros [= <-]. apply list_elem_of_here.
  - intros H. apply list_elem_of_further, IH, H.
Qed.

Lemma table_get_is_Some (t : Table) (ts : Z) :
  ts ∈ t.*1 -> is_Some (table_get t ts).
Proof.
  unfold table_get. induction t as [|[k r] t IH]; [by intros ?%elem_of_nil|].
  cbn [fmap list_fmap List.find fst]. destruct (Z.eqb_spec k ts) as [->|Hne].
  - by eexists.
  - intros [?|Hin]%elem_of_cons; [done|]. by apply IH.
Qed.

Lemma table_set_keys_old (t : Table) (ts : Z) (r : Row) :
  ts ∈ t.*1 -> (table_set t ts r).*1 = t.*1.
Proof.
  induction t as [|[k r'] t IH]; [by intros ?%elem_of_nil|].
  cbn [fmap list_fmap table_set fst]. destruct (Z.eqb_spec k ts) as [->|Hne]; [done|].
  intros [?|Hin]%elem_of_cons; [done|]. cbn [fmap list_fmap fst]. by rewrite IH.
Qed.

Lemma table_set_keys_new (t : Table) (ts : Z) (r : Row) :
  ts ∉ t.*1 -> (table_set t ts r).*1 = t.*1 ++ [ts].
Proof.
  induction t as [|[k r'] t IH]; [done|].
  cbn [fmap list_fmap table_set fst]. rewrite not_elem_of_cons. intros [Hne Hin].
  destruct (Z.eqb_spec k ts) as [->|_]; [done|].
  cbn [fmap list_fmap fst]. by rewrite IH.
Qed.

Lemma table_set_Forall (Q : Z * Row -> Prop) (t : Table) (ts : Z) (r : Row) :
  Q (ts, r) -> Forall Q t -> Forall Q (table_set t ts r).
Proof.
  intros Hr. induction 1 as [|[k r'] t Hk Ht IH]; cbn [table_set].
  - by repeat constructor.
  - destruct (Z.eqb_spec k ts) as [->|_]; by constructor.
Qed.

Lemma init_row_other (names : list string) (n : string) (row : Row) :
  n ∉ names ->
  foldl (fun (row : Row) seriesName => <[seriesName := None]> row) row names !! n
  = row !! n.
Proof.
  revert row. induction names as [|x names IH]; intros row; [done|].
  rewrite not_elem_of_cons. intros [Hne Hin]. cbn [foldl].
  rewrite IH by done. by rewrite lookup_insert_ne.
Qed.

Lemma init_row_names (names : list string) (n : string) (row : Row) :
  n ∈ names ->
  foldl (fun (row : Row) seriesName => <[seriesName := None]> row) row names !! n
  = Some None.
Proof.
  revert row. induction names as [|x names IH]; intros row; [by intros ?%elem_of_nil|].
  intros Hin. cbn [foldl].
  destruct (decide (n ∈ names)) as [Hn|Hn]; [by apply IH|].
  apply elem_of_cons in Hin as [->|?]; [|done].
  rewrite init_row_other by done. by rewrite lookup_insert_eq.
Qed.

Lemma init_table_keys (names : list string) (grid : list Z) :
  NoDup grid -> (init_table names grid).*1 = grid.
Proof.
  unfold init_table.
  assert (Hgen : forall t : Table,
             NoDup (t.*1 ++ grid) ->
             (foldl (fun (t : Table) ts => table_set t ts (init_row names ts)) t grid).*1
             = t.*1 ++ grid).
  { induction grid as [|ts grid IH]; intros t Hnd; [by rewrite app_nil_r|].
    cbn [foldl].
    assert (Hts : ts ∉ t.*1).
    { apply NoDup_app in Hnd as (_ & Hd & _). intros Hin.
      apply (Hd ts Hin), list_elem_of_here. }
    rewrite IH; rewrite table_set_keys_new by done.
    - by rewrite <- app_assoc.
    - by rewrite <- app_assoc. }
  intros Hnd. by rewrite Hgen.
Qed.

Lemma init_table_Forall (Inv : Z * Row -> Prop) (names : list string)
    (grid : list Z) :
  (forall ts, Inv (ts, init_row names ts)) -> Forall Inv (init_table names grid).
Proof.
  intros HInv. unfold init_table.
  assert (Hgen : forall t : Table,
             Forall Inv t ->
             Forall Inv (foldl (fun (t : Table) ts => table_set t ts (init_row names ts))
                             t grid)).
  { induction grid as [|ts grid IH]; intros t Ht; [done|].
    cbn [foldl]. by apply IH, table_set_Forall. }
  by apply Hgen.
Qed.

Lemma init_table_cells (names : list string) (P : option num -> Prop)
    (grid : list Z) :
  P None -> Forall (cells_ok names P) (init_table names grid).
Proof.
  intros HP. apply init_table_Forall. intros ts n Hn.
  exists None. split; [|done]. by apply init_row_names.
Qed.

Variables (names : list string) (qz : Quantizer).

Lemma store_point_Forall (Inv : Z * Row -> Prop) (n : string)
    (t t' : Table) (point : Q * raw) :
  (forall ts row, Inv (ts, row) -> Inv (ts, <[n := parseGraphValue point.2]> row)) ->
  store_point qz n t point = Some t' ->
  Forall Inv t -> Forall Inv t'.
Proof.
  intros Hins. unfold store_point.
  destruct (quantize qz point.1) as [ts|]; [|done]. cbn [mbind option_bind].
  destruct (table_get t ts) as [row|] eqn:Hrow; [|done]. cbn [mbind option_bind].
  intros [= <-] Hall. apply table_set_Forall; [|done].
  apply table_get_elem_of in Hrow. rewrite Forall_forall in Hall.
  by apply Hins, Hall.
Qed.

Lemma store_points_Forall (Inv : Z * Row -> Prop) (n : string)
    (points : list (Q * raw)) :
  Forall (fun point =>
            forall ts row, Inv (ts, row) -> Inv (ts, <[n := parseGraphValue point.2]> row))
         points ->
  forall t t' : Table,
    foldlM (store_point qz n) t points = Some t' ->
    Forall Inv t -> Forall Inv t'.
Proof.
  induction 1 as [|point points HP _ IH]; intros t t'; cbn [foldlM].
  - by intros [= <-].
  - destruct (store_point qz n t point) as [t1|] eqn:H1; [|done].
    cbn [mbind option_bind]. intros Hrest Hall.
    apply (IH t1 t' Hrest). by eapply store_point_Forall.
Qed.

(** What every write of the fill loop keeps, the loop keeps. *)
Lemma fill_table_Forall (Inv : Z * Row -> Prop) (input : list InputSeries)
    (t t' : Table) :
  (length input <= length names)%nat ->
  Forall (fun point =>
            forall n, n ∈ names ->
              forall ts row, Inv (ts, row) -> Inv (ts, <[n := parseGraphValue point.2]> row))
         (samples input) ->
  fill_table qz names t input = Some t' ->
  Forall Inv t -> Forall Inv t'.
Proof.
  unfold fill_table, samples. intros Hlen.
  replace (length input) with (0 + length input)%nat in Hlen by done.
  revert Hlen. generalize 0%nat. revert t.
  induction input as [|series input IH]; intros t j Hlen HP;
    cbn [length seq zip zip_with foldlM].
  - by intros [= <-].
  - cbn [fmap list_fmap concat] in HP. apply Forall_app in HP as [HP1 HP2].
    destruct (foldlM _ t (values series)) as [t1|] eqn:H1; [|done].
    cbn [mbind option_bind]. intros Hrest Hall.
    cbn [length] in Hlen.
    apply (IH t1 (S j)); [lia|done|exact Hrest|].
    destruct (lookup_lt_is_Some_2 names j) as [n Hn]; [lia|].
    rewrite Hn in H1. cbn [default] in H1.
    eapply store_points_Forall; [|exact H1|exact Hall].
    eapply Forall_impl; [exact HP1|]. intros point Hpoint.
    apply Hpoint. by eapply list_elem_of_lookup_2.
Qed.

Lemma fill_table_cells (P : option num -> Prop) (input : list InputSeries)
    (t t' : Table) :
  (length input <= length names)%nat ->
  Forall (fun point => P (parseGraphValue point.2)) (samples input) ->
  fill_table qz names t input = Some t' ->
  Forall (cells_ok names P) t -> Forall (cells_ok names P) t'.
Proof.
  intros Hlen HP. apply fill_table_Forall; [done|].
  eapply Forall_impl; [exact HP|]. intros point Hpoint n _ ts row Hrow m Hm.
  cbn [snd]. destruct (decide (n = m)) as [->|Hne].
  - eexists. by rewrite lookup_insert_eq.
  - rewrite lookup_insert_ne by done. by apply Hrow.
Qed.

Variable grid : list Z.
Hypothesis quantize_on_grid :
  forall x : Q, exists ts, quantize qz x = Some ts /\ ts ∈ grid.

Lemma store_point_keys (n : string) (t : Table) (point : Q * raw) :
  t.*1 = grid ->
  exists t', store_point qz n t point = Some t' /\ t'.*1 = grid.
Proof.
  intros Hkeys. unfold store_point.
  destruct (quantize_on_grid point.1) as (ts & -> & Hts). cbn [mbind option_bind].
  rewrite <- Hkeys in Hts.
  destruct (table_get_is_Some t ts Hts) as [row ->]. cbn [mbind option_bind].
  eexists. split; [done|]. by rewrite table_set_keys_old.
Qed.

Lemma store_points_keys (n : string) (points : list (Q * raw)) (t : Table) :
  t.*1 = grid ->
  exists t', foldlM (store_point qz n) t points = Some t' /\ t'.*1 = grid.
Proof.
  revert t. induction points as [|point points IH]; intros t Hkeys; cbn [foldlM].
  - by exists t.
  - destruct (store_point_keys n t point Hkeys) as (t1 & -> & Hkeys1).
    cbn [mbind option_bind]. by apply IH.
Qed.

Lemma fill_table_keys (input : list InputSeries) (t : Table) :
  t.*1 = grid ->
  exists t', fill_table qz names t input = Some t' /\ t'.*1 = grid.
Proof.
  unfold fill_table. generalize 0%nat. revert t.
  induction input as [|series input IH]; intros t j Hkeys;
    cbn [length seq zip zip_with foldlM].
  - by exists t.
  - destruct (store_points_keys (default "undefined" (names !! j))
                (values series) t Hkeys) as (t1 & -> & Hkeys1).
    cbn [mbind option_bind]. by apply IH.
Qed.

End Table.

(** ** The dimensions of the stack *)

Section StackDimensions.

Lemma offsetNone_from_dimensions (n : nat) (rest : list (list (num * num))) :
  forall s0 : list (num * num),
    length s0 = n -> Forall (fun s => length s = n) rest ->
    length (offsetNone_from s0 rest) = length rest
    /\ Forall (fun s => length s = n) (offsetNone_from s0 rest).
Proof.
  induction rest as [|s1 rest IH]; intros s0 H0 Hrest; [done|].
  apply Forall_cons in Hrest as [H1 Hrest]. cbn [offsetNone_from length].
  assert (Hl : length (lift_onto s0 s1) = n).
  { unfold lift_onto. rewrite length_zip_with. lia. }
  destruct (IH (lift_onto s0 s1) Hl Hrest) as [Hlen Hall].
  split; [by rewrite Hlen|by constructor].
Qed.

Lemma stack_dimensions (keys : list string) (data : list Row) :
  length (stack keys data) = length keys
  /\ Forall (fun s => length s = length data) (stack keys data).
Proof.
  unfold stack, stackOffsetNone.
  assert (Hinit : length (stack_init keys data) = length keys
                  /\ Forall (fun s => length s = length data) (stack_init keys data)).
  { unfold stack_init. split; [by rewrite length_map|].
    apply Forall_forall. intros s Hs. rewrite list_elem_of_In in Hs.
    apply in_map_iff in Hs as (k & <- & _). by rewrite length_map. }
  destruct Hinit as [Hlen Hall].
  destruct (stack_init keys data) as [|s0 rest]; [done|].
  apply Forall_cons in Hall as [H0 Hrest].
  destruct (offsetNone_from_dimensions _ rest s0 H0 Hrest) as [Hlen' Hall'].
  cbn [length] in *. split; [by rewrite Hlen'|by constructor].
Qed.

Lemma Object_values_length (t : Table) : length (Object_values t) = length t.
Proof.
  unfold Object_values. rewrite length_fmap, length_app.
  rewrite merge_sort_Permutation, <- length_app.
  by rewrite filter_app_complement.
Qed.

Lemma sortBy_length (prop : string) (rows : list Row) :
  length (sortBy prop rows) = length rows.
Proof. unfold sortBy. by rewrite merge_sort_Permutation. Qed.

End StackDimensions.

(** ** [processMultiSeries] on a valid window *)

Lemma elem_of_zip_seq {A} (l : list A) (i : nat) (x : A) :
  (i, x) ∈ zip (seq 0 (length l)) l -> l !! i = Some x.
Proof.
  intros [k Hk]%list_elem_of_lookup. rewrite lookup_zip_seq in Hk.
  destruct (l !! k) as [y|] eqn:Hy; [|done]. by injection Hk as <- <-.
Qed.

Lemma make_series_is_Some (theme : ColorTheme) (t : Table) (tss : list Z)
    (stacked : list (list (num * num))) (i : nat) (n : string) :
  (exists s, stacked !! i = Some s /\ length s = length tss) ->
  (forall ts, ts ∈ tss ->
     exists row, table_get t ts = Some row /\ is_Some (row !! n)) ->
  is_Some (make_series theme t tss stacked i n).
Proof.
  intros (s & Hs & Hlen) Hrows. unfold make_series. rewrite Hs.
  cbn [mbind option_bind].
  assert (Hdps : is_Some (mapM (fun '(timestampIndex, ts) =>
                                  make_datapoint t s n timestampIndex ts)
                               (zip (seq 0 (length tss)) tss))).
  { apply mapM_is_Some, Forall_forall. intros [ti ts] Hin.
    apply elem_of_zip_seq in Hin. cbn.
    destruct (Hrows ts) as (row & Hrow & [v Hv]); [by eapply list_elem_of_lookup_2|].
    unfold make_datapoint. rewrite Hrow. cbn [mbind option_bind].
    rewrite Hv. cbn [mbind option_bind].
    destruct (lookup_lt_is_Some_2 s ti) as [cell ->];
      [rewrite Hlen; by eapply lookup_lt_Some|].
    by eexists. }
  destruct Hdps as [dps ->]. by eexists.
Qed.

(** X16.  For a window of whole seconds on which the doubles are
    exact ([window_in_range]), with a positive step and an end not
    before the start, [processMultiSeries] returns the aligned series
    for every input, whatever the samples: no sample, however
    malformed its value or distant its timestamp, makes it throw. *)
Theorem processMultiSeries_never_throws (props : Props) :
  window_in_range (window props) ->
  0 < stepDurationSec (window props) ->
  startTimeSec (window props) <= endTimeSec (window props) ->
  is_Some (processMultiSeries props).
Proof.
  intros _ Hd Hse.
  destruct (getTimestampQuantizer_is_Some _ Hd Hse) as [qz Hqz].
  pose proof (getTimestampQuantizer_range _ _ Hqz) as [Hrange _].
  assert (Hnd : NoDup (qrange qz)).
  { rewrite Hrange. unfold getTimestampSecs, Array_sort, range.
    rewrite merge_sort_Permutation. apply baseRange_NoDup. lia. }
  unfold processMultiSeries. rewrite Hqz. cbn [mbind option_bind].
  set (names := merge_sort string_le (seriesName <$> multiSeries props)).
  assert (Hlen : length names = length (multiSeries props)).
  { unfold names. by rewrite merge_sort_Permutation, length_fmap. }
  destruct (fill_table_keys names qz (qrange qz)) with
      (input := multiSeries props) (t := init_table names (qrange qz))
    as (t & Ht & Hkeys).
  { intros x. destruct (quantize_total _ qz x Hqz) as (g & Hg & Hin).
    exists g. by rewrite Hrange. }
  { by apply init_table_keys. }
  assert (Hcells : Forall (cells_ok names (fun _ => True)) t).
  { eapply (fill_table_cells names qz (fun _ => True)); [| |exact Ht|].
    - lia.
    - by apply Forall_true.
    - by apply init_table_cells. }
  rewrite Ht. cbn [mbind option_bind].
  apply mapM_is_Some, Forall_forall. intros [i n] Hin.
  apply elem_of_zip_seq in Hin. cbn.
  apply make_series_is_Some.
  - destruct (stack_dimensions names (sortBy "timestampSec" (Object_values t)))
      as [Hl Hall].
    destruct (lookup_lt_is_Some_2 (stack names (sortBy "timestampSec" (Object_values t))) i)
      as [s Hs]; [rewrite Hl; by eapply lookup_lt_Some|].
    exists s. split; [done|].
    rewrite Forall_forall in Hall. rewrite (Hall s) by (by eapply list_elem_of_lookup_2).
    by rewrite sortBy_length, Object_values_length, <- Hkeys, length_fmap.
  - intros ts Hts. rewrite <- Hkeys in Hts.
    destruct (table_get_is_Some t ts Hts) as [row Hrow].
    exists row. split; [done|].
    apply table_get_elem_of in Hrow. rewrite Forall_forall in Hcells.
    destruct (Hcells _ Hrow n) as (v & Hv & _); [by eapply list_elem_of_lookup_2|].
    cbn [snd] in Hv. by rewrite Hv.
Qed.

Lemma processMultiSeries_never_throws_witness :
  is_Some (processMultiSeries
             (mkProps window_800_1000
                [ {| seriesName := "a";
                     values := [pt 5000 "x"; (7 # 2, RawNumber NaN)] |} ]
                true false)).
Proof.
  apply (processMultiSeries_never_throws
           (mkProps window_800_1000
              [ {| seriesName := "a";
                   values := [pt 5000 "x"; (7 # 2, RawNumber NaN)] |} ]
              true false)); [window_bounds|cbn; lia..].
Defined.

(** ** What [processMultiSeries] returns *)

Lemma make_datapoint_inv (t : Table) (st : list (num * num)) (n : string)
    (ti : nat) (ts : Z) (dp : Datapoint) :
  make_datapoint t st n ti ts = Some dp ->
  timestampSec dp = ts
  /\ (exists row, table_get t ts = Some row /\ row !! n = Some (value dp))
  /\ (exists cell, st !! ti = Some cell /\ offset dp = cell.1).
Proof.
  unfold make_datapoint.
  destruct (table_get t ts) as [row|]; [|done]. cbn [mbind option_bind].
  destruct (row !! n) as [v|] eqn:Hv; [|done]. cbn [mbind option_bind].
  destruct (st !! ti) as [cell|]; [|done]. cbn [mbind option_bind].
  intros [= <-]. cbn [timestampSec value offset]. eauto 10.
Qed.

Lemma make_series_inv (theme : ColorTheme) (t : Table) (tss : list Z)
    (stacked : list (list (num * num))) (i : nat) (n : string) (s : Series) :
  make_series theme t tss stacked i n = Some s ->
  name s = n
  /\ color s = colorThemes theme i
  /\ exists st,
       stacked !! i = Some st
       /\ forall dp, dp ∈ datapoints s ->
            exists ti ts, make_datapoint t st n ti ts = Some dp.
Proof.
  unfold make_series. destruct (stacked !! i) as [st|]; [|done].
  cbn [mbind option_bind].
  destruct (mapM _ _) as [dps|] eqn:Hdps; [|done]. intros [= <-].
  cbn [name color datapoints]. split; [done|]. split; [done|].
  exists st. split; [done|]. intros dp [k Hk]%list_elem_of_lookup.
  apply mapM_Some in Hdps.
  destruct (Forall2_lookup_r _ _ _ _ _ Hdps Hk) as ([ti ts] & _ & Hdp).
  by exists ti, ts.
Qed.

(** The series of the result, one by one: series [i] is made from the
    [i]-th sorted name. *)
Lemma processMultiSeries_inv (props : Props) (ms : list Series) :
  processMultiSeries props = Some ms ->
  exists (qz : Quantizer) (t : Table),
    getTimestampQuantizer (window props) = Some qz
    /\ fill_table qz (merge_sort string_le (seriesName <$> multiSeries props))
         (init_table (merge_sort string_le (seriesName <$> multiSeries props))
                     (qrange qz))
         (multiSeries props) = Some t
    /\ length ms = length (multiSeries props)
    /\ forall i series,
         ms !! i = Some series ->
         exists n,
           merge_sort string_le (seriesName <$> multiSeries props) !! i = Some n
           /\ make_series (colorTheme props) t (qrange qz)
                (stack (merge_sort string_le (seriesName <$> multiSeries props))
                       (sortBy "timestampSec" (Object_values t)))
                i n = Some series.
Proof.
  unfold processMultiSeries. cbv zeta.
  destruct (getTimestampQuantizer (window props)) as [qz|]; [|done].
  cbn [mbind option_bind].
  destruct (fill_table _ _ _ _) as [t|] eqn:Hfill; [|done]. cbn [mbind option_bind].
  intros Hms. apply mapM_Some in Hms. exists qz, t.
  split; [done|]. split; [exact Hfill|]. split.
  - rewrite <- (Forall2_length _ _ _ Hms), length_zip_with, length_seq.
    rewrite merge_sort_Permutation, length_fmap. lia.
  - intros i series Hi.
    destruct (Forall2_lookup_r _ _ _ _ _ Hms Hi) as ([i' n] & Hz & Hmake).
    rewrite lookup_zip_seq in Hz.
    destruct (merge_sort string_le (seriesName <$> multiSeries props) !! i)
      as [n'|]; [|done].
    injection Hz as <- <-. by exists n'.
Qed.

(** X17.  The result has one series per input series.  Their names
    are the input names in ascending order; the series at position [i]
    has the key made of its name, a colon and [i], the colour of index
    [i] of the theme, and one datapoint per grid timestamp, in the
    order of the grid. *)
Theorem processMultiSeries_shape (props : Props) (ms : list Series) :
  processMultiSeries props = Some ms ->
  name <$> ms ≡ₚ seriesName <$> multiSeries props
  /\ Sorted string_le (name <$> ms)
  /\ (forall (i : nat) (series : Series),
         ms !! i = Some series ->
         key series = name series +:+ ":" +:+ pretty i
         /\ color series = colorThemes (colorTheme props) i
         /\ timestampSec <$> datapoints series = getTimestampSecs (window props)).
Proof.
  intros Hms.
  destruct (processMultiSeries_inv props ms Hms) as (qz & t & Hqz & _ & Hlen & Hser).
  set (names := merge_sort string_le (seriesName <$> multiSeries props)) in *.
  assert (Hnames : name <$> ms = names).
  { apply list_eq. intros i. rewrite list_lookup_fmap.
    destruct (ms !! i) as [series|] eqn:Hi; cbn [fmap option_fmap option_map].
    - destruct (Hser i series Hi) as (n & Hn & Hmake).
      apply make_series_inv in Hmake as [-> _]. by rewrite Hn.
    - symmetry. apply lookup_ge_None. apply lookup_ge_None in Hi.
      unfold names. rewrite merge_sort_Permutation, length_fmap. lia. }
  split; [|split].
  - rewrite Hnames. apply merge_sort_Permutation.
  - rewrite Hnames. apply (@Sorted_merge_sort _ string_le _ string_le_total).
  - intros i series Hi.
    destruct (Hser i series Hi) as (n & Hn & Hmake).
    pose proof (make_series_key _ _ _ _ _ _ _ Hmake) as Hkey.
    pose proof (make_series_timestamps _ _ _ _ _ _ _ Hmake) as Htss.
    apply make_series_inv in Hmake as (Hname & Hcolor & _).
    apply getTimestampQuantizer_range in Hqz as [Hrange _].
    rewrite Hname, Hkey, Hcolor, Htss, Hrange. done.
Qed.

Lemma processMultiSeries_shape_witness :
  name <$> state_multiSeries (mounted series_b_then_a)
    ≡ₚ seriesName <$> multiSeries series_b_then_a
  /\ Sorted string_le (name <$> state_multiSeries (mounted series_b_then_a))
  /\ (forall (i : nat) (series : Series),
         state_multiSeries (mounted series_b_then_a) !! i = Some series ->
         key series = name series +:+ ":" +:+ pretty i
         /\ color series = colorThemes (colorTheme series_b_then_a) i
         /\ timestampSec <$> datapoints series
            = getTimestampSecs (window series_b_then_a)).
Proof.
  apply (processMultiSeries_shape series_b_then_a). vm_compute. reflexivity.
Defined.

(** X18.  Every value of the result is a gap or the parsed value of
    one of the samples of the input; it is never NaN. *)
Theorem aligned_values_are_parsed_samples (props : Props) (ms : list Series)
    (series : Series) (dp : Datapoint) :
  processMultiSeries props = Some ms ->
  series ∈ ms -> dp ∈ datapoints series ->
  value dp <> Some NaN
  /\ (value dp = None
      \/ exists point, point ∈ samples (multiSeries props)
                       /\ value dp = parseGraphValue point.2).
Proof.
  intros Hms [i Hi]%list_elem_of_lookup Hdp.
  destruct (processMultiSeries_inv props ms Hms)
    as (qz & t & Hqz & Hfill & Hlen & Hser).
  set (names := merge_sort string_le (seriesName <$> multiSeries props)) in *.
  set (P := fun v : option num =>
              v <> Some NaN
              /\ (v = None
                  \/ exists point, point ∈ samples (multiSeries props)
                                   /\ v = parseGraphValue point.2)).
  assert (Hcells : Forall (cells_ok names P) t).
  { eapply (fill_table_cells names qz P); [| |exact Hfill|].
    - unfold names. rewrite merge_sort_Permutation, length_fmap. lia.
    - apply Forall_forall. intros point Hpoint. split.
      + unfold parseGraphValue. destruct (isNaN (parseFloat point.2)) eqn:HN; [done|].
        intros [= H]. by rewrite H in HN.
      + right. by exists point.
    - apply init_table_cells. split; [done|by left]. }
  destruct (Hser i series Hi) as (n & Hn & Hmake).
  apply make_series_inv in Hmake as (_ & _ & st & _ & Hdps).
  destruct (Hdps dp Hdp) as (ti & ts & Hmk).
  apply make_datapoint_inv in Hmk as (_ & (row & Hrow & Hv) & _).
  apply table_get_elem_of in Hrow. rewrite Forall_forall in Hcells.
  destruct (Hcells _ Hrow n) as (v & Hv' & HP); [by eapply list_elem_of_lookup_2|].
  cbn [snd] in Hv'. rewrite Hv in Hv'. injection Hv' as <-. exact HP.
Qed.

Lemma aligned_values_are_parsed_samples_witness :
  exists series dp,
    series ∈ state_multiSeries (mounted stacked_3_4)
    /\ dp ∈ datapoints series
    /\ value dp = Some (Fin 3)
    /\ value dp <> Some NaN
    /\ (value dp = None
        \/ exists point, point ∈ samples (multiSeries stacked_3_4)
                         /\ value dp = parseGraphValue point.2).
Proof.
  eexists _, _. split; [vm_compute; apply list_elem_of_here|].
  split; [vm_compute; apply list_elem_of_here|].
  split; [reflexivity|].
  eapply (aligned_values_are_parsed_samples stacked_3_4
            (state_multiSeries (mounted stacked_3_4))).
  - vm_compute. reflexivity.
  - vm_compute. apply list_elem_of_here.
  - vm_compute. apply list_elem_of_here.
Defined.

Lemma stack_first_base (keys : list string) (data : list Row)
    (st : list (num * num)) (cell : num * num) :
  stack keys data !! 0%nat = Some st -> cell ∈ st -> cell.1 = Fin 0.
Proof.
  unfold stack, stackOffsetNone. destruct keys as [|k keys]; [done|].
  cbn [stack_init map lookup list_lookup]. intros [= <-] Hin.
  rewrite list_elem_of_In in Hin. by apply in_map_iff in Hin as (d & <- & _).
Qed.

(** X19.  The first series of the result, the one with the smallest
    name, is the base of the stack: the offset of each of its
    datapoints is 0. *)
Theorem first_series_has_offset_zero (props : Props) (ms : list Series)
    (series : Series) (dp : Datapoint) :
  processMultiSeries props = Some ms ->
  ms !! 0%nat = Some series -> dp ∈ datapoints series ->
  offset dp = Fin 0.
Proof.
  intros Hms Hi Hdp.
  destruct (processMultiSeries_inv props ms Hms) as (qz & t & _ & _ & _ & Hser).
  destruct (Hser 0%nat series Hi) as (n & Hn & Hmake).
  apply make_series_inv in Hmake as (_ & _ & st & Hst & Hdps).
  destruct (Hdps dp Hdp) as (ti & ts & Hmk).
  apply make_datapoint_inv in Hmk as (_ & _ & cell & Hcell & ->).
  eapply stack_first_base; [exact Hst|]. by eapply list_elem_of_lookup_2.
Qed.

Lemma first_series_has_offset_zero_witness :
  exists series dp,
    state_multiSeries (mounted stacked_3_4) !! 0%nat = Some series
    /\ dp ∈ datapoints series
    /\ value dp = Some (Fin 3)
    /\ offset dp = Fin 0.
Proof.
  eexists _, _. split; [vm_compute; reflexivity|].
  split; [vm_compute; apply list_elem_of_here|].
  split; [reflexivity|].
  eapply (first_series_has_offset_zero stacked_3_4
            (state_multiSeries (mounted stacked_3_4))).
  - vm_compute. reflexivity.
  - vm_compute. reflexivity.
  - vm_compute. apply list_elem_of_here.
Defined.

(** X20.  The result depends on the input series only through their
    names as a collection and, position by position, their samples:
    two inputs with the same window and theme, the same names in any
    order and the same samples at each position give the same result,
    whichever name came with which samples. *)
Theorem processMultiSeries_takes_samples_by_position (props props' : Props) :
  window props = window props' ->
  colorTheme props = colorTheme props' ->
  seriesName <$> multiSeries props ≡ₚ seriesName <$> multiSeries props' ->
  values <$> multiSeries props = values <$> multiSeries props' ->
  processMultiSeries props = processMultiSeries props'.
Proof.
  intros Hw Hc Hn Hv. unfold processMultiSeries. rewrite <- Hw, <- Hc.
  assert (Hnames : merge_sort string_le (seriesName <$> multiSeries props)
                   = merge_sort string_le (seriesName <$> multiSeries props')).
  { apply (@Sorted_unique _ string_le string_le_trans string_le_antisymm).
    - apply (@Sorted_merge_sort _ string_le _ string_le_total).
    - apply (@Sorted_merge_sort _ string_le _ string_le_total).
    - by rewrite !merge_sort_Permutation. }
  rewrite <- Hnames.
  destruct (getTimestampQuantizer (window props)) as [qz|]; [|done].
  cbn [mbind option_bind].
  by rewrite (fill_table_values qz _ _ _ Hv).
Qed.

Lemma processMultiSeries_takes_samples_by_position_witness :
  processMultiSeries series_b_then_a = processMultiSeries series_a_then_b.
Proof.
  apply (processMultiSeries_takes_samples_by_position series_b_then_a series_a_then_b).
  - reflexivity.
  - reflexivity.
  - cbn. apply Permutation_swap.
  - reflexivity.
Defined.

(** ** Alignment: which samples a series holds *)

Section Alignment.

Lemma table_get_set (t : Table) (ts ts' : Z) (r : Row) :
  table_get (table_set t ts r) ts'
  = if decide (ts = ts') then Some r else table_get t ts'.
Proof.
  unfold table_get. induction t as [|[k r'] t IH]; cbn [table_set List.find].
  - destruct (Z.eqb_spec ts ts'); by destruct (decide (ts = ts')).
  - destruct (Z.eqb_spec k ts) as [->|Hk]; cbn [List.find].
    + destruct (Z.eqb_spec ts ts'); by destruct (decide (ts = ts')).
    + destruct (Z.eqb_spec k ts') as [->|Hk']; [|exact IH].
      by destruct (decide (ts = ts')).
Qed.

Lemma table_get_init (names : list string) (grid : list Z) (ts : Z) :
  table_get (init_table names grid) ts
  = if decide (ts ∈ grid) then Some (init_row names ts) else None.
Proof.
  unfold init_table.
  assert (Hgen : forall t : Table,
             table_get (foldl (fun (t : Table) ts => table_set t ts (init_row names ts))
                              t grid) ts
             = if decide (ts ∈ grid) then Some (init_row names ts) else table_get t ts).
  { induction grid as [|g grid IH]; intros t; cbn [foldl].
    - destruct (decide (ts ∈ [])) as [Hin|_]; [by apply elem_of_nil in Hin|done].
    - rewrite IH, table_get_set.
      destruct (decide (ts ∈ grid)) as [Hin|Hout].
      + rewrite decide_True by (by apply list_elem_of_further). done.
      + destruct (decide (g = ts)) as [->|Hne].
        * rewrite decide_True by apply list_elem_of_here. done.
        * rewrite decide_False; [done|].
          intros [?|?]%elem_of_cons; congruence. }
  by rewrite Hgen.
Qed.

Variables (names : list string) (qz : Quantizer).
Hypothesis names_distinct : NoDup names.

Lemma store_point_cell (n : string) (t t' : Table) (point : Q * raw) :
  store_point qz n t point = Some t' ->
  forall ts' n',
    cell t' ts' n'
    = if decide (quantize qz point.1 = Some ts' /\ n = n')
      then Some (parseGraphValue point.2) else cell t ts' n'.
Proof.
  unfold store_point, cell.
  destruct (quantize qz point.1) as [ts|]; [|done]. cbn [mbind option_bind].
  destruct (table_get t ts) as [row|] eqn:Hrow; [|done]. cbn [mbind option_bind].
  intros [= <-] ts' n'. rewrite table_get_set.
  destruct (decide (ts = ts')) as [<-|Hts]; cbn [mbind option_bind].
  - rewrite Hrow. cbn [mbind option_bind]. rewrite lookup_insert.
    destruct (decide (n = n')) as [<-|Hn].
    + by rewrite decide_True.
    + rewrite decide_False; [done|]. by intros [_ ?].
  - rewrite decide_False; [done|]. intros [[= ?] _]. done.
Qed.

Lemma store_points_cell (n : string) (points : list (Q * raw)) :
  forall t t' : Table,
    foldlM (store_point qz n) t points = Some t' ->
    forall ts' n',
      cell t' ts' n'
      = if decide (n = n')
        then match last (filter (fun point => quantize qz point.1 = Some ts') points) with
             | Some point => Some (parseGraphValue point.2)
             | None => cell t ts' n'
             end
        else cell t ts' n'.
Proof.
  induction points as [|point points IH]; intros t t'; cbn [foldlM].
  - intros [= <-] ts' n'. by destruct (decide (n = n')).
  - destruct (store_point qz n t point) as [t1|] eqn:H1; [|done].
    cbn [mbind option_bind]. intros Hrest ts' n'.
    rewrite (IH t1 t' Hrest), (store_point_cell n t t1 point H1).
    destruct (decide (n = n')) as [<-|Hn].
    + destruct (decide (quantize qz point.1 = Some ts')) as [Hq|Hq].
      * rewrite filter_cons_True by done. rewrite last_cons.
        destruct (last (filter _ points)); [done|]. by rewrite decide_True.
      * rewrite filter_cons_False by done. rewrite decide_False; [done|].
        by intros [? _].
    + rewrite decide_False; [done|]. by intros [_ ?].
Qed.

Lemma fill_table_cell (input : list InputSeries) :
  forall (j : nat) (t t' : Table),
    (j + length input <= length names)%nat ->
    foldlM (fun t '(seriesIndex, series) =>
              foldlM (store_point qz (default "undefined" (names !! seriesIndex)))
                     t (values series))
           t (zip (seq j (length input)) input) = Some t' ->
    forall ts,
      (forall i n, names !! i = Some n ->
                   (i < j)%nat \/ (j + length input <= i)%nat ->
                   cell t' ts n = cell t ts n)
      /\ (forall k series n,
             input !! k = Some series -> names !! (j + k)%nat = Some n ->
             cell t' ts n
             = match last (filter (fun point => quantize qz point.1 = Some ts)
                                  (values series)) with
               | Some point => Some (parseGraphValue point.2)
               | None => cell t ts n
               end).
Proof.
  induction input as [|s input IH]; intros j t t' Hlen;
    cbn [length seq zip zip_with foldlM].
  - intros [= <-] ts. split; [done|]. by intros k series n ?.
  - destruct (lookup_lt_is_Some_2 names j) as [nj Hnj]; [cbn [length] in Hlen; lia|].
    rewrite Hnj. change (default "undefined" (Some nj)) with nj.
    destruct (foldlM (store_point qz nj) t (values s)) as [t1|] eqn:H1; [|done].
    cbn [mbind option_bind]. intros Hrest ts.
    cbn [length] in Hlen.
    destruct (IH (S j) t1 t' ltac:(lia) Hrest ts) as [IHa IHb].
    pose proof (store_points_cell nj (values s) t t1 H1 ts) as Hcell.
    split.
    + intros i n Hn Hi. rewrite (IHa i n Hn) by lia.
      rewrite Hcell, decide_False; [done|]. intros <-.
      assert (i = j) by (by eapply NoDup_lookup). lia.
    + intros [|k] series n Hs Hn.
      * injection Hs as <-. rewrite Nat.add_0_r in Hn.
        assert (n = nj) by congruence. subst n.
        rewrite (IHa j nj Hnj) by lia. by rewrite Hcell, decide_True.
      * cbn [lookup list_lookup] in Hs.
        replace (j + S k)%nat with (S j + k)%nat in Hn by lia.
        rewrite (IHb k series n Hs Hn).
        rewrite Hcell, decide_False; [done|]. intros <-.
        assert ((S j + k)%nat = j) by (by eapply NoDup_lookup). lia.
Qed.

End Alignment.

(** X21.  When the input series have distinct names, the series at
    position [i] of the result holds the samples of the input series at
    position [i]: the value of each of its datapoints is the parsed
    value of the last sample of that input series that the quantizer
    maps to the timestamp of the datapoint, and a gap when there is no
    such sample. *)
Theorem series_hold_the_samples_of_their_position
    (props : Props) (ms : list Series) (i : nat)
    (input : InputSeries) (series : Series) (dp : Datapoint) :
  NoDup (seriesName <$> multiSeries props) ->
  processMultiSeries props = Some ms ->
  multiSeries props !! i = Some input ->
  ms !! i = Some series ->
  dp ∈ datapoints series ->
  exists qz,
    getTimestampQuantizer (window props) = Some qz
    /\ value dp = last_write qz (values input) (timestampSec dp).
Proof.
  intros Hnd Hms Hinput Hi Hdp.
  destruct (processMultiSeries_inv props ms Hms)
    as (qz & t & Hqz & Hfill & Hlen & Hser).
  set (names := merge_sort string_le (seriesName <$> multiSeries props)) in *.
  assert (Hnames : NoDup names).
  { unfold names. by rewrite merge_sort_Permutation. }
  assert (Hnlen : length names = length (multiSeries props)).
  { unfold names. by rewrite merge_sort_Permutation, length_fmap. }
  exists qz. split; [done|].
  destruct (Hser i series Hi) as (n & Hn & Hmake).
  pose proof (make_series_timestamps _ _ _ _ _ _ _ Hmake) as Htss.
  apply make_series_inv in Hmake as (_ & _ & st & _ & Hdps).
  destruct (Hdps dp Hdp) as (ti & ts & Hmk).
  apply make_datapoint_inv in Hmk as (Hts & (row & Hrow & Hv) & _).
  assert (Hgrid : ts ∈ qrange qz).
  { rewrite <- Htss, <- Hts. by apply list_elem_of_fmap_2. }
  assert (Hcell : cell t ts n = Some (value dp)).
  { unfold cell. rewrite Hrow. exact Hv. }
  unfold fill_table in Hfill.
  destruct (fill_table_cell names qz Hnames (multiSeries props) 0
              (init_table names (qrange qz)) t ltac:(lia) Hfill ts) as [_ Hb].
  rewrite (Hb i input n Hinput Hn) in Hcell.
  unfold last_write. rewrite Hts.
  destruct (last (filter _ (values input))) as [point|]; [by injection Hcell|].
  unfold cell in Hcell. rewrite table_get_init, decide_True in Hcell by done.
  cbn [mbind option_bind] in Hcell. unfold init_row in Hcell.
  rewrite init_row_names in Hcell by (by eapply list_elem_of_lookup_2).
  by injection Hcell.
Qed.

Lemma series_hold_the_samples_of_their_position_witness :
  exists qz series dp,
    getTimestampQuantizer (window (scenario_A_B false)) = Some qz
    /\ state_multiSeries (mounted (scenario_A_B false)) !! 0%nat = Some series
    /\ datapoints series !! 2%nat = Some dp
    /\ timestampSec dp = 200
    /\ value dp = Some (Fin 20)
    /\ value dp
       = last_write qz [pt 0 "10"; pt 150 "20"] (timestampSec dp).
Proof.
  destruct (state_multiSeries (mounted (scenario_A_B false)) !! 0%nat)
    as [series|] eqn:Hs; [|vm_compute in Hs; discriminate Hs].
  destruct (datapoints series !! 2%nat) as [dp|] eqn:Hdp;
    [|vm_compute in Hs; injection Hs as <-; vm_compute in Hdp; discriminate Hdp].
  destruct (series_hold_the_samples_of_their_position (scenario_A_B false)
              (state_multiSeries (mounted (scenario_A_B false))) 0
              {| seriesName := "A"; values := [pt 0 "10"; pt 150 "20"] |}
              series dp) as (qz & Hqz & Hval).
  - apply (bool_decide_unpack _). vm_compute. exact I.
  - vm_compute. reflexivity.
  - reflexivity.
  - exact Hs.
  - by eapply list_elem_of_lookup_2.
  - exists qz, series, dp. split; [done|]. split; [done|]. split; [done|].
    vm_compute in Hs. injection Hs as <-. vm_compute in Hdp. injection Hdp as <-.
    split; [reflexivity|]. split; [reflexivity|]. exact Hval.
Defined.

(** ** The rows handed to the stacker *)

Section StackedRows.

Lemma by_timestamp_trans : Transitive by_timestamp.
Proof. intros a b c. unfold by_timestamp. lia. Qed.

Lemma by_timestamp_total : Total by_timestamp.
Proof. intros a b. unfold by_timestamp. lia. Qed.

Lemma carries_key_timestamp (e : Z * Row) :
  carries_key e -> row_timestamp e.2 = e.1.
Proof.
  unfold carries_key, row_timestamp, num_of_Z. intros ->. apply Qfloor_Z.
Qed.

(** On rows that carry an integer timestamp, the order of [sortBy] is
    the order of the timestamps. *)
Lemma sortBy_le_by_timestamp (a b : Row) :
  (exists ta, a !! "timestampSec" = Some (Some (num_of_Z ta))) ->
  (exists tb, b !! "timestampSec" = Some (Some (num_of_Z tb))) ->
  sortBy_le "timestampSec" a b <-> by_timestamp a b.
Proof.
  intros [ta Ha] [tb Hb]. unfold sortBy_le, by_timestamp, row_timestamp.
  rewrite Ha, Hb. unfold num_of_Z. rewrite !Qfloor_Z.
  unfold compareAscending.
  cbn [strict_eq num_eq isNull isDefined isReflexive to_number_prop to_number
       negb andb orb num_gt num_lt].
  destruct (Z.lt_trichotomy ta tb) as [Hlt|[->|Hgt]].
  - assert (Heq : Qeq_bool (inject_Z ta) (inject_Z tb) = false).
    { apply not_true_iff_false. intros H. apply Qeq_bool_iff in H.
      apply (proj1 (inject_Z_injective ta tb)) in H. lia. }
    assert (Hgt : Qltb (inject_Z tb) (inject_Z ta) = false)
      by (apply Qltb_ge; rewrite <- Zle_Qle; lia).
    assert (Hlt' : Qltb (inject_Z ta) (inject_Z tb) = true)
      by (apply Qltb_lt; rewrite <- Zlt_Qlt; lia).
    rewrite Heq, Hgt, Hlt'. cbn. lia.
  - rewrite (proj2 (Qeq_bool_iff _ _)) by reflexivity. lia.
  - assert (Heq : Qeq_bool (inject_Z ta) (inject_Z tb) = false).
    { apply not_true_iff_false. intros H. apply Qeq_bool_iff in H.
      apply (proj1 (inject_Z_injective ta tb)) in H. lia. }
    assert (Hgt' : Qltb (inject_Z tb) (inject_Z ta) = true)
      by (apply Qltb_lt; rewrite <- Zlt_Qlt; lia).
    rewrite Heq, Hgt'. cbn. lia.
Qed.

Lemma Object_values_Permutation (t : Table) : Object_values t ≡ₚ t.*2.
Proof.
  unfold Object_values. by rewrite merge_sort_Permutation, filter_app_complement.
Qed.

Lemma ascending_NoDup (l : list Z) : StronglySorted Z.lt l -> NoDup l.
Proof.
  induction 1 as [|x l _ IH Hx]; constructor; [|done].
  intros Hin. rewrite Forall_forall in Hx. specialize (Hx x Hin). lia.
Qed.

Lemma same_key_same_entry (t : Table) (e1 e2 : Z * Row) :
  NoDup t.*1 -> e1 ∈ t -> e2 ∈ t -> e1.1 = e2.1 -> e1 = e2.
Proof.
  intros Hnd [i Hi]%list_elem_of_lookup [j Hj]%list_elem_of_lookup Heq.
  assert (Hij : i = j).
  { apply (NoDup_lookup _ _ _ e1.1 Hnd); rewrite list_lookup_fmap.
    - by rewrite Hi.
    - by rewrite Hj, Heq. }
  subst j. congruence.
Qed.

Lemma rows_sorted (t : Table) :
  Forall carries_key t -> StronglySorted Z.lt t.*1 ->
  StronglySorted by_timestamp t.*2.
Proof.
  induction t as [|[k r] t IH]; intros Hall Hs; [constructor|].
  apply Forall_cons in Hall as [Hk Hall].
  cbn [fmap list_fmap fst snd] in Hs |- *.
  apply StronglySorted_inv in Hs as [Hs Hlt].
  constructor; [by apply IH|].
  apply Forall_fmap, Forall_forall. intros e He. unfold by_timestamp. cbn.
  rewrite Forall_forall in Hall.
  pose proof (carries_key_timestamp (k, r) Hk) as Hkr.
  pose proof (carries_key_timestamp e (Hall e He)) as Her.
  cbn [fst snd] in Hkr. rewrite Hkr, Her.
  rewrite Forall_forall in Hlt.
  assert (k < e.1); [|lia]. apply Hlt. by apply list_elem_of_fmap_2.
Qed.

(** A table whose keys ascend and whose rows carry their keys reaches
    the stacker row by row, in the order of the keys. *)
Lemma sortBy_rows (t : Table) :
  Forall carries_key t -> StronglySorted Z.lt t.*1 ->
  sortBy "timestampSec" (Object_values t) = t.*2.
Proof.
  intros Hall Hs. unfold sortBy.
  assert (Hrows : Forall (fun row => exists ts,
                            row !! "timestampSec" = Some (Some (num_of_Z ts)))
                         (Object_values t)).
  { rewrite Object_values_Permutation. apply Forall_fmap.
    eapply Forall_impl; [exact Hall|]. intros e He. by exists e.1. }
  rewrite (merge_sort_ext (sortBy_le "timestampSec") by_timestamp _
             sortBy_le_by_timestamp _ Hrows).
  apply (StronglySorted_unique_strong by_timestamp).
  - intros x1 x2 H1 H2 H12 H21.
    rewrite merge_sort_Permutation, Object_values_Permutation in H1.
    apply list_elem_of_fmap in H1 as (e1 & -> & He1).
    apply list_elem_of_fmap in H2 as (e2 & -> & He2).
    f_equal. apply (same_key_same_entry t); [by apply ascending_NoDup|done..|].
    unfold by_timestamp in H12, H21. rewrite Forall_forall in Hall.
    rewrite !carries_key_timestamp in H12, H21 by (by apply Hall). lia.
  - apply (@StronglySorted_merge_sort _ by_timestamp _ by_timestamp_trans
             by_timestamp_total).
  - by apply rows_sorted.
  - rewrite merge_sort_Permutation. apply Object_values_Permutation.
Qed.

End StackedRows.

(** ** Stacking on a grid in ascending order *)

Lemma make_series_lookup (theme : ColorTheme) (t : Table) (tss : list Z)
    (stacked : list (list (num * num))) (i : nat) (n : string) (s : Series)
    (j : nat) (dp : Datapoint) :
  make_series theme t tss stacked i n = Some s ->
  datapoints s !! j = Some dp ->
  exists st ts,
    stacked !! i = Some st /\ tss !! j = Some ts
    /\ make_datapoint t st n j ts = Some dp.
Proof.
  unfold make_series. destruct (stacked !! i) as [st|]; [|done].
  cbn [mbind option_bind].
  destruct (mapM _ _) as [dps|] eqn:Hdps; [|done]. intros [= <-].
  cbn [datapoints]. intros Hj. apply mapM_Some in Hdps.
  destruct (Forall2_lookup_r _ _ _ _ _ Hdps Hj) as ([ti ts] & Hz & Hdp).
  rewrite lookup_zip_seq in Hz.
  destruct (tss !! j) as [ts'|] eqn:Hts; [|done].
  injection Hz as <- <-. by exists st, ts'.
Qed.

Lemma table_get_lookup (t : Table) (j : nat) (ts : Z) (row : Row) :
  NoDup t.*1 -> t !! j = Some (ts, row) -> table_get t ts = Some row.
Proof.
  intros Hnd Hj.
  assert (Hin : (ts, row) ∈ t) by (by eapply list_elem_of_lookup_2).
  destruct (table_get_is_Some t ts) as [row' Hrow'].
  { by apply (list_elem_of_fmap_2 fst) in Hin. }
  rewrite Hrow'. f_equal.
  apply table_get_elem_of in Hrow'.
  by injection (same_key_same_entry t _ _ Hnd Hrow' Hin eq_refl).
Qed.

Lemma sum_values_take (d : Row) (j : nat) (names : list string) (ms : list Series) :
  Forall2 (fun n series => Qvalue d n = value_at j series) names ms ->
  forall i, sum_values d (take i names) = sum_below ms i j.
Proof.
  unfold sum_below.
  induction 1 as [|n series names ms Hn _ IH]; intros [|i]; try done.
  cbn [take foldr]. rewrite sum_values_cons, Hn. f_equal. apply IH.
Qed.

(** X22.  When the sort left the grid in ascending numeric order, no
    series is named ["timestampSec"] and no sample parses to an
    infinity, stacking is the cumulative sum: the offset of the
    datapoint at position [j] of the series at position [i] is the sum
    of the values, a gap counting 0, that the series before [i] have at
    position [j], that is at the same timestamp. *)
Theorem offsets_are_sums_on_ascending_grid
    (props : Props) (ms : list Series) (i j : nat)
    (series : Series) (dp : Datapoint) :
  Sorted Z.lt (getTimestampSecs (window props)) ->
  "timestampSec" ∉ seriesName <$> multiSeries props ->
  finite_samples (multiSeries props) ->
  processMultiSeries props = Some ms ->
  ms !! i = Some series ->
  datapoints series !! j = Some dp ->
  exists a, offset dp = Fin a /\ (a == sum_below ms i j)%Q.
Proof.
  intros Hasc Hname Hfin Hms Hi Hj.
  destruct (processMultiSeries_inv props ms Hms)
    as (qz & t & Hqz & Hfill & Hlen & Hser).
  set (names := merge_sort string_le (seriesName <$> multiSeries props)) in *.
  assert (Hnlen : length names = length (multiSeries props)).
  { unfold names. by rewrite merge_sort_Permutation, length_fmap. }
  assert (Hnot : "timestampSec" ∉ names).
  { unfold names. by rewrite merge_sort_Permutation. }
  pose proof (getTimestampQuantizer_range _ _ Hqz) as [Hrange _].
  rewrite <- Hrange in Hasc.
  apply Sorted_StronglySorted in Hasc; [|apply _].
  assert (Hkeys : t.*1 = qrange qz).
  { destruct (fill_table_keys names qz (qrange qz)) with
        (input := multiSeries props) (t := init_table names (qrange qz))
      as (t' & Ht' & Hk).
    - intros x. destruct (quantize_total _ qz x Hqz) as (g & Hg & Hin).
      exists g. by rewrite Hrange.
    - by apply init_table_keys, ascending_NoDup.
    - rewrite Hfill in Ht'. by injection Ht' as <-. }
  assert (Hnd : NoDup t.*1) by (rewrite Hkeys; by apply ascending_NoDup).
  assert (Hck : Forall carries_key t).
  { eapply (fill_table_Forall names qz carries_key); [| |exact Hfill|].
    - lia.
    - apply Forall_forall. intros point _ n Hn ts row Hrow.
      unfold carries_key in *. cbn [fst snd] in *.
      rewrite lookup_insert_ne; [done|]. by intros ->.
    - apply init_table_Forall. intros ts. unfold carries_key, init_row.
      cbn [fst snd]. rewrite init_row_other by done. apply lookup_singleton_eq. }
  assert (Hcells : Forall (cells_ok names gap_or_finite) t).
  { eapply (fill_table_cells names qz gap_or_finite); [| |exact Hfill|].
    - lia.
    - exact Hfin.
    - apply init_table_cells. by left. }
  assert (Hrows : sortBy "timestampSec" (Object_values t) = t.*2).
  { apply sortBy_rows; [done|by rewrite Hkeys]. }
  rewrite Hrows in Hser.
  destruct (Hser i series Hi) as (n & Hn & Hmake).
  destruct (make_series_lookup _ _ _ _ _ _ _ _ _ Hmake Hj)
    as (st & ts & Hst & Hts & Hmk).
  apply make_datapoint_inv in Hmk as (_ & _ & c & Hc & ->).
  assert (Hrow : exists d, t !! j = Some (ts, d)).
  { rewrite <- Hkeys, list_lookup_fmap in Hts.
    destruct (t !! j) as [[k d]|]; [|done]. injection Hts as ->. by exists d. }
  destruct Hrow as [d Hd].
  assert (Hdata : t.*2 !! j = Some d) by (by rewrite list_lookup_fmap, Hd).
  assert (Hd_cells : cells_ok names gap_or_finite (ts, d)).
  { rewrite Forall_forall in Hcells. apply Hcells. by eapply list_elem_of_lookup_2. }
  destruct (stack_offsets_are_prefix_sums t.*2 names i j d st Hdata)
    as (a & b & Hcell & Ha & _); [|done|].
  { apply Forall_forall. intros k Hk.
    destruct (Hd_cells k Hk) as (v & Hv & [->|[q ->]]); cbn [snd] in Hv;
      unfold finite, row_value; rewrite Hv; by eexists. }
  rewrite Hc in Hcell. injection Hcell as ->.
  exists a. split; [done|]. rewrite Ha.
  rewrite (sum_values_take d j names ms); [reflexivity|].
  apply Forall2_same_length_lookup. split; [lia|].
  intros k nk sk Hnk Hsk.
  destruct (Hser k sk Hsk) as (nk' & Hnk' & Hmakek).
  assert (nk' = nk) by congruence. subst nk'.
  pose proof (make_series_timestamps _ _ _ _ _ _ _ Hmakek) as Htssk.
  assert (Hdpk : is_Some (datapoints sk !! j)).
  { apply lookup_lt_is_Some.
    rewrite <- (length_fmap timestampSec), Htssk. by eapply lookup_lt_Some. }
  destruct Hdpk as [dpk Hdpk].
  destruct (make_series_lookup _ _ _ _ _ _ _ _ _ Hmakek Hdpk)
    as (stk & ts' & _ & Hts' & Hmk).
  assert (ts' = ts) by congruence. subst ts'.
  apply make_datapoint_inv in Hmk as (_ & (row & Hrow & Hv) & _).
  rewrite (table_get_lookup t j ts d Hnd Hd) in Hrow. injection Hrow as <-.
  unfold Qvalue, row_value, value_at. rewrite Hv, Hdpk.
  cbn [fmap option_fmap option_map to_number_prop to_number].
  by destruct (value dpk) as [[q| | |]|].
Qed.

Lemma offsets_are_sums_on_ascending_grid_witness :
  exists series dp a,
    state_multiSeries (mounted (scenario_A_B true)) !! 1%nat = Some series
    /\ datapoints series !! 2%nat = Some dp
    /\ offset dp = Fin a
    /\ (a == sum_below (state_multiSeries (mounted (scenario_A_B true))) 1 2)%Q
    /\ (sum_below (state_multiSeries (mounted (scenario_A_B true))) 1 2 == 20)%Q.
Proof.
  destruct (state_multiSeries (mounted (scenario_A_B true)) !! 1%nat)
    as [series|] eqn:Hs; [|vm_compute in Hs; discriminate Hs].
  destruct (datapoints series !! 2%nat) as [dp|] eqn:Hdp;
    [|vm_compute in Hs; injection Hs as <-; vm_compute in Hdp; discriminate Hdp].
  destruct (offsets_are_sums_on_ascending_grid (scenario_A_B true)
              (state_multiSeries (mounted (scenario_A_B true))) 1 2 series dp)
    as (a & Ha & Hsum).
  - vm_compute. repeat constructor.
  - apply (bool_decide_unpack _). vm_compute. exact I.
  - unfold finite_samples, samples.
    cbn [scenario_A_B mkProps multiSeries fmap list_fmap values concat app].
    repeat (apply Forall_cons; split;
            [right; eexists; vm_compute; reflexivity|]).
    constructor.
  - vm_compute. reflexivity.
  - exact Hs.
  - exact Hdp.
  - exists series, dp, a. split; [done|]. split; [done|]. split; [done|].
    split; [done|]. vm_compute. reflexivity.
Defined.

(** ** The focus under the cursor *)

(** X23.  In line mode the focus goes to the hover point nearest to
    the cursor value.  When the distance of some hover point to the
    cursor is a number, exactly one hover point is focused: its
    distance is a number and no hover point is strictly nearer.  When
    no distance is a number, nothing is focused. *)
Theorem line_focus_nearest
    (props : Props) (st : State) (cv : num) (ct : Q) (ts : Z) (hps : list HoverPoint) :
  showStacked props = false ->
  NoDup (key <$> getVisibleMultiSeries st) ->
  handleGraphMouseMove props st cv ct = Some (ts, hps) ->
  exists pts,
    mapM (hover_point props st ts) (getVisibleMultiSeries st) = Some pts
    /\ ((forall p, p ∈ pts -> isNaN (distance cv p) = true) ->
        List.filter focused hps = [])
    /\ ((exists p, p ∈ pts /\ isNaN (distance cv p) = false) ->
        exists f,
          f ∈ pts /\ isNaN (distance cv f) = false
          /\ (forall q, q ∈ pts -> num_lt (distance cv q) (distance cv f) = false)
          /\ List.filter focused hps = [set_focused (Some (hp_key f)) f]).
Proof.
  intros Hline Hnd H.
  apply handleGraphMouseMove_inv in H as (qz & pts & _ & _ & Hpts & ->).
  exists pts. split; [done|].
  pose proof (hover_points_keys _ _ _ _ _ Hpts) as Hkeys.
  rewrite <- Hkeys in Hnd.
  unfold focusedSeries_key. rewrite Hline.
  destruct (minBy (distanceFromCursor cv) pts) as [f|] eqn:Hmin.
  - apply minBy_Some in Hmin as (Hf & (c & Hc & Hnan) & c' & Hc' & Hall).
    unfold distanceFromCursor in Hc, Hc'. fold (distance cv f) in Hc, Hc'.
    injection Hc as <-. injection Hc' as <-.
    cbn [fmap option_fmap option_map]. split.
    + intros Hnone. by rewrite (Hnone f Hf) in Hnan.
    + intros _. exists f. split; [done|]. split; [done|]. split.
      * intros q Hq. rewrite Forall_forall in Hall. by apply (Hall q Hq).
      * destruct (simpleTooltip props); rewrite ?filter_idemp;
          by apply filter_focused_one.
  - cbn [fmap option_fmap option_map]. split.
    + intros _.
      destruct (simpleTooltip props); rewrite ?filter_idemp; apply filter_focused_no_key.
    + intros (p & Hp & Hnan). exfalso. apply minBy_None in Hmin.
      rewrite Forall_forall in Hmin. apply (Hmin p Hp). by exists (distance cv p).
Qed.

Lemma line_focus_nearest_witness :
  exists pts f,
    mapM (hover_point (scenario_A_B false) (mounted (scenario_A_B false)) 100)
         (getVisibleMultiSeries (mounted (scenario_A_B false))) = Some pts
    /\ f ∈ pts /\ hp_key f = "B:1"
    /\ (forall q, q ∈ pts ->
          num_lt (distance (Fin 4) q) (distance (Fin 4) f) = false).
Proof.
  assert (Hnd : NoDup (key <$> getVisibleMultiSeries (mounted (scenario_A_B false)))).
  { apply (bool_decide_unpack _). vm_compute. exact I. }
  destruct (handleGraphMouseMove (scenario_A_B false) (mounted (scenario_A_B false))
              (Fin 4) (inject_Z 100)) as [[ts hps]|] eqn:Hrun;
    [|vm_compute in Hrun; discriminate Hrun].
  assert (Hts : ts = 100) by (vm_compute in Hrun; by injection Hrun as <- _).
  subst ts.
  destruct (line_focus_nearest (scenario_A_B false) (mounted (scenario_A_B false))
              (Fin 4) (inject_Z 100) 100 hps eq_refl Hnd Hrun)
    as (pts & Hpts & _ & Hfocus).
  destruct Hfocus as (f & Hf & _ & Hmin & Hone).
  { vm_compute in Hpts. injection Hpts as <-.
    eexists. split; [apply list_elem_of_here|reflexivity]. }
  exists pts, f. split; [done|]. split; [done|]. split; [|done].
  vm_compute in Hrun. injection Hrun as <-.
  apply (f_equal (fmap hp_key)) in Hone. cbn in Hone.
  injection Hone as Hone. symmetry. exact Hone.
Defined.

Lemma filter_focused_at_most_one (k : option string) (pts : list HoverPoint) :
  NoDup (hp_key <$> pts) ->
  (length (List.filter focused (set_focused k <$> pts)) <= 1)%nat.
Proof.
  intros Hnd. destruct k as [k|]; [|by rewrite filter_focused_no_key; cbn; lia].
  destruct (decide (k ∈ hp_key <$> pts)) as [Hin|Hout].
  - apply list_elem_of_fmap in Hin as (x & -> & Hx).
    by rewrite filter_focused_one.
  - rewrite filter_focused_other by done. cbn. lia.
Qed.

(** X24.  When the visible series have distinct keys, hover resolution
    focuses at most one hover point, in either mode.  With
    [simpleTooltip] the result holds the focused hover point alone, or
    nothing; without it the result holds one hover point per visible
    series, in their order. *)
Theorem at_most_one_hover_point_is_focused
    (props : Props) (st : State) (cv : num) (ct : Q) (ts : Z) (hps : list HoverPoint) :
  NoDup (key <$> getVisibleMultiSeries st) ->
  handleGraphMouseMove props st cv ct = Some (ts, hps) ->
  (length (List.filter focused hps) <= 1)%nat
  /\ (simpleTooltip props = true ->
      Forall (fun p => focused p = true) hps /\ (length hps <= 1)%nat)
  /\ (simpleTooltip props = false ->
      hp_key <$> hps = key <$> getVisibleMultiSeries st).
Proof.
  intros Hnd H.
  apply handleGraphMouseMove_inv in H as (qz & pts & _ & _ & Hpts & ->).
  pose proof (hover_points_keys _ _ _ _ _ Hpts) as Hkeys.
  rewrite <- Hkeys in Hnd |- *.
  set (k := focusedSeries_key props cv pts).
  pose proof (filter_focused_at_most_one k pts Hnd) as Hone.
  split; [|split].
  - destruct (simpleTooltip props); by rewrite ?filter_idemp.
  - intros ->. split; [|done].
    apply Forall_forall. intros p Hp. by apply elem_of_filter_bool in Hp as [_ ?].
  - intros ->. rewrite <- list_fmap_compose. by apply list_fmap_ext.
Qed.

Lemma at_most_one_hover_point_is_focused_witness :
  exists hps,
    handleGraphMouseMove stacked_3_4 (mounted stacked_3_4) (Fin 1) 0 = Some (0, hps)
    /\ (length (List.filter focused hps) <= 1)%nat
    /\ hp_key <$> hps = ["a:0"; "b:1"].
Proof.
  assert (Hnd : NoDup (key <$> getVisibleMultiSeries (mounted stacked_3_4))).
  { apply (bool_decide_unpack _). vm_compute. exact I. }
  destruct (handleGraphMouseMove stacked_3_4 (mounted stacked_3_4) (Fin 1) 0)
    as [[ts hps]|] eqn:Hrun; [|vm_compute in Hrun; discriminate Hrun].
  assert (Hts : ts = 0) by (vm_compute in Hrun; by injection Hrun as <- _).
  subst ts. exists hps. split; [done|].
  destruct (at_most_one_hover_point_is_focused stacked_3_4 (mounted stacked_3_4)
              (Fin 1) 0 0 hps Hnd Hrun) as (Hone & _ & Hall).
  split; [exact Hone|]. by rewrite Hall.
Defined.

(** ** No visible series *)

Lemma max_singleton (x : num) :
  max [Some x] = if isNaN x then None else Some x.
Proof. unfold max. cbn. by destruct (isNaN x). Qed.

(** X25.  When there is no series, or when the legend selects a key
    that no series has, no series is visible; the maximum of the value
    axis is then [valuesMinSpread], and on a window of whole seconds on
    which the doubles are exact ([window_in_range]), with a positive
    step and an end not before the start, hover resolution returns a
    grid timestamp and no hover point, rather than failing. *)
Theorem nothing_visible_is_harmless
    (props : Props) (st : State) (valuesMinSpread cv : num) (ct : Q) :
  state_multiSeries st = []
  \/ (exists k, selectedLegendSeriesKey st = Some k /\ k <> ""
                /\ k ∉ key <$> state_multiSeries st) ->
  window_in_range (window props) ->
  0 < stepDurationSec (window props) ->
  startTimeSec (window props) <= endTimeSec (window props) ->
  getVisibleMultiSeries st = []
  /\ yAxisMax props valuesMinSpread st
     = (if isNaN valuesMinSpread then None else Some valuesMinSpread)
  /\ exists ts,
       handleGraphMouseMove props st cv ct = Some (ts, [])
       /\ ts ∈ getTimestampSecs (window props).
Proof.
  intros Hnone _ Hd Hse.
  assert (Hvis : getVisibleMultiSeries st = []).
  { unfold getVisibleMultiSeries, no_selection.
    destruct Hnone as [->|(k & -> & Hk & Hout)].
    - by destruct (selectedLegendSeriesKey st) as [k|]; [destruct (String.eqb k "")|].
    - destruct (String.eqb_spec k "") as [|_]; [done|]. by apply filter_key_other. }
  split; [done|]. split.
  - unfold yAxisMax, yPositions. rewrite Hvis. cbn [fmap list_fmap concat].
    apply max_singleton.
  - destruct (getTimestampQuantizer_is_Some _ Hd Hse) as [qz Hqz].
    destruct (quantize_total _ qz ct Hqz) as (ts & Hts & Hin).
    exists ts. split; [|done].
    unfold handleGraphMouseMove. rewrite Hqz. cbn [mbind option_bind].
    rewrite Hts, Hvis. cbn. by destruct (simpleTooltip props).
Qed.

Lemma nothing_visible_is_harmless_witness :
  getVisibleMultiSeries (state_a_b (Some "c:2")) = []
  /\ yAxisMax stacked_3_4 (Fin (12 # 1000)) (state_a_b (Some "c:2"))
     = Some (Fin (12 # 1000))
  /\ exists ts,
       handleGraphMouseMove stacked_3_4 (state_a_b (Some "c:2")) (Fin 1) 0
       = Some (ts, [])
       /\ ts ∈ getTimestampSecs (window stacked_3_4).
Proof.
  apply (nothing_visible_is_harmless stacked_3_4 (state_a_b (Some "c:2"))
           (Fin (12 # 1000)) (Fin 1) 0).
  - right. exists "c:2". split; [reflexivity|]. split; [discriminate|].
    apply (bool_decide_unpack _). vm_compute. exact I.
  - window_bounds.
  - cbn. lia.
  - cbn. lia.
Defined.

(** ** Where the offsets are read *)

Section Offsets.

Variables (props : Props) (st : State).
Hypothesis offsets_unused : showStacked props = false \/ no_selection st = false.

Lemma visible_without_offsets :
  getVisibleMultiSeries (without_offsets st)
  = series_without_offsets <$> getVisibleMultiSeries st.
Proof.
  unfold getVisibleMultiSeries, no_selection, without_offsets.
  cbn [selectedLegendSeriesKey state_multiSeries].
  destruct (selectedLegendSeriesKey st) as [k|]; [|done].
  destruct (String.eqb k ""); [done|]. by apply filter_fmap.
Qed.

Lemma lookup_without_offsets (s : Series) (ts : Z) :
  getDatapointAtTimestamp (series_without_offsets s) ts
  = without_offset <$> getDatapointAtTimestamp s ts.
Proof.
  unfold getDatapointAtTimestamp, series_without_offsets. cbn [datapoints].
  rewrite <- list_fmap_compose, list_lookup_fmap.
  do 2 f_equal.
Qed.

Lemma graph_value_without_offsets (d : Datapoint) :
  getDatapointGraphValue props (without_offsets st) (without_offset d)
  = getDatapointGraphValue props st d.
Proof.
  unfold getDatapointGraphValue, getDatapointOffset, no_selection, without_offsets.
  cbn [selectedLegendSeriesKey value offset without_offset].
  destruct offsets_unused as [->|Hsel]; [done|].
  unfold no_selection in Hsel. rewrite Hsel. done.
Qed.

Lemma hover_point_without_offsets (s : Series) (ts : Z) :
  hover_point props (without_offsets st) ts (series_without_offsets s)
  = hover_point props st ts s.
Proof.
  unfold hover_point. rewrite lookup_without_offsets.
  destruct (getDatapointAtTimestamp s ts) as [d|]; [|done].
  cbn [fmap option_fmap option_map mbind option_bind].
  by rewrite graph_value_without_offsets.
Qed.

Lemma hover_points_without_offsets (ts : Z) (l : list Series) :
  mapM (hover_point props (without_offsets st) ts) (series_without_offsets <$> l)
  = mapM (hover_point props st ts) l.
Proof.
  induction l as [|s l IH]; [done|].
  cbn [fmap list_fmap mapM]. by rewrite hover_point_without_offsets, IH.
Qed.

Lemma yPositions_without_offsets :
  yPositions props (without_offsets st) = yPositions props st.
Proof.
  unfold yPositions. rewrite visible_without_offsets.
  induction (getVisibleMultiSeries st) as [|s l IH]; [done|].
  cbn [fmap list_fmap concat]. rewrite IH. f_equal.
  unfold series_without_offsets. cbn [datapoints].
  rewrite <- list_fmap_compose. apply list_fmap_ext.
  intros i d _. apply graph_value_without_offsets.
Qed.

End Offsets.

(** X26.  In line mode, and in either mode while the legend selects a
    series, the stacking offsets are not read: hover resolution and the
    maximum of the value axis are what they would be with every offset
    set to 0. *)
Theorem offsets_are_read_only_when_stacking_everything
    (props : Props) (st : State) (valuesMinSpread cv : num) (ct : Q) :
  showStacked props = false \/ no_selection st = false ->
  handleGraphMouseMove props (without_offsets st) cv ct
  = handleGraphMouseMove props st cv ct
  /\ yAxisMax props valuesMinSpread (without_offsets st)
     = yAxisMax props valuesMinSpread st.
Proof.
  intros Hun. split.
  - unfold handleGraphMouseMove.
    destruct (getTimestampQuantizer (window props)) as [qz|]; [|done].
    cbn [mbind option_bind].
    destruct (quantize qz ct) as [ts|]; [|done]. cbn [mbind option_bind].
    by rewrite visible_without_offsets, hover_points_without_offsets.
  - unfold yAxisMax. by rewrite yPositions_without_offsets.
Qed.

Lemma offsets_are_read_only_when_stacking_everything_witness :
  handleGraphMouseMove stacked_3_4 (without_offsets (state_a_b (Some "b:1"))) (Fin 1) 0
  = handleGraphMouseMove stacked_3_4 (state_a_b (Some "b:1")) (Fin 1) 0
  /\ yAxisMax stacked_3_4 (Fin (12 # 1000)) (without_offsets (state_a_b (Some "b:1")))
     = yAxisMax stacked_3_4 (Fin (12 # 1000)) (state_a_b (Some "b:1")).
Proof.
  apply (offsets_are_read_only_when_stacking_everything
           stacked_3_4 (state_a_b (Some "b:1")) (Fin (12 # 1000)) (Fin 1) 0).
  right. reflexivity.
Defined.

(** ** The maximum of the value axis *)

Section Max.

Context {A : Type} (iteratee : A -> option num).

Lemma baseExtremum_gt_spec (array : list A) :
  forall computed, computed_ok iteratee computed ->
  match baseExtremum_gt iteratee computed array with
  | None => computed = None /\ Forall (fun y => ~ counts iteratee y) array
  | Some (c, v) =>
      isNaN c = false /\ iteratee v = Some c
      /\ (computed = Some (c, v) \/ v ∈ array)
      /\ Forall (fun y => forall cy, iteratee y = Some cy -> num_lt c cy = false) array
      /\ (forall c0 v0, computed = Some (c0, v0) -> num_lt c c0 = false)
  end.
Proof.
  induction array as [|y array IH]; intros computed Hok; cbn [baseExtremum_gt].
  { destruct computed as [[c v]|]; [|by split].
    destruct Hok as [Hc Hv].
    refine (conj Hc (conj Hv (conj (or_introl eq_refl) (conj (List.Forall_nil _) _)))).
    intros c0 v0 [= <- <-]. apply num_lt_irrefl. }
  destruct (iteratee y) as [current|] eqn:Hy.
  - destruct computed as [[c0 v0]|].
    + destruct Hok as [Hc0 Hv0]. unfold num_gt.
      destruct (num_lt c0 current) eqn:Hlt.
      * destruct (num_lt_not_NaN _ _ Hlt) as [_ Hcur].
        specialize (IH (Some (current, y)) (conj Hcur Hy)).
        destruct (baseExtremum_gt _ _ array) as [[c v]|]; [|by destruct IH as [? _]].
        destruct IH as (Hc & Hv & Hin & Hall & Hprev).
        specialize (Hprev _ _ eq_refl).
        refine (conj Hc (conj Hv (conj _ (conj _ _)))).
        -- right. destruct Hin as [[= -> ->]|Hin]; [left|right]; done.
        -- constructor; [|done]. intros cy Hcy.
           rewrite Hy in Hcy. by injection Hcy as <-.
        -- intros ? ? [= <- <-].
           destruct c0 as [a| | |], current as [b| | |], c as [x| | |];
             simpl in *; try done.
           rewrite Qltb_lt in Hlt. rewrite Qltb_ge in Hprev |- *.
           apply Qle_trans with b; [by apply Qlt_le_weak|done].
      * specialize (IH (Some (c0, v0)) (conj Hc0 Hv0)).
        destruct (baseExtremum_gt _ _ array) as [[c v]|]; [|by destruct IH as [? _]].
        destruct IH as (Hc & Hv & Hin & Hall & Hprev).
        specialize (Hprev _ _ eq_refl).
        refine (conj Hc (conj Hv (conj _ (conj _ _)))).
        -- destruct Hin as [Hin|Hin]; [by left|right; by right].
        -- constructor; [|done]. intros cy Hcy.
           rewrite Hy in Hcy. injection Hcy as <-.
           destruct c0 as [a| | |], current as [b| | |], c as [x| | |];
             simpl in *; try done.
           rewrite Qltb_ge in Hlt, Hprev |- *. by apply Qle_trans with a.
        -- by intros ? ? [= <- <-].
    + destruct (isNaN current) eqn:Hnan.
      * specialize (IH None I).
        destruct (baseExtremum_gt _ _ array) as [[c v]|].
        -- destruct IH as (Hc & Hv & Hin & Hall & Hprev).
           refine (conj Hc (conj Hv (conj _ (conj _ _)))).
           ++ destruct Hin as [Hin|Hin]; [done|right; by right].
           ++ constructor; [|done]. intros cy Hcy.
              rewrite Hy in Hcy. injection Hcy as <-.
              destruct current; try done. by destruct c.
           ++ done.
        -- destruct IH as [_ Hall]. split; [done|].
           constructor; [|done]. intros (c & Hc & Hc').
           rewrite Hy in Hc. injection Hc as <-. congruence.
      * specialize (IH (Some (current, y)) (conj Hnan Hy)).
        destruct (baseExtremum_gt _ _ array) as [[c v]|]; [|by destruct IH as [? _]].
        destruct IH as (Hc & Hv & Hin & Hall & Hprev).
        specialize (Hprev _ _ eq_refl).
        refine (conj Hc (conj Hv (conj _ (conj _ _)))).
        -- right. destruct Hin as [[= -> ->]|Hin]; [left|right]; done.
        -- constructor; [|done]. intros cy Hcy.
           rewrite Hy in Hcy. by injection Hcy as <-.
        -- done.
  - specialize (IH computed Hok).
    destruct (baseExtremum_gt _ _ array) as [[c v]|].
    + destruct IH as (Hc & Hv & Hin & Hall & Hprev).
      refine (conj Hc (conj Hv (conj _ (conj _ Hprev)))).
      * destruct Hin as [Hin|Hin]; [by left|right; by right].
      * constructor; [|done]. intros cy Hcy. congruence.
    + destruct IH as [-> Hall]. split; [done|].
      constructor; [|done]. intros (c & Hc & _). congruence.
Qed.

End Max.

Lemma elem_of_concat {A} (x : A) (ls : list (list A)) :
  x ∈ concat ls <-> exists l, x ∈ l /\ l ∈ ls.
Proof.
  induction ls as [|l ls IH]; cbn [concat].
  - split; [by intros ?%elem_of_nil|by intros (l & _ & ?%elem_of_nil)].
  - rewrite elem_of_app, IH. split.
    + intros [Hx|(l' & Hx & Hl')].
      * exists l. split; [done|apply list_elem_of_here].
      * exists l'. split; [done|by apply list_elem_of_further].
    + intros (l' & Hx & [->|Hl']%elem_of_cons); [by left|right; by exists l'].
Qed.

Lemma elem_of_yPositions (props : Props) (st : State) (g : option num) :
  g ∈ yPositions props st <->
  exists series dp,
    series ∈ getVisibleMultiSeries st /\ dp ∈ datapoints series
    /\ getDatapointGraphValue props st dp = g.
Proof.
  unfold yPositions. rewrite elem_of_concat. split.
  - intros (l & Hg & Hl). apply list_elem_of_fmap in Hl as (series & -> & Hs).
    apply list_elem_of_fmap in Hg as (dp & -> & Hdp). by exists series, dp.
  - intros (series & dp & Hs & Hdp & <-).
    exists (getDatapointGraphValue props st <$> datapoints series).
    split; [by apply list_elem_of_fmap_2|].
    apply list_elem_of_fmap. by exists series.
Qed.

(** X27.  When [valuesMinSpread] is a number, the maximum of the value
    axis is a number too: it is [valuesMinSpread] or the graph value of
    a datapoint of a visible series, it is not below [valuesMinSpread],
    and it is not below the graph value of any datapoint of a visible
    series.  Gaps in line mode take no part. *)
Theorem yAxisMax_is_the_maximum (props : Props) (valuesMinSpread : num) (st : State) :
  isNaN valuesMinSpread = false ->
  exists m,
    yAxisMax props valuesMinSpread st = Some m
    /\ isNaN m = false
    /\ (m = valuesMinSpread
        \/ exists series dp,
             series ∈ getVisibleMultiSeries st /\ dp ∈ datapoints series
             /\ getDatapointGraphValue props st dp = Some m)
    /\ num_lt m valuesMinSpread = false
    /\ (forall series dp g,
           series ∈ getVisibleMultiSeries st -> dp ∈ datapoints series ->
           getDatapointGraphValue props st dp = Some g ->
           num_lt m g = false).
Proof.
  intros Hnan. unfold yAxisMax, max. cbn [baseExtremum_gt id]. rewrite Hnan.
  pose proof (baseExtremum_gt_spec id (yPositions props st)
                (Some (valuesMinSpread, Some valuesMinSpread)) (conj Hnan eq_refl)) as H.
  destruct (baseExtremum_gt id _ (yPositions props st)) as [[c v]|];
    [|by destruct H as [? _]].
  destruct H as (Hc & Hv & Hin & Hall & Hprev). unfold id in Hv. subst v.
  exists c. cbn [fmap option_fmap option_map fst].
  split; [done|]. split; [done|]. split; [|split].
  - destruct Hin as [[= ->]|Hin]; [by left|right].
    by apply elem_of_yPositions in Hin.
  - by apply (Hprev valuesMinSpread (Some valuesMinSpread)).
  - intros series dp g Hs Hdp Hg.
    rewrite Forall_forall in Hall. apply (Hall (Some g)); [|done].
    apply elem_of_yPositions. by exists series, dp.
Qed.

Lemma yAxisMax_is_the_maximum_witness :
  exists m,
    yAxisMax stacked_3_4 (Fin (12 # 1000)) (mounted stacked_3_4) = Some m
    /\ m = Fin 7
    /\ num_lt m (Fin (12 # 1000)) = false.
Proof.
  destruct (yAxisMax_is_the_maximum stacked_3_4 (Fin (12 # 1000))
              (mounted stacked_3_4) eq_refl) as (m & Hm & _ & _ & Hlo & _).
  exists m. split; [done|]. split; [|done].
  vm_compute in Hm. by injection Hm as <-.
Defined.

(** ** Hover on a grid in ascending order, datapoint by datapoint *)

(** X28.  On a window with a positive step that does not end before
    it starts and whose grid the sort left in ascending numeric order,
    hover resolution on the mounted series never fails, whatever the
    cursor and the legend selection: it returns a grid timestamp, and
    without [simpleTooltip] one hover point per visible series, carrying
    the value of the datapoint of that series at that very timestamp. *)
Theorem hover_reads_the_hovered_timestamp
    (props : Props) (ms : list Series) (sel : option string) (cv : num) (ct : Q) :
  0 < stepDurationSec (window props) ->
  startTimeSec (window props) <= endTimeSec (window props) ->
  Sorted Z.lt (getTimestampSecs (window props)) ->
  processMultiSeries props = Some ms ->
  exists ts hps,
    handleGraphMouseMove props
      {| selectedLegendSeriesKey := sel; state_multiSeries := ms |} cv ct
    = Some (ts, hps)
    /\ ts ∈ getTimestampSecs (window props)
    /\ (simpleTooltip props = false ->
        Forall2 (fun series p =>
                   hp_key p = key series
                   /\ exists dp, dp ∈ datapoints series
                                 /\ timestampSec dp = ts
                                 /\ hp_value p = value dp)
                (getVisibleMultiSeries
                   {| selectedLegendSeriesKey := sel; state_multiSeries := ms |})
                hps).
Proof.
  intros Hd Hse Hasc Hms.
  set (st := {| selectedLegendSeriesKey := sel; state_multiSeries := ms |}).
  destruct (getTimestampQuantizer_is_Some _ Hd Hse) as [qz Hqz].
  destruct (quantize_total _ qz ct Hqz) as (ts & Hts & Hin).
  assert (Hfind : forall series, series ∈ getVisibleMultiSeries st ->
            exists dp, dp ∈ datapoints series /\ timestampSec dp = ts
                       /\ getDatapointAtTimestamp series ts = Some dp).
  { intros series Hs.
    assert (Hsm : series ∈ ms).
    { unfold getVisibleMultiSeries in Hs. cbn [state_multiSeries] in Hs.
      destruct (no_selection st); [done|].
      by apply elem_of_filter_bool in Hs as [? _]. }
    pose proof (processMultiSeries_timestamps props ms Hms) as Htss.
    rewrite Forall_forall in Htss. specialize (Htss series Hsm).
    rewrite <- Htss in Hin, Hasc.
    apply list_elem_of_fmap in Hin as (dp & -> & Hdp).
    exists dp. split; [done|]. split; [done|].
    apply lookup_own_timestamp; [|done].
    apply Sorted_StronglySorted; [apply _|done]. }
  assert (Hall : Forall (fun series => is_Some (hover_point props st ts series))
                        (getVisibleMultiSeries st)).
  { apply Forall_forall. intros series Hs.
    destruct (Hfind series Hs) as (dp & _ & _ & Hdp).
    unfold hover_point. rewrite Hdp. by eexists. }
  apply mapM_is_Some in Hall. destruct Hall as [pts Hpts].
  unfold handleGraphMouseMove. rewrite Hqz. cbn [mbind option_bind].
  rewrite Hts. cbn [mbind option_bind]. rewrite Hpts. cbn [mbind option_bind].
  eexists _, _. split; [reflexivity|]. split; [done|].
  intros ->. apply Forall2_fmap_r.
  apply mapM_Some in Hpts.
  apply Forall2_same_length_lookup. split; [by eapply Forall2_length|].
  intros i series p Hs Hp.
  pose proof (Forall2_lookup_lr _ _ _ _ _ _ Hpts Hs Hp) as Hsp.
  apply hover_point_inv in Hsp as (d & Hd' & _ & Hv & Hk).
  destruct (Hfind series) as (dp & Hdp & Hdts & Hlook);
    [by eapply list_elem_of_lookup_2|].
  rewrite Hlook in Hd'. injection Hd' as <-.
  split; [done|]. by exists dp.
Qed.

Lemma hover_reads_the_hovered_timestamp_witness :
  exists ts hps,
    handleGraphMouseMove (scenario_A_B true)
      {| selectedLegendSeriesKey := None;
         state_multiSeries := state_multiSeries (mounted (scenario_A_B true)) |}
      (Fin 1) (inject_Z 160)
    = Some (ts, hps)
    /\ ts ∈ getTimestampSecs (window (scenario_A_B true))
    /\ (simpleTooltip (scenario_A_B true) = false ->
        Forall2 (fun series p =>
                   hp_key p = key series
                   /\ exists dp, dp ∈ datapoints series
                                 /\ timestampSec dp = ts
                                 /\ hp_value p = value dp)
                (getVisibleMultiSeries
                   {| selectedLegendSeriesKey := None;
                      state_multiSeries := state_multiSeries (mounted (scenario_A_B true)) |})
                hps).
Proof.
  apply (hover_reads_the_hovered_timestamp (scenario_A_B true)
           (state_multiSeries (mounted (scenario_A_B true))) None (Fin 1) (inject_Z 160)).
  - cbn. lia.
  - cbn. lia.
  - vm_compute. repeat constructor.
  - vm_compute. reflexivity.
Defined.

(** ** The two linear scales *)

(** X29.  The value scale is inverted: the value 0 is drawn at the
    bottom of the surface and the maximum of the axis at its top, a
    larger value is never drawn lower, and inverting the scale takes a
    drawn position back to its value and conversely. *)
Theorem value_scale_is_inverted (maxY height : Q) :
  ~ (maxY == 0)%Q -> ~ (height == 0)%Q ->
  (valueScale maxY height 0 == height)%Q
  /\ (valueScale maxY height maxY == 0)%Q
  /\ (forall v, valueScale_invert maxY height (valueScale maxY height v) == v)%Q
  /\ (forall y, valueScale maxY height (valueScale_invert maxY height y) == y)%Q
  /\ ((0 < maxY)%Q -> (0 < height)%Q ->
      forall v1 v2, (v1 <= v2)%Q ->
        (valueScale maxY height v2 <= valueScale maxY height v1)%Q).
Proof.
  intros Hm Hh. unfold valueScale, valueScale_invert, scaleLinear, scaleLinear_invert.
  split; [field; done|]. split; [field; done|].
  split; [intros v; field; done|]. split; [intros y; field; done|].
  intros Hmpos Hhpos v1 v2 Hv.
  assert (Heq : forall v, (height + (v - 0) / (maxY - 0) * (0 - height)
                           == height - v * (height / maxY))%Q)
    by (intros v; field; done).
  rewrite !Heq. apply Qplus_le_r, Qopp_le_compat, Qmult_le_compat_r; [done|].
  apply Qlt_le_weak, Qlt_shift_div_l; [done|]. by rewrite Qmult_0_l.
Qed.

Lemma value_scale_is_inverted_witness :
  (valueScale 7 200 0 == 200)%Q /\ (valueScale 7 200 7 == 0)%Q
  /\ (valueScale_invert 7 200 (valueScale 7 200 (35 # 10)) == 35 # 10)%Q.
Proof.
  destruct (value_scale_is_inverted 7 200) as (H0 & Hmax & Hinv & _);
    [Qconst|Qconst|].
  split; [exact H0|]. split; [exact Hmax|]. apply Hinv.
Defined.

(** X30.  On a window that does not start where it ends, the time
    scale draws the start of the window at the left edge of the surface
    and its end at the right edge, and inverting it takes a drawn
    position back to its timestamp and conversely. *)
Theorem time_scale_round_trip (w : Window) (width : Q) :
  startTimeSec w <> endTimeSec w -> ~ (width == 0)%Q ->
  (timeScale w width (inject_Z (startTimeSec w)) == 0)%Q
  /\ (timeScale w width (inject_Z (endTimeSec w)) == width)%Q
  /\ (forall x, cursorTimestampSec_of w width (timeScale w width x) == x)%Q
  /\ (forall px, timeScale w width (cursorTimestampSec_of w width px) == px)%Q.
Proof.
  intros Hw Hwidth.
  assert (Hne : ~ (inject_Z (endTimeSec w) - inject_Z (startTimeSec w) == 0)%Q).
  { intros H0. apply Hw. symmetry. apply inject_Z_injective.
    apply (Qplus_inj_r _ _ (- inject_Z (startTimeSec w))).
    rewrite Qplus_opp_r. exact H0. }
  unfold timeScale, cursorTimestampSec_of, scaleLinear, scaleLinear_invert.
  split; [field; done|]. split; [field; done|].
  split; [intros x; field; done|]. intros px; field; done.
Qed.

Lemma time_scale_round_trip_witness :
  (timeScale (mkWindow 0 300 100) 600 0 == 0)%Q
  /\ (timeScale (mkWindow 0 300 100) 600 300 == 600)%Q
  /\ (cursorTimestampSec_of (mkWindow 0 300 100) 600
        (timeScale (mkWindow 0 300 100) 600 150) == 150)%Q.
Proof.
  destruct (time_scale_round_trip (mkWindow 0 300 100) 600) as (H0 & H1 & Hinv & _);
    [discriminate|Qconst|].
  split; [exact H0|]. split; [exact H1|]. apply Hinv.
Defined.
